(** * filmratio: the aspect-ratio extraction pipeline of the background worker

    A shallow embedding of the parsing, de-duplication, classification and
    selection functions of the background service worker, together with the
    properties stated for them.

    - JavaScript strings are sequences of UTF-16 code units ([list N]).
    - JavaScript numbers are IEEE-754 binary64 values ([spec_float] with
      precision 53 and maximal exponent 1024), so that the rounding of the
      ratios is the one of the source, error included.
    - Regular expressions are abstract syntax trees run by a backtracking
      matcher with the priorities of the ECMAScript matcher (leftmost start,
      greedy or lazy iteration, ordered alternation).
    - [null] is [None]; a thrown [Error] is the left summand of a sum.
    - The state of the worker (the two storage areas, the status, the table
      of the tabs, the badges of the icon, the requests sent) is passed
      explicitly from handler to handler; what a handler reads from the
      clock and what [fetch] answers are inputs of the event. *)

From Stdlib Require Import ZArith NArith Ascii String.
From Stdlib Require Import Floats.SpecFloat.
From stdpp Require Import base list gmap.

Local Open Scope N_scope.

(** ** Strings *)

Module JSString.

(** A string literal of the source, as code units (ASCII literals only). *)
Definition js (s : string) : list N :=
  List.map N_of_ascii (list_ascii_of_string s).
Arguments js s%_string.

Definition isDigit (c : N) : bool := (48 <=? c) && (c <=? 57).
Definition isUpper (c : N) : bool := (65 <=? c) && (c <=? 90).
Definition isLower (c : N) : bool := (97 <=? c) && (c <=? 122).

(** [\w] of the regular expressions: [A-Za-z0-9_]. *)
Definition isWord (c : N) : bool :=
  isDigit c || isUpper c || isLower c || (c =? 95).

(** [\s], which is also what [trim] strips: WhiteSpace and LineTerminator. *)
Definition isSpace (c : N) : bool :=
  ((9 <=? c) && (c <=? 13)) || (c =? 32) || (c =? 160) || (c =? 5760)
  || ((8192 <=? c) && (c <=? 8202)) || (c =? 8232) || (c =? 8233)
  || (c =? 8239) || (c =? 8287) || (c =? 12288) || (c =? 65279).

(** Line terminators, the code units [.] does not match. *)
Definition isLineTerminator (c : N) : bool :=
  (c =? 10) || (c =? 13) || (c =? 8232) || (c =? 8233).

(** The two cases of an ASCII letter (the case folding of the regular
    expressions under the [i] flag, see [chri]). *)
Definition lowerUnit (c : N) : N := if isUpper c then c + 32 else c.
Definition upperUnit (c : N) : N := if isLower c then c - 32 else c.

(** *** Case conversion

    [toLowerCase] and [toUpperCase] work on the code points of the string
    and follow the case mappings of the Unicode Character Database
    (version 14.0.0): the simple mappings, the unconditional special
    mappings (among them U+0130, whose lower case is two code units) and
    the rule of the final sigma.  A range [(first, last, step, target)] of
    a table maps the code points [first + i * step] up to [last] to
    [target + i * step]. *)

Definition lowerRanges : list (N * N * N * N) :=
  [
   (65, 90, 1, 97); (192, 214, 1, 224); (216, 222, 1, 248);
   (256, 302, 2, 257); (306, 310, 2, 307); (313, 327, 2, 314);
   (330, 374, 2, 331); (376, 376, 1, 255); (377, 381, 2, 378);
   (385, 385, 1, 595); (386, 388, 2, 387); (390, 390, 1, 596);
   (391, 391, 1, 392); (393, 394, 1, 598); (395, 395, 1, 396);
   (398, 398, 1, 477); (399, 399, 1, 601); (400, 400, 1, 603);
   (401, 401, 1, 402); (403, 403, 1, 608); (404, 404, 1, 611);
   (406, 406, 1, 617); (407, 407, 1, 616); (408, 408, 1, 409);
   (412, 412, 1, 623); (413, 413, 1, 626); (415, 415, 1, 629);
   (416, 420, 2, 417); (422, 422, 1, 640); (423, 423, 1, 424);
   (425, 425, 1, 643); (428, 428, 1, 429); (430, 430, 1, 648);
   (431, 431, 1, 432); (433, 434, 1, 650); (435, 437, 2, 436);
   (439, 439, 1, 658); (440, 440, 1, 441); (444, 444, 1, 445);
   (452, 452, 1, 454); (453, 453, 1, 454); (455, 455, 1, 457);
   (456, 456, 1, 457); (458, 458, 1, 460); (459, 475, 2, 460);
   (478, 494, 2, 479); (497, 497, 1, 499); (498, 500, 2, 499);
   (502, 502, 1, 405); (503, 503, 1, 447); (504, 542, 2, 505);
   (544, 544, 1, 414); (546, 562, 2, 547); (570, 570, 1, 11365);
   (571, 571, 1, 572); (573, 573, 1, 410); (574, 574, 1, 11366);
   (577, 577, 1, 578); (579, 579, 1, 384); (580, 580, 1, 649);
   (581, 581, 1, 652); (582, 590, 2, 583); (880, 882, 2, 881);
   (886, 886, 1, 887); (895, 895, 1, 1011); (902, 902, 1, 940);
   (904, 906, 1, 941); (908, 908, 1, 972); (910, 911, 1, 973);
   (913, 929, 1, 945); (932, 939, 1, 964); (975, 975, 1, 983);
   (984, 1006, 2, 985); (1012, 1012, 1, 952); (1015, 1015, 1, 1016);
   (1017, 1017, 1, 1010); (1018, 1018, 1, 1019); (1021, 1023, 1, 891);
   (1024, 1039, 1, 1104); (1040, 1071, 1, 1072); (1120, 1152, 2, 1121);
   (1162, 1214, 2, 1163); (1216, 1216, 1, 1231); (1217, 1229, 2, 1218);
   (1232, 1326, 2, 1233); (1329, 1366, 1, 1377); (4256, 4293, 1, 11520);
   (4295, 4295, 1, 11559); (4301, 4301, 1, 11565); (5024, 5103, 1, 43888);
   (5104, 5109, 1, 5112); (7312, 7354, 1, 4304); (7357, 7359, 1, 4349);
   (7680, 7828, 2, 7681); (7838, 7838, 1, 223); (7840, 7934, 2, 7841);
   (7944, 7951, 1, 7936); (7960, 7965, 1, 7952); (7976, 7983, 1, 7968);
   (7992, 7999, 1, 7984); (8008, 8013, 1, 8000); (8025, 8031, 2, 8017);
   (8040, 8047, 1, 8032); (8072, 8079, 1, 8064); (8088, 8095, 1, 8080);
   (8104, 8111, 1, 8096); (8120, 8121, 1, 8112); (8122, 8123, 1, 8048);
   (8124, 8124, 1, 8115); (8136, 8139, 1, 8050); (8140, 8140, 1, 8131);
   (8152, 8153, 1, 8144); (8154, 8155, 1, 8054); (8168, 8169, 1, 8160);
   (8170, 8171, 1, 8058); (8172, 8172, 1, 8165); (8184, 8185, 1, 8056);
   (8186, 8187, 1, 8060); (8188, 8188, 1, 8179); (8486, 8486, 1, 969);
   (8490, 8490, 1, 107); (8491, 8491, 1, 229); (8498, 8498, 1, 8526);
   (8544, 8559, 1, 8560); (8579, 8579, 1, 8580); (9398, 9423, 1, 9424);
   (11264, 11311, 1, 11312); (11360, 11360, 1, 11361);
   (11362, 11362, 1, 619); (11363, 11363, 1, 7549); (11364, 11364, 1, 637);
   (11367, 11371, 2, 11368); (11373, 11373, 1, 593); (11374, 11374, 1, 625);
   (11375, 11375, 1, 592); (11376, 11376, 1, 594); (11378, 11378, 1, 11379);
   (11381, 11381, 1, 11382); (11390, 11391, 1, 575);
   (11392, 11490, 2, 11393); (11499, 11501, 2, 11500);
   (11506, 11506, 1, 11507); (42560, 42604, 2, 42561);
   (42624, 42650, 2, 42625); (42786, 42798, 2, 42787);
   (42802, 42862, 2, 42803); (42873, 42875, 2, 42874);
   (42877, 42877, 1, 7545); (42878, 42886, 2, 42879);
   (42891, 42891, 1, 42892); (42893, 42893, 1, 613);
   (42896, 42898, 2, 42897); (42902, 42920, 2, 42903);
   (42922, 42922, 1, 614); (42923, 42923, 1, 604); (42924, 42924, 1, 609);
   (42925, 42925, 1, 620); (42926, 42926, 1, 618); (42928, 42928, 1, 670);
   (42929, 42929, 1, 647); (42930, 42930, 1, 669); (42931, 42931, 1, 43859);
   (42932, 42946, 2, 42933); (42948, 42948, 1, 42900);
   (42949, 42949, 1, 642); (42950, 42950, 1, 7566); (42951, 42953, 2, 42952);
   (42960, 42960, 1, 42961); (42966, 42968, 2, 42967);
   (42997, 42997, 1, 42998); (65313, 65338, 1, 65345);
   (66560, 66599, 1, 66600); (66736, 66771, 1, 66776);
   (66928, 66938, 1, 66967); (66940, 66954, 1, 66979);
   (66956, 66962, 1, 66995); (66964, 66965, 1, 67003);
   (68736, 68786, 1, 68800); (71840, 71871, 1, 71872);
   (93760, 93791, 1, 93792); (125184, 125217, 1, 125218)
  ].

Definition upperRanges : list (N * N * N * N) :=
  [
   (97, 122, 1, 65); (181, 181, 1, 924); (224, 246, 1, 192);
   (248, 254, 1, 216); (255, 255, 1, 376); (257, 303, 2, 256);
   (305, 305, 1, 73); (307, 311, 2, 306); (314, 328, 2, 313);
   (331, 375, 2, 330); (378, 382, 2, 377); (383, 383, 1, 83);
   (384, 384, 1, 579); (387, 389, 2, 386); (392, 392, 1, 391);
   (396, 396, 1, 395); (402, 402, 1, 401); (405, 405, 1, 502);
   (409, 409, 1, 408); (410, 410, 1, 573); (414, 414, 1, 544);
   (417, 421, 2, 416); (424, 424, 1, 423); (429, 429, 1, 428);
   (432, 432, 1, 431); (436, 438, 2, 435); (441, 441, 1, 440);
   (445, 445, 1, 444); (447, 447, 1, 503); (453, 453, 1, 452);
   (454, 454, 1, 452); (456, 456, 1, 455); (457, 457, 1, 455);
   (459, 459, 1, 458); (460, 460, 1, 458); (462, 476, 2, 461);
   (477, 477, 1, 398); (479, 495, 2, 478); (498, 498, 1, 497);
   (499, 499, 1, 497); (501, 501, 1, 500); (505, 543, 2, 504);
   (547, 563, 2, 546); (572, 572, 1, 571); (575, 576, 1, 11390);
   (578, 578, 1, 577); (583, 591, 2, 582); (592, 592, 1, 11375);
   (593, 593, 1, 11373); (594, 594, 1, 11376); (595, 595, 1, 385);
   (596, 596, 1, 390); (598, 599, 1, 393); (601, 601, 1, 399);
   (603, 603, 1, 400); (604, 604, 1, 42923); (608, 608, 1, 403);
   (609, 609, 1, 42924); (611, 611, 1, 404); (613, 613, 1, 42893);
   (614, 614, 1, 42922); (616, 616, 1, 407); (617, 617, 1, 406);
   (618, 618, 1, 42926); (619, 619, 1, 11362); (620, 620, 1, 42925);
   (623, 623, 1, 412); (625, 625, 1, 11374); (626, 626, 1, 413);
   (629, 629, 1, 415); (637, 637, 1, 11364); (640, 640, 1, 422);
   (642, 642, 1, 42949); (643, 643, 1, 425); (647, 647, 1, 42929);
   (648, 648, 1, 430); (649, 649, 1, 580); (650, 651, 1, 433);
   (652, 652, 1, 581); (658, 658, 1, 439); (669, 669, 1, 42930);
   (670, 670, 1, 42928); (837, 837, 1, 921); (881, 883, 2, 880);
   (887, 887, 1, 886); (891, 893, 1, 1021); (940, 940, 1, 902);
   (941, 943, 1, 904); (945, 961, 1, 913); (962, 962, 1, 931);
   (963, 971, 1, 931); (972, 972, 1, 908); (973, 974, 1, 910);
   (976, 976, 1, 914); (977, 977, 1, 920); (981, 981, 1, 934);
   (982, 982, 1, 928); (983, 983, 1, 975); (985, 1007, 2, 984);
   (1008, 1008, 1, 922); (1009, 1009, 1, 929); (1010, 1010, 1, 1017);
   (1011, 1011, 1, 895); (1013, 1013, 1, 917); (1016, 1016, 1, 1015);
   (1019, 1019, 1, 1018); (1072, 1103, 1, 1040); (1104, 1119, 1, 1024);
   (1121, 1153, 2, 1120); (1163, 1215, 2, 1162); (1218, 1230, 2, 1217);
   (1231, 1231, 1, 1216); (1233, 1327, 2, 1232); (1377, 1414, 1, 1329);
   (4304, 4346, 1, 7312); (4349, 4351, 1, 7357); (5112, 5117, 1, 5104);
   (7296, 7296, 1, 1042); (7297, 7297, 1, 1044); (7298, 7298, 1, 1054);
   (7299, 7300, 1, 1057); (7301, 7301, 1, 1058); (7302, 7302, 1, 1066);
   (7303, 7303, 1, 1122); (7304, 7304, 1, 42570); (7545, 7545, 1, 42877);
   (7549, 7549, 1, 11363); (7566, 7566, 1, 42950); (7681, 7829, 2, 7680);
   (7835, 7835, 1, 7776); (7841, 7935, 2, 7840); (7936, 7943, 1, 7944);
   (7952, 7957, 1, 7960); (7968, 7975, 1, 7976); (7984, 7991, 1, 7992);
   (8000, 8005, 1, 8008); (8017, 8023, 2, 8025); (8032, 8039, 1, 8040);
   (8048, 8049, 1, 8122); (8050, 8053, 1, 8136); (8054, 8055, 1, 8154);
   (8056, 8057, 1, 8184); (8058, 8059, 1, 8170); (8060, 8061, 1, 8186);
   (8112, 8113, 1, 8120); (8126, 8126, 1, 921); (8144, 8145, 1, 8152);
   (8160, 8161, 1, 8168); (8165, 8165, 1, 8172); (8526, 8526, 1, 8498);
   (8560, 8575, 1, 8544); (8580, 8580, 1, 8579); (9424, 9449, 1, 9398);
   (11312, 11359, 1, 11264); (11361, 11361, 1, 11360);
   (11365, 11365, 1, 570); (11366, 11366, 1, 574); (11368, 11372, 2, 11367);
   (11379, 11379, 1, 11378); (11382, 11382, 1, 11381);
   (11393, 11491, 2, 11392); (11500, 11502, 2, 11499);
   (11507, 11507, 1, 11506); (11520, 11557, 1, 4256);
   (11559, 11559, 1, 4295); (11565, 11565, 1, 4301);
   (42561, 42605, 2, 42560); (42625, 42651, 2, 42624);
   (42787, 42799, 2, 42786); (42803, 42863, 2, 42802);
   (42874, 42876, 2, 42873); (42879, 42887, 2, 42878);
   (42892, 42892, 1, 42891); (42897, 42899, 2, 42896);
   (42900, 42900, 1, 42948); (42903, 42921, 2, 42902);
   (42933, 42947, 2, 42932); (42952, 42954, 2, 42951);
   (42961, 42961, 1, 42960); (42967, 42969, 2, 42966);
   (42998, 42998, 1, 42997); (43859, 43859, 1, 42931);
   (43888, 43967, 1, 5024); (65345, 65370, 1, 65313);
   (66600, 66639, 1, 66560); (66776, 66811, 1, 66736);
   (66967, 66977, 1, 66928); (66979, 66993, 1, 66940);
   (66995, 67001, 1, 66956); (67003, 67004, 1, 66964);
   (68800, 68850, 1, 68736); (71872, 71903, 1, 71840);
   (93792, 93823, 1, 93760); (125218, 125251, 1, 125184)
  ].

(** The code points whose upper case is more than one code point. *)
Definition upperSpecial : list (N * list N) :=
  [
   (223, [83; 83]); (329, [700; 78]); (496, [74; 780]);
   (912, [921; 776; 769]); (944, [933; 776; 769]); (1415, [1333; 1362]);
   (7830, [72; 817]); (7831, [84; 776]); (7832, [87; 778]);
   (7833, [89; 778]); (7834, [65; 702]); (8016, [933; 787]);
   (8018, [933; 787; 768]); (8020, [933; 787; 769]); (8022, [933; 787; 834]);
   (8064, [7944; 921]); (8065, [7945; 921]); (8066, [7946; 921]);
   (8067, [7947; 921]); (8068, [7948; 921]); (8069, [7949; 921]);
   (8070, [7950; 921]); (8071, [7951; 921]); (8072, [7944; 921]);
   (8073, [7945; 921]); (8074, [7946; 921]); (8075, [7947; 921]);
   (8076, [7948; 921]); (8077, [7949; 921]); (8078, [7950; 921]);
   (8079, [7951; 921]); (8080, [7976; 921]); (8081, [7977; 921]);
   (8082, [7978; 921]); (8083, [7979; 921]); (8084, [7980; 921]);
   (8085, [7981; 921]); (8086, [7982; 921]); (8087, [7983; 921]);
   (8088, [7976; 921]); (8089, [7977; 921]); (8090, [7978; 921]);
   (8091, [7979; 921]); (8092, [7980; 921]); (8093, [7981; 921]);
   (8094, [7982; 921]); (8095, [7983; 921]); (8096, [8040; 921]);
   (8097, [8041; 921]); (8098, [8042; 921]); (8099, [8043; 921]);
   (8100, [8044; 921]); (8101, [8045; 921]); (8102, [8046; 921]);
   (8103, [8047; 921]); (8104, [8040; 921]); (8105, [8041; 921]);
   (8106, [8042; 921]); (8107, [8043; 921]); (8108, [8044; 921]);
   (8109, [8045; 921]); (8110, [8046; 921]); (8111, [8047; 921]);
   (8114, [8122; 921]); (8115, [913; 921]); (8116, [902; 921]);
   (8118, [913; 834]); (8119, [913; 834; 921]); (8124, [913; 921]);
   (8130, [8138; 921]); (8131, [919; 921]); (8132, [905; 921]);
   (8134, [919; 834]); (8135, [919; 834; 921]); (8140, [919; 921]);
   (8146, [921; 776; 768]); (8147, [921; 776; 769]); (8150, [921; 834]);
   (8151, [921; 776; 834]); (8162, [933; 776; 768]); (8163, [933; 776; 769]);
   (8164, [929; 787]); (8166, [933; 834]); (8167, [933; 776; 834]);
   (8178, [8186; 921]); (8179, [937; 921]); (8180, [911; 921]);
   (8182, [937; 834]); (8183, [937; 834; 921]); (8188, [937; 921]);
   (64256, [70; 70]); (64257, [70; 73]); (64258, [70; 76]);
   (64259, [70; 70; 73]); (64260, [70; 70; 76]); (64261, [83; 84]);
   (64262, [83; 84]); (64275, [1348; 1350]); (64276, [1348; 1333]);
   (64277, [1348; 1339]); (64278, [1358; 1350]); (64279, [1348; 1341])
  ].

(** The cased code points that are not case-ignorable, and the
    case-ignorable ones, as ranges [(first, last)]. *)
Definition casedRanges : list (N * N) :=
  [
   (65, 90); (97, 122); (170, 170); (181, 181); (186, 186); (192, 214);
   (216, 246); (248, 442); (444, 447); (452, 659); (661, 687); (880, 883);
   (886, 887); (891, 893); (895, 895); (902, 902); (904, 906); (908, 908);
   (910, 929); (931, 1013); (1015, 1153); (1162, 1327); (1329, 1366);
   (1376, 1416); (4256, 4293); (4295, 4295); (4301, 4301); (4304, 4346);
   (4349, 4351); (5024, 5109); (5112, 5117); (7296, 7304); (7312, 7354);
   (7357, 7359); (7424, 7467); (7531, 7543); (7545, 7578); (7680, 7957);
   (7960, 7965); (7968, 8005); (8008, 8013); (8016, 8023); (8025, 8025);
   (8027, 8027); (8029, 8029); (8031, 8061); (8064, 8116); (8118, 8124);
   (8126, 8126); (8130, 8132); (8134, 8140); (8144, 8147); (8150, 8155);
   (8160, 8172); (8178, 8180); (8182, 8188); (8450, 8450); (8455, 8455);
   (8458, 8467); (8469, 8469); (8473, 8477); (8484, 8484); (8486, 8486);
   (8488, 8488); (8490, 8493); (8495, 8500); (8505, 8505); (8508, 8511);
   (8517, 8521); (8526, 8526); (8544, 8575); (8579, 8580); (9398, 9449);
   (11264, 11387); (11390, 11492); (11499, 11502); (11506, 11507);
   (11520, 11557); (11559, 11559); (11565, 11565); (42560, 42605);
   (42624, 42651); (42786, 42863); (42865, 42887); (42891, 42894);
   (42896, 42954); (42960, 42961); (42963, 42963); (42965, 42969);
   (42997, 42998); (43002, 43002); (43824, 43866); (43872, 43880);
   (43888, 43967); (64256, 64262); (64275, 64279); (65313, 65338);
   (65345, 65370); (66560, 66639); (66736, 66771); (66776, 66811);
   (66928, 66938); (66940, 66954); (66956, 66962); (66964, 66965);
   (66967, 66977); (66979, 66993); (66995, 67001); (67003, 67004);
   (68736, 68786); (68800, 68850); (71840, 71903); (93760, 93823);
   (119808, 119892); (119894, 119964); (119966, 119967); (119970, 119970);
   (119973, 119974); (119977, 119980); (119982, 119993); (119995, 119995);
   (119997, 120003); (120005, 120069); (120071, 120074); (120077, 120084);
   (120086, 120092); (120094, 120121); (120123, 120126); (120128, 120132);
   (120134, 120134); (120138, 120144); (120146, 120485); (120488, 120512);
   (120514, 120538); (120540, 120570); (120572, 120596); (120598, 120628);
   (120630, 120654); (120656, 120686); (120688, 120712); (120714, 120744);
   (120746, 120770); (120772, 120779); (122624, 122633); (122635, 122654);
   (125184, 125251); (127280, 127305); (127312, 127337); (127344, 127369)
  ].

Definition caseIgnorableRanges : list (N * N) :=
  [
   (39, 39); (46, 46); (58, 58); (94, 94); (96, 96); (168, 168); (173, 173);
   (175, 175); (180, 180); (183, 184); (688, 879); (884, 885); (890, 890);
   (900, 901); (903, 903); (1155, 1161); (1369, 1369); (1375, 1375);
   (1425, 1469); (1471, 1471); (1473, 1474); (1476, 1477); (1479, 1479);
   (1524, 1524); (1536, 1541); (1552, 1562); (1564, 1564); (1600, 1600);
   (1611, 1631); (1648, 1648); (1750, 1757); (1759, 1768); (1770, 1773);
   (1807, 1807); (1809, 1809); (1840, 1866); (1958, 1968); (2027, 2037);
   (2042, 2042); (2045, 2045); (2070, 2093); (2137, 2139); (2184, 2184);
   (2192, 2193); (2200, 2207); (2249, 2306); (2362, 2362); (2364, 2364);
   (2369, 2376); (2381, 2381); (2385, 2391); (2402, 2403); (2417, 2417);
   (2433, 2433); (2492, 2492); (2497, 2500); (2509, 2509); (2530, 2531);
   (2558, 2558); (2561, 2562); (2620, 2620); (2625, 2626); (2631, 2632);
   (2635, 2637); (2641, 2641); (2672, 2673); (2677, 2677); (2689, 2690);
   (2748, 2748); (2753, 2757); (2759, 2760); (2765, 2765); (2786, 2787);
   (2810, 2815); (2817, 2817); (2876, 2876); (2879, 2879); (2881, 2884);
   (2893, 2893); (2901, 2902); (2914, 2915); (2946, 2946); (3008, 3008);
   (3021, 3021); (3072, 3072); (3076, 3076); (3132, 3132); (3134, 3136);
   (3142, 3144); (3146, 3149); (3157, 3158); (3170, 3171); (3201, 3201);
   (3260, 3260); (3263, 3263); (3270, 3270); (3276, 3277); (3298, 3299);
   (3328, 3329); (3387, 3388); (3393, 3396); (3405, 3405); (3426, 3427);
   (3457, 3457); (3530, 3530); (3538, 3540); (3542, 3542); (3633, 3633);
   (3636, 3642); (3654, 3662); (3761, 3761); (3764, 3772); (3782, 3782);
   (3784, 3789); (3864, 3865); (3893, 3893); (3895, 3895); (3897, 3897);
   (3953, 3966); (3968, 3972); (3974, 3975); (3981, 3991); (3993, 4028);
   (4038, 4038); (4141, 4144); (4146, 4151); (4153, 4154); (4157, 4158);
   (4184, 4185); (4190, 4192); (4209, 4212); (4226, 4226); (4229, 4230);
   (4237, 4237); (4253, 4253); (4348, 4348); (4957, 4959); (5906, 5908);
   (5938, 5939); (5970, 5971); (6002, 6003); (6068, 6069); (6071, 6077);
   (6086, 6086); (6089, 6099); (6103, 6103); (6109, 6109); (6155, 6159);
   (6211, 6211); (6277, 6278); (6313, 6313); (6432, 6434); (6439, 6440);
   (6450, 6450); (6457, 6459); (6679, 6680); (6683, 6683); (6742, 6742);
   (6744, 6750); (6752, 6752); (6754, 6754); (6757, 6764); (6771, 6780);
   (6783, 6783); (6823, 6823); (6832, 6862); (6912, 6915); (6964, 6964);
   (6966, 6970); (6972, 6972); (6978, 6978); (7019, 7027); (7040, 7041);
   (7074, 7077); (7080, 7081); (7083, 7085); (7142, 7142); (7144, 7145);
   (7149, 7149); (7151, 7153); (7212, 7219); (7222, 7223); (7288, 7293);
   (7376, 7378); (7380, 7392); (7394, 7400); (7405, 7405); (7412, 7412);
   (7416, 7417); (7468, 7530); (7544, 7544); (7579, 7679); (8125, 8125);
   (8127, 8129); (8141, 8143); (8157, 8159); (8173, 8175); (8189, 8190);
   (8203, 8207); (8216, 8217); (8228, 8228); (8231, 8231); (8234, 8238);
   (8288, 8292); (8294, 8303); (8305, 8305); (8319, 8319); (8336, 8348);
   (8400, 8432); (11388, 11389); (11503, 11505); (11631, 11631);
   (11647, 11647); (11744, 11775); (11823, 11823); (12293, 12293);
   (12330, 12333); (12337, 12341); (12347, 12347); (12441, 12446);
   (12540, 12542); (40981, 40981); (42232, 42237); (42508, 42508);
   (42607, 42610); (42612, 42621); (42623, 42623); (42652, 42655);
   (42736, 42737); (42752, 42785); (42864, 42864); (42888, 42890);
   (42994, 42996); (43000, 43001); (43010, 43010); (43014, 43014);
   (43019, 43019); (43045, 43046); (43052, 43052); (43204, 43205);
   (43232, 43249); (43263, 43263); (43302, 43309); (43335, 43345);
   (43392, 43394); (43443, 43443); (43446, 43449); (43452, 43453);
   (43471, 43471); (43493, 43494); (43561, 43566); (43569, 43570);
   (43573, 43574); (43587, 43587); (43596, 43596); (43632, 43632);
   (43644, 43644); (43696, 43696); (43698, 43700); (43703, 43704);
   (43710, 43711); (43713, 43713); (43741, 43741); (43756, 43757);
   (43763, 43764); (43766, 43766); (43867, 43871); (43881, 43883);
   (44005, 44005); (44008, 44008); (44013, 44013); (64286, 64286);
   (64434, 64450); (65024, 65039); (65043, 65043); (65056, 65071);
   (65106, 65106); (65109, 65109); (65279, 65279); (65287, 65287);
   (65294, 65294); (65306, 65306); (65342, 65342); (65344, 65344);
   (65392, 65392); (65438, 65439); (65507, 65507); (65529, 65531);
   (66045, 66045); (66272, 66272); (66422, 66426); (67456, 67461);
   (67463, 67504); (67506, 67514); (68097, 68099); (68101, 68102);
   (68108, 68111); (68152, 68154); (68159, 68159); (68325, 68326);
   (68900, 68903); (69291, 69292); (69446, 69456); (69506, 69509);
   (69633, 69633); (69688, 69702); (69744, 69744); (69747, 69748);
   (69759, 69761); (69811, 69814); (69817, 69818); (69821, 69821);
   (69826, 69826); (69837, 69837); (69888, 69890); (69927, 69931);
   (69933, 69940); (70003, 70003); (70016, 70017); (70070, 70078);
   (70089, 70092); (70095, 70095); (70191, 70193); (70196, 70196);
   (70198, 70199); (70206, 70206); (70367, 70367); (70371, 70378);
   (70400, 70401); (70459, 70460); (70464, 70464); (70502, 70508);
   (70512, 70516); (70712, 70719); (70722, 70724); (70726, 70726);
   (70750, 70750); (70835, 70840); (70842, 70842); (70847, 70848);
   (70850, 70851); (71090, 71093); (71100, 71101); (71103, 71104);
   (71132, 71133); (71219, 71226); (71229, 71229); (71231, 71232);
   (71339, 71339); (71341, 71341); (71344, 71349); (71351, 71351);
   (71453, 71455); (71458, 71461); (71463, 71467); (71727, 71735);
   (71737, 71738); (71995, 71996); (71998, 71998); (72003, 72003);
   (72148, 72151); (72154, 72155); (72160, 72160); (72193, 72202);
   (72243, 72248); (72251, 72254); (72263, 72263); (72273, 72278);
   (72281, 72283); (72330, 72342); (72344, 72345); (72752, 72758);
   (72760, 72765); (72767, 72767); (72850, 72871); (72874, 72880);
   (72882, 72883); (72885, 72886); (73009, 73014); (73018, 73018);
   (73020, 73021); (73023, 73029); (73031, 73031); (73104, 73105);
   (73109, 73109); (73111, 73111); (73459, 73460); (78896, 78904);
   (92912, 92916); (92976, 92982); (92992, 92995); (94031, 94031);
   (94095, 94111); (94176, 94177); (94179, 94180); (110576, 110579);
   (110581, 110587); (110589, 110590); (113821, 113822); (113824, 113827);
   (118528, 118573); (118576, 118598); (119143, 119145); (119155, 119170);
   (119173, 119179); (119210, 119213); (119362, 119364); (121344, 121398);
   (121403, 121452); (121461, 121461); (121476, 121476); (121499, 121503);
   (121505, 121519); (122880, 122886); (122888, 122904); (122907, 122913);
   (122915, 122916); (122918, 122922); (123184, 123197); (123566, 123566);
   (123628, 123631); (125136, 125142); (125252, 125259); (127995, 127999);
   (917505, 917505); (917536, 917631); (917760, 917999)
  ].

Definition inRange (cp : N) (r : N * N * N * N) : bool :=
  let '(first, last, step, _) := r in
  (first <=? cp) && (cp <=? last) && ((cp - first) mod step =? 0).

Definition mapByRanges (table : list (N * N * N * N)) (cp : N) : N :=
  match List.find (inRange cp) table with
  | Some (first, _, _, target) => target + (cp - first)
  | None => cp
  end.

Definition inRanges (table : list (N * N)) (cp : N) : bool :=
  existsb (fun r => (fst r <=? cp) && (cp <=? snd r)) table.

Definition isCased (cp : N) : bool := inRanges casedRanges cp.
Definition isCaseIgnorable (cp : N) : bool := inRanges caseIgnorableRanges cp.

(** The code points of a string: a high surrogate followed by a low one
    stands for one code point, any other code unit for itself. *)
Definition isHighSurrogate (c : N) : bool := (55296 <=? c) && (c <=? 56319).
Definition isLowSurrogate (c : N) : bool := (56320 <=? c) && (c <=? 57343).

Fixpoint codePoints (s : list N) : list N :=
  match s with
  | [] => []
  | h :: t =>
      match t with
      | l :: s' =>
          if isHighSurrogate h && isLowSurrogate l
          then (65536 + (h - 55296) * 1024 + (l - 56320)) :: codePoints s'
          else h :: codePoints t
      | [] => [h]
      end
  end.

Definition codeUnits (cp : N) : list N :=
  if cp <? 65536 then [cp]
  else [55296 + (cp - 65536) / 1024; 56320 + (cp - 65536) mod 1024].

(** The first code point of [l] that is not case-ignorable is a cased
    one. *)
Fixpoint casedFirst (l : list N) : bool :=
  match l with
  | [] => false
  | c :: l' => if isCaseIgnorable c then casedFirst l' else isCased c
  end.

(** The lower case of the code point [cp] between the code points [before]
    (the nearest first) and [after].  A capital sigma becomes a final
    sigma after a cased letter when no cased letter follows, case-ignorable
    code points being passed over on both sides. *)
Definition lowerCodePoint (before after : list N) (cp : N) : list N :=
  if cp =? 931
  then [if casedFirst before && negb (casedFirst after) then 962 else 963]
  else if cp =? 304 then [105; 775]
  else [mapByRanges lowerRanges cp].

Fixpoint lowerFrom (before cps : list N) : list N :=
  match cps with
  | [] => []
  | cp :: after =>
      flat_map codeUnits (lowerCodePoint before after cp)
      ++ lowerFrom (cp :: before) after
  end.

(** [String.prototype.toLowerCase]. *)
Definition toLowerCase (s : list N) : list N := lowerFrom [] (codePoints s).

Definition upperCodePoint (cp : N) : list N :=
  match List.find (fun r => fst r =? cp) upperSpecial with
  | Some r => snd r
  | None => [mapByRanges upperRanges cp]
  end.

(** [String.prototype.toUpperCase]. *)
Definition toUpperCase (s : list N) : list N :=
  flat_map codeUnits (flat_map upperCodePoint (codePoints s)).

Fixpoint trimStart (s : list N) : list N :=
  match s with
  | c :: s' => if isSpace c then trimStart s' else s
  | [] => []
  end.

Definition trimEnd (s : list N) : list N := rev (trimStart (rev s)).

(** [String.prototype.trim]. *)
Definition trim (s : list N) : list N := trimEnd (trimStart s).

Fixpoint startsWith (p s : list N) : bool :=
  match p, s with
  | [], _ => true
  | a :: p', b :: s' => (a =? b) && startsWith p' s'
  | _ :: _, [] => false
  end.

(** [s.indexOf(p)], searching from position [i]; [None] stands for -1. *)
Fixpoint indexOfFrom (p s : list N) (i : nat) : option nat :=
  if startsWith p s then Some i
  else match s with
       | [] => None
       | _ :: s' => indexOfFrom p s' (S i)
       end.

Definition indexOf (s p : list N) : option nat := indexOfFrom p s 0.

(** [s.slice(a, b)] for non-negative [a] and [b]. *)
Definition slice (s : list N) (a b : nat) : list N := take (b - a) (drop a s).

(** [s.slice(a)]. *)
Definition sliceFrom (s : list N) (a : nat) : list N := drop a s.

Fixpoint digitsAux (fuel : nat) (n : N) (acc : list N) : list N :=
  match fuel with
  | O => acc
  | S f => let acc' := (48 + n mod 10) :: acc in
           if n / 10 =? 0 then acc' else digitsAux f (n / 10) acc'
  end.

(** Decimal digits of a natural number, most significant first (there are
    at most as many of them as binary digits). *)
Definition digitsOfN (n : N) : list N := digitsAux (S (N.size_nat n)) n [].

End JSString.
Import JSString.

(** ** Numbers *)

Module Number.

Local Open Scope Z_scope.

Definition prec : Z := 53.
Definition emax : Z := 1024.

Abbreviation float := spec_float.

Definition nan : float := S754_nan.
Definition zero : float := S754_zero false.

(** The Number value of an integer (round to nearest, ties to even). *)
Definition ofZ (z : Z) : float := binary_normalize prec emax z 0 false.

Definition div (x y : float) : float := SFdiv prec emax x y.
Definition mul (x y : float) : float := SFmul prec emax x y.
Definition sub (x y : float) : float := SFsub prec emax x y.
Definition abs (x : float) : float := SFabs x.
Definition eqb (x y : float) : bool := SFeqb x y.
Definition ltb (x y : float) : bool := SFltb x y.
Definition leb (x y : float) : bool := SFleb x y.

(** The Number value of the decimal [n / 10^k]: the quotient correctly
    rounded from the exact integers. *)
Definition ofDecimal (n : N) (k : nat) : float :=
  match n with
  | N0 => zero
  | Npos p => SFdiv prec emax (S754_finite false p 0)
                              (S754_finite false (Z.to_pos (10 ^ Z.of_nat k)) 0)
  end.


(** Value of a string of decimal digits. *)
Definition digitValue (c : N) : N := (c - 48)%N.

Definition digitsValue (ds : list N) : N :=
  fold_left (fun acc c => (10 * acc + digitValue c)%N) ds 0%N.

Fixpoint spanDigits (s : list N) : list N * list N :=
  match s with
  | c :: s' => if isDigit c
               then let '(ds, r) := spanDigits s' in (c :: ds, r)
               else ([], s)
  | [] => ([], [])
  end.

(** [parseFloat] on the unsigned decimal literals without exponent that
    the callers pass (captures of [\d+(?:\.\d+)?]): the longest prefix
    [digits] or [digits.digits] is read, NaN when there is no digit. *)
Definition parseFloat (s : list N) : float :=
  let '(ip, r) := spanDigits s in
  let fp := match r with
            | 46%N :: r' => fst (spanDigits r')
            | _ => []
            end in
  match ip, fp with
  | [], [] => nan
  | _, _ => ofDecimal (digitsValue (ip ++ fp)) (length fp)
  end.

(** [isFinite]. *)
Definition isFinite (x : float) : bool :=
  match x with
  | S754_zero _ | S754_finite _ _ _ => true
  | S754_infinity _ | S754_nan => false
  end.

(** [floor (m * 2^e + 1/2)], the integer nearest to [m * 2^e] with ties
    towards +infinity. *)
Definition roundHalfUp (m e : Z) : Z :=
  if 0 <=? e then m * 2 ^ e
  else (2 * m + 2 ^ (- e)) / 2 ^ (1 - e).

(** [Math.round]: the nearest integer, ties towards +infinity; the sign of
    a zero result is the sign of the argument. *)
Definition mathRound (x : float) : float :=
  match x with
  | S754_finite s m e =>
      if 0 <=? e then x
      else binary_normalize prec emax (roundHalfUp (cond_Zopp s (Z.pos m)) e) 0 s
  | _ => x
  end.

(** *** Number to string *)

(** A candidate [(s, n)] of [Number::toString] with [k] digits stands for
    [s * 10^(n-k)]. *)
Definition candValue (k : Z) (c : Z * Z) : Z := fst c * 10 ^ (snd c - k).

Definition isCand (x : float) (k : Z) (c : Z * Z) : bool :=
  (10 ^ (k - 1) <=? fst c) && (fst c <? 10 ^ k) && eqb (ofZ (candValue k c)) x.

(** Of two candidates, the one nearer to [X]; the even one on a tie. *)
Definition closer (X k : Z) (c1 c2 : Z * Z) : Z * Z :=
  let d1 := Z.abs (candValue k c1 - X) in
  let d2 := Z.abs (candValue k c2 - X) in
  if d1 <? d2 then c1
  else if d2 <? d1 then c2
  else if Z.even (fst c1) then c1 else c2.

(** The digits [s] and the exponent [n] of [Number::toString] for the
    integer [X] of [L] decimal digits: the least number [k] of digits for
    which some [s * 10^(n-k)] has the Number value [x]. *)
Fixpoint shortestDigits (fuel : nat) (k : Z) (x : float) (X L : Z) : Z * Z :=
  match fuel with
  | O => (X, L)
  | S f =>
      let lo := X / 10 ^ (L - k) in
      match List.filter (isCand x k)
              [(lo, L); (lo + 1, L); (X / 10 ^ (L + 1 - k) + 1, L + 1)] with
      | [] => shortestDigits f (k + 1) x X L
      | c :: cs => fold_left (closer X k) cs c
      end
  end.

(** [Number::toString] for a finite [x >= 10^21] of integer value [X]
    (exponent notation, as [n > 21]). *)
Definition toStringLarge (x : float) (X : Z) : list N :=
  let L := Z.of_nat (length (digitsOfN (Z.to_N X))) in
  let '(s, n) := shortestDigits 17 1 x X L in
  match digitsOfN (Z.to_N s) with
  | [] => []
  | [d] => d :: js "e+" ++ digitsOfN (Z.to_N (n - 1))
  | d :: ds => d :: js "." ++ ds ++ js "e+" ++ digitsOfN (Z.to_N (n - 1))
  end.

(** Fixed notation with two fraction digits for the integer [n] of
    hundredths: zeros are put in front up to three digits. *)
Definition fixedDigits (n : N) : list N :=
  let m := digitsOfN n in
  let m := replicate (3 - length m) 48%N ++ m in
  take (length m - 2) m ++ js "." ++ drop (length m - 2) m.

(** [x.toFixed(2)]. *)
Definition toFixed2 (x : float) : list N :=
  match x with
  | S754_nan => js "NaN"
  | S754_infinity s => if s then js "-Infinity" else js "Infinity"
  | S754_zero _ => fixedDigits 0
  | S754_finite s m e =>
      let sign := if s then js "-" else [] in
      if (0 <=? e) && (10 ^ 21 <=? Z.pos m * 2 ^ e)
      then sign ++ toStringLarge (S754_finite false m e) (Z.pos m * 2 ^ e)
      else sign ++ fixedDigits (Z.to_N (roundHalfUp (100 * Z.pos m) e))
  end.

End Number.
Import Number.

(** ** Regular expressions *)

Module Regex.

Inductive regex : Type :=
| Eps
| Chr (p : N -> bool)
| Seq (r1 r2 : regex)
| Alt (r1 r2 : regex)
| Star (greedy : bool) (r : regex)
| Group (i : nat) (r : regex)
| Bol
| Eol
| WordB.

(** A position in the subject: its index, the code unit before it and the
    code units from it on. *)
Record cursor := Cursor { pos : nat; prev : option N; rest : list N }.

(** Captures, the latest first: group number and captured text. *)
Definition caps := list (nat * list N).

Definition outcome := option (cursor * caps).
Definition cont := cursor -> caps -> outcome.

Definition orElseTry (a b : outcome) : outcome :=
  match a with Some x => Some x | None => b end.

Definition isWordAt (c : option N) : bool :=
  match c with Some x => isWord x | None => false end.

(** Iteration of [step]: a greedy loop tries one more round before the
    continuation, a lazy one the continuation first; a round that consumes
    nothing is rejected.  At most [length (rest s)] rounds can consume, so
    the fuel given by [run] is never used up (lemma [starLoop_fuel]). *)
Fixpoint starLoop (step : cursor -> caps -> cont -> outcome) (greedy : bool)
    (k : cont) (fuel : nat) (s : cursor) (c : caps) : outcome :=
  match fuel with
  | O => k s c
  | S f =>
      let again := step s c (fun s' c' =>
                     if (pos s <? pos s')%nat then starLoop step greedy k f s' c'
                     else None) in
      if greedy then orElseTry again (k s c) else orElseTry (k s c) again
  end.

(** The backtracking matcher, in continuation-passing style. *)
Fixpoint run (r : regex) (s : cursor) (c : caps) (k : cont) : outcome :=
  match r with
  | Eps => k s c
  | Chr p =>
      match rest s with
      | x :: xs => if p x then k (Cursor (S (pos s)) (Some x) xs) c else None
      | [] => None
      end
  | Seq r1 r2 => run r1 s c (fun s' c' => run r2 s' c' k)
  | Alt r1 r2 => orElseTry (run r1 s c k) (run r2 s c k)
  | Star g r' => starLoop (run r') g k (S (length (rest s))) s c
  | Group i r' =>
      run r' s c (fun s' c' => k s' ((i, take (pos s' - pos s) (rest s)) :: c'))
  | Bol => if (pos s =? 0)%nat then k s c else None
  | Eol => match rest s with [] => k s c | _ :: _ => None end
  | WordB => if xorb (isWordAt (prev s)) (isWordAt (head (rest s)))
             then k s c else None
  end.

Definition accept : cont := fun s c => Some (s, c).

(** A match: where it starts, where it ends, and its captures. *)
Record found := Found { start : cursor; stop : cursor; groups : caps }.

Definition matched (m : found) : list N :=
  take (pos (stop m) - pos (start m)) (rest (start m)).

Fixpoint group (i : nat) (c : caps) : option (list N) :=
  match c with
  | [] => None
  | (j, t) :: c' => if (i =? j)%nat then Some t else group i c'
  end.

(** The leftmost match at or after a position. *)
Fixpoint search (r : regex) (p : nat) (pv : option N) (l : list N) : option found :=
  match run r (Cursor p pv l) [] accept with
  | Some (e, c) => Some (Found (Cursor p pv l) e c)
  | None => match l with
            | [] => None
            | x :: l' => search r (S p) (Some x) l'
            end
  end.

(** [re.exec(s)] and [s.match(re)] for a regular expression without the
    [g] flag. *)
Definition exec (r : regex) (s : list N) : option found := search r 0 None s.

(** [re.test(s)]. *)
Definition test (r : regex) (s : list N) : bool :=
  match exec r s with Some _ => true | None => false end.

(** After an empty match the scan moves one code unit on. *)
Definition stepOver {A} (m : found) (k : cursor -> list A) (copy : N -> list A) : list A :=
  if (pos (start m) <? pos (stop m))%nat then k (stop m)
  else match rest (stop m) with
       | [] => []
       | x :: xs => copy x ++ k (Cursor (S (pos (stop m))) (Some x) xs)
       end.

Fixpoint matchAllFrom (r : regex) (fuel : nat) (s : cursor) : list (list N) :=
  match fuel with
  | O => []
  | S f =>
      match search r (pos s) (prev s) (rest s) with
      | None => []
      | Some m => matched m :: stepOver m (matchAllFrom r f) (fun _ => [])
      end
  end.

(** [s.match(re)] for a regular expression with the [g] flag: the texts of
    all matches, [[]] standing for [null]. *)
Definition matchAll (r : regex) (s : list N) : list (list N) :=
  matchAllFrom r (S (length s)) (Cursor 0 None s).

Fixpoint replaceAllFrom (r : regex) (by_ : list N) (fuel : nat) (s : cursor) : list N :=
  match fuel with
  | O => rest s
  | S f =>
      match search r (pos s) (prev s) (rest s) with
      | None => rest s
      | Some m =>
          take (pos (start m) - pos s) (rest s) ++ by_
          ++ stepOver m (replaceAllFrom r by_ f) (fun x => [x])
      end
  end.

(** [s.replace(re, by)] for a regular expression with the [g] flag and a
    replacement text without [$] patterns. *)
Definition replaceAll (r : regex) (by_ : list N) (s : list N) : list N :=
  replaceAllFrom r by_ (S (length s)) (Cursor 0 None s).

(** [s.replace(re, by)] without the [g] flag: the first match only. *)
Definition replaceFirst (r : regex) (by_ : list N) (s : list N) : list N :=
  match exec r s with
  | None => s
  | Some m => take (pos (start m)) s ++ by_ ++ rest (stop m)
  end.

(** *** Syntax of the patterns *)

Definition cat (rs : list regex) : regex := foldr Seq Eps rs.
Fixpoint alts (rs : list regex) : regex :=
  match rs with
  | [] => Eps
  | [r] => r
  | r :: rs' => Alt r (alts rs')
  end.
Definition star (r : regex) : regex := Star true r.
Definition lazyStar (r : regex) : regex := Star false r.
Definition plus (r : regex) : regex := Seq r (Star true r).
Definition opt (r : regex) : regex := Alt r Eps.

Definition chr (c : N) : regex := Chr (N.eqb c).
(** A letter under the [i] flag matches both of its cases; code units
    outside ASCII never match an ASCII pattern character. *)
Definition chri (c : N) : regex := Chr (fun x => upperUnit x =? upperUnit c).
Definition lit (s : string) : regex := cat (List.map chr (js s)).
Definition liti (s : string) : regex := cat (List.map chri (js s)).
Arguments lit s%_string.
Arguments liti s%_string.

Definition anyChar : regex := Chr (fun _ => true).
Definition dot : regex := Chr (fun x => negb (isLineTerminator x)).
Definition space : regex := Chr isSpace.
Definition digit : regex := Chr isDigit.
Definition notChr (c : N) : regex := Chr (fun x => negb (x =? c)).

End Regex.
Import Regex.

(** ** The background worker *)

(** [x || y] on strings that may be [null]: [null] and the empty string are
    falsy. *)
Definition orElse (x y : option (list N)) : option (list N) :=
  match x with
  | Some (_ :: _) => x
  | _ => y
  end.

Definition labelTail : regex :=
  alts [liti "Camera"; liti "Runtime"; liti "Sound mix"; liti "Color";
        liti "Negative Format"; liti "Cinematographic Process";
        liti "Printed Film Format"].

Definition colonRe : regex := cat [star space; chr 58; star space].
Definition spacesRe : regex := plus space.
Definition trailingLabelRe : regex :=
  cat [star space; Group 1 labelTail; star dot; Eol].

Definition normalizeAspectRatioText (text : option (list N)) : option (list N) :=
  match text with
  | None | Some [] => None
  | Some text =>
      let v := trim text in
      let v := replaceAll colonRe (js ":") v in
      let v := replaceAll spacesRe (js " ") v in
      let v := trim (replaceFirst trailingLabelRe [] v) in
      Some v
  end.

Definition scriptRe : regex := cat [liti "<script"; lazyStar anyChar; liti "</script>"].
Definition styleRe : regex := cat [liti "<style"; lazyStar anyChar; liti "</style>"].

Definition aspectRatioLabel : regex := cat [liti "Aspect"; star space; liti "ratio"].

(** A block from an opening tag to its closing tag with the label inside. *)
Definition blockRe (tag : string) : regex :=
  cat [liti "<"; liti tag; lazyStar anyChar; chr 62; lazyStar anyChar;
       aspectRatioLabel; lazyStar anyChar; liti "</"; liti tag; liti ">"].

Definition quoteRe : regex := Chr (fun x => (x =? 34) || (x =? 39)).

Definition techspecsDivRe : regex :=
  cat [liti "<div"; lazyStar (notChr 62); liti "data-testid="; quoteRe;
       liti "title-techspecs-aspectratio"; quoteRe; lazyStar anyChar;
       liti "</div>"].

Definition patterns : list regex :=
  [blockRe "tr"; blockRe "li"; techspecsDivRe; blockRe "section"].

Definition findAspectRatioBlocks (html : list N) : list (list N) :=
  match html with
  | [] => []
  | _ =>
      let cleaned := replaceAll styleRe [] (replaceAll scriptRe [] html) in
      let blocks :=
        fold_left (fun blocks re =>
                     match matchAll re cleaned with
                     | [] => blocks
                     | m => blocks ++ m
                     end) patterns [] in
      match blocks with
      | [] =>
          let lower := toLowerCase cleaned in
          match indexOf lower (js "aspect ratio") with
          | Some idx => blocks ++ [slice cleaned (Nat.max 0 (idx - 200)) (idx + 800)]
          | None => blocks
          end
      | _ => blocks
      end
  end.

Record RatioEntry := mkEntry {
  ratio : list N;
  raw : list N;
  note : option (list N)
}.

Definition openTag (tag : string) : regex :=
  cat [liti "<"; liti tag; WordB; star (notChr 62); chr 62].
Definition closeTag (tag : string) : regex :=
  cat [liti "</"; liti tag; liti ">"].

Definition nextFieldRe : regex :=
  cat [WordB;
       Group 1 (alts [liti "Camera"; liti "Runtime"; liti "Sound mix"; liti "Color";
                      liti "Negative"; liti "Cinematographic"; liti "Printed";
                      liti "Laboratory"; liti "Film length";
                      liti "Contribute to this page"]);
       WordB; star anyChar; Eol].

Definition attributeRe : regex :=
  cat [WordB; Group 1 (alts [liti "class"; liti "role"; liti "data-testid"]);
       star space; chr 61; star anyChar; Eol].

Definition isSeparator (c : N) : bool :=
  (c =? 8226) || (c =? 183) || (c =? 124) || (c =? 59).

Definition numberRe : regex := cat [plus digit; opt (cat [chr 46; plus digit])].

Definition ratioRe : regex :=
  cat [Group 1 numberRe; star space; chr 58; star space; Group 2 numberRe].

Definition noteRe : regex :=
  cat [Bol; star space; chr 40; Group 1 (plus (notChr 41)); chr 41].

Definition academyRe : regex := lit "academy".
Definition fullScreenRe : regex :=
  Alt (cat [lit "4"; star space; opt (chr 58); star space; lit "3"])
      (cat [WordB; lit "full"; star space; lit "screen"; WordB]).
Definition hdtvRe : regex :=
  alts [cat [lit "16"; star space; opt (chr 58); star space; lit "9"];
        lit "hdtv"; lit "1.78"].

(** The state of the loop that cuts the text at separators outside
    parentheses. *)
Record splitState := SplitState {
  parts : list (list N);
  current : list N;
  parenDepth : Z
}.

Definition pushTrimmed (parts : list (list N)) (current : list N) : list (list N) :=
  match trim current with
  | [] => parts
  | t => parts ++ [t]
  end.

Definition splitStep (st : splitState) (c : N) : splitState :=
  let parenDepth :=
    if c =? 40 then (parenDepth st + 1)%Z
    else if c =? 41 then (parenDepth st - 1)%Z
    else parenDepth st in
  if (parenDepth =? 0)%Z && test (Chr isSeparator) [c]
  then SplitState (pushTrimmed (parts st) (current st)) [] parenDepth
  else SplitState (parts st) (current st ++ [c]) parenDepth.

Definition splitParts (cleaned : list N) : list (list N) :=
  let st := fold_left splitStep cleaned (SplitState [] [] 0) in
  pushTrimmed (parts st) (current st).

(** The rounded quotient in canonical form, [N.NN:1]. *)
Definition normalizedRatio (num den : float) : list N :=
  toFixed2 (div (mathRound (mul (div num den) (ofZ 100))) (ofZ 100)) ++ js ":1".

Definition groupText (i : nat) (m : found) : list N :=
  default [] (group i (groups m)).

(** One round of the loop over the parts. *)
Definition parsePart (out : list RatioEntry) (p : list N) : list RatioEntry :=
  match exec ratioRe p with
  | Some m =>
      let num := parseFloat (groupText 1 m) in
      let den := parseFloat (groupText 2 m) in
      if negb (eqb den zero) && ltb zero num then
        let normalized := normalizedRatio num den in
        let afterRatio :=
          trim (sliceFrom p (default 0%nat (indexOf p (matched m))
                             + length (matched m))) in
        let note :=
          match exec noteRe afterRatio with
          | Some nm => Some (trim (groupText 1 nm))
          | None => None
          end in
        out ++ [mkEntry normalized (replaceAll (star space) [] (matched m)) note]
      else out
  | None =>
      let lowered := toLowerCase p in
      if test academyRe lowered
      then out ++ [mkEntry (js "1.37:1") (js "1.37:1") None]
      else if test fullScreenRe lowered
      then out ++ [mkEntry (js "1.33:1") (js "1.33:1") None]
      else if test hdtvRe lowered
      then out ++ [mkEntry (js "1.78:1") (js "1.78:1") None]
      else out
  end.

Definition stripTags (blockHtml : list N) : list N :=
  let t := replaceAll scriptRe [] blockHtml in
  let t := replaceAll styleRe [] t in
  let t := replaceAll (openTag "a") (js " ") t in
  let t := replaceAll (closeTag "a") (js " ") t in
  let t := replaceAll (openTag "li") (js " ") t in
  let t := replaceAll (closeTag "li") (js " ") t in
  let t := replaceAll (openTag "ul") (js " ") t in
  let t := replaceAll (closeTag "ul") (js " ") t in
  let t := replaceAll (openTag "div") (js " ") t in
  let t := replaceAll (closeTag "div") (js " ") t in
  let t := replaceAll (openTag "span") (js " ") t in
  let t := replaceAll (closeTag "span") (js " ") t in
  let t := replaceAll (cat [liti "<br"; star space; opt (chr 47); chr 62]) (js " ") t in
  let t := replaceAll (cat [chr 60; star (notChr 62); chr 62]) (js " ") t in
  let t := replaceAll spacesRe (js " ") t in
  trim t.

Definition parseRatiosFromBlock (blockHtml : list N) : list RatioEntry :=
  match blockHtml with
  | [] => []
  | _ =>
      let text := stripTags blockHtml in
      let afterLabel :=
        replaceFirst (cat [Bol; lazyStar anyChar; aspectRatioLabel; star space]) [] text in
      let clipped := trim (replaceFirst nextFieldRe [] afterLabel) in
      let cleaned := trim (replaceFirst attributeRe [] clipped) in
      fold_left parsePart (splitParts cleaned) []
  end.

(** The loop of [uniqueRatios]: the set of the ratios seen and the entries
    kept so far. *)
Definition uniqueStep (st : gset (list N) * list RatioEntry) (e : RatioEntry)
    : gset (list N) * list RatioEntry :=
  let '(seen, uniq) := st in
  match ratio e with
  | [] => st
  | _ => if decide (ratio e ∈ seen) then st
         else ({[ ratio e ]} ∪ seen, uniq ++ [e])
  end.

Definition uniqueRatios (entries : list RatioEntry) : list RatioEntry :=
  snd (fold_left uniqueStep entries (∅, [])).

(** [String(x)] for a string that may be [null]. *)
Definition toString (x : option (list N)) : list N :=
  match x with
  | Some s => s
  | None => js "null"
  end.

Definition ratioToNumber (ratio : list N) : option float :=
  match exec ratioRe ratio with
  | None => None
  | Some m =>
      let num := parseFloat (groupText 1 m) in
      let den := parseFloat (groupText 2 m) in
      if negb (isFinite num) || negb (isFinite den) || eqb den zero then None
      else Some (div num den)
  end.

Record FormatMapping := mkMapping {
  short : option (list N);
  long : option (list N)
}.

Definition named (s l : string) : FormatMapping := mkMapping (Some (js s)) (Some (js l)).
Arguments named (s l)%_string.

(** The decimal literal [n / 10^k] of the source. *)
Definition dec (n : N) (k : nat) : float := ofDecimal n k.

(** [within(t)], with the default [d = 0.02]. *)
Definition within (val t : float) : bool := leb (abs (sub val t)) (dec 2 2).

Definition mapRatioToType (ratio : list N) : FormatMapping :=
  match ratioToNumber ratio with
  | None => mkMapping None None
  | Some val =>
      if within val (dec 40 1) then named "Polyvision" "Polyvision"
      else if within val (dec 276 2)
      then named "Ultra Panavision 70" "Ultra Panavision 70, MGM Camera 65"
      else if within val (dec 259 2) then named "Cinerama" "Cinerama"
      else if within val (dec 24 1) || within val (dec 239 2) || within val (dec 235 2)
      then named "Scope" "Anamorphic widescreen, Scope"
      else if within val (dec 22 1) then named "Todd-AO" "Todd-AO, Super Panavision 70"
      else if within val (dec 211 2) then named "IMAX 2.11:1" "IMAX 2.11:1"
      else if within val (dec 20 1) then named "Univisium" "Univisium, 18:9"
      else if within val (dec 19 1) then named "Digital IMAX" "Digital IMAX"
      else if within val (dec 185 2)
      then named "Widescreen" "Widescreen (flat), Standard American Widescreen"
      else if within val (dec 178 2) || within val (div (ofZ 16) (ofZ 9))
      then named "16:9" "16:9, HDTV, Widescreen TV"
      else if within val (dec 166 2)
      then named "European Widescreen" "5:3, European Widescreen"
      else if within val (dec 143 2) || within val (dec 144 2)
      then named "IMAX 70mm" "IMAX (70mm), True IMAX"
      else if within val (dec 137 2)
      then named "Academy Ratio" "Academy Ratio, Academy Standard"
      else if within val (dec 133 2) || within val (div (ofZ 4) (ofZ 3))
      then named "4:3" "4:3, Full screen, Standard ratio"
      else if within val (dec 119 2) then named "Silent film" "Silent film"
      else mkMapping None None
  end.

Definition scoreForPrimary (ratio : list N) : Z :=
  match ratioToNumber ratio with
  | None => 0
  | Some val =>
      if within val (dec 24 1) || within val (dec 239 2) || within val (dec 235 2)
      then 100
      else if within val (dec 185 2) then 95
      else if within val (dec 22 1) then 90
      else if within val (dec 19 1) then 85
      else if within val (dec 211 2) then 83
      else if within val (dec 178 2) then 80
      else if within val (dec 166 2) then 70
      else if within val (dec 20 1) then 60
      else if within val (dec 143 2) || within val (dec 144 2) then 50
      else if within val (dec 276 2) then 45
      else if within val (dec 259 2) then 43
      else if within val (dec 137 2) then 40
      else if within val (dec 133 2) then 35
      else if within val (dec 119 2) then 30
      else if within val (dec 40 1) then 25
      else 10
  end%Z.

(** One round of the scan of [choosePrimaryRatio]: the best candidate so far
    and its score. *)
Definition primaryStep (st : list N * Z) (r : list N) : list N * Z :=
  let s := scoreForPrimary r in
  if (s >? snd st)%Z then (r, s) else st.

(** [choosePrimaryRatio]; [None] is [null], as argument and as result. *)
Definition choosePrimaryRatio (ratios : option (list (list N))) : option (list N) :=
  match ratios with
  | None | Some [] => None
  | Some (r0 :: ratios') =>
      Some (fst (fold_left primaryStep ratios' (r0, scoreForPrimary r0)))
  end.

Definition parseAllAspectRatiosFromImdb (html : list N) : list (list N) :=
  let blocks := findAspectRatioBlocks html in
  let entries := flat_map parseRatiosFromBlock blocks in
  let uniq := uniqueRatios entries in
  List.map ratio uniq.

(** What [fetch] answered: [res.ok], [res.status] and the text of the body. *)
Record Response := mkResponse { ok : bool; status : N; text : list N }.

Record AspectRatioResult := mkResult {
  aspectRatio : option (list N);
  displayText : list N;
  allAspectRatios : list (list N);
  mappedTypeShort : option (list N);
  mappedTypeLong : option (list N);
  source : list N;
  sourceUrl : list N
}.

Inductive thrown := Error (message : list N).

(** [parts.join(sep)]. *)
Fixpoint join (sep : list N) (l : list (list N)) : list N :=
  match l with
  | [] => []
  | [x] => x
  | x :: l' => x ++ sep ++ join sep l'
  end.

(** [fetchImdbAspectRatio], from the answer of [fetch] on.  The wait of the
    rate limit, the request counter and the log lines are left out. *)
Definition fetchImdbAspectRatio (imdbId : list N) (res : Response)
    : thrown + AspectRatioResult :=
  let url := js "https://www.imdb.com/title/" ++ imdbId ++ js "/technical/" in
  if negb (ok res)
  then inl (Error (js "IMDb fetch failed: " ++ digitsOfN (status res)))
  else
    let html := text res in
    let list := parseAllAspectRatiosFromImdb html in
    match list with
    | [] => inl (Error (js "Aspect ratio not found on IMDb"))
    | _ =>
        let primary := orElse (choosePrimaryRatio (Some list)) (head list) in
        let aspectRatio := normalizeAspectRatioText primary in
        let displayParts :=
          List.map (fun r =>
                      let typeMap := mapRatioToType r in
                      match long typeMap with
                      | Some (c :: l) => r ++ js " (" ++ (c :: l) ++ js ")"
                      | _ => r
                      end) list in
        let displayText := join (js " " ++ [8226] ++ js " ") displayParts in
        let typeMap := mapRatioToType (toString aspectRatio) in
        inr (mkResult aspectRatio displayText list (short typeMap) (long typeMap)
               (js "imdb") url)
    end.

(** ** The specification's tables and reference functions

    These follow the words of the specification; the theorems below compare
    them with the functions of the worker. *)

(** The first entry of a table one of whose targets is within 0.02 of the
    value, in the comparison of the code ([within], in binary64
    arithmetic). *)
Definition firstWithin {A} (table : list (list float * A)) (val : float) : option A :=
  snd <$> List.find (fun row => existsb (within val) (fst row)) table.

(** The selector's preference table, in match order: targets and score. *)
Definition preferenceTable : list (list float * Z) :=
  [ ([dec 24 1; dec 239 2; dec 235 2], 100); ([dec 185 2], 95); ([dec 22 1], 90);
    ([dec 19 1], 85); ([dec 211 2], 83); ([dec 178 2], 80); ([dec 166 2], 70);
    ([dec 20 1], 60); ([dec 143 2; dec 144 2], 50); ([dec 276 2], 45);
    ([dec 259 2], 43); ([dec 137 2], 40); ([dec 133 2], 35); ([dec 119 2], 30);
    ([dec 40 1], 25) ]%Z.

Definition scoreByTable (val : float) : Z :=
  default 10%Z (firstWithin preferenceTable val).

(** De-duplication as the specification words it: an entry is kept when it
    has a ratio and no earlier entry of the input has the same ratio. *)
Fixpoint firstOccurrences (earlier : list (list N)) (entries : list RatioEntry)
    : list RatioEntry :=
  match entries with
  | [] => []
  | e :: es =>
      if bool_decide (ratio e ≠ []) && bool_decide (ratio e ∉ earlier)
      then e :: firstOccurrences (ratio e :: earlier) es
      else firstOccurrences (ratio e :: earlier) es
  end.

(** [r] is the first element of [l] with the greatest score. *)
Definition firstBest (l : list (list N)) (r : list N) : Prop :=
  ∃ i : nat,
    l !! i = Some r
    ∧ (∀ (j : nat) x, l !! j = Some x → (scoreForPrimary x <= scoreForPrimary r)%Z)
    ∧ (∀ (j : nat) x, (j < i)%nat → l !! j = Some x →
         (scoreForPrimary x < scoreForPrimary r)%Z).

(** A numeric token: digits, optionally followed by a point and digits. *)
Definition numberToken (t : list N) : Prop :=
  ∃ ip fp, ip ≠ [] ∧ Forall (fun c => isDigit c = true) ip
           ∧ Forall (fun c => isDigit c = true) fp
           ∧ (t = ip ∨ (fp ≠ [] ∧ t = ip ++ 46 :: fp)).

(** The exact decimal a numeric token denotes: numerator and number of
    fraction digits. *)
Definition decimalOf (t : list N) : N * nat :=
  let '(ip, r) := spanDigits t in
  let fp := match r with 46 :: r' => fst (spanDigits r') | _ => [] end in
  (digitsValue (ip ++ fp), length fp).

(** [round(N/D, 2) + ":1"] over the exact decimals [N] and [D], ties of the
    rounding going up. *)
Definition exactRatio (n d : list N) : list N :=
  let '(a, i) := decimalOf n in
  let '(b, j) := decimalOf d in
  let num := (100 * a * 10 ^ N.of_nat j)%N in
  let den := (b * 10 ^ N.of_nat i)%N in
  fixedDigits ((2 * num + den) / (2 * den)) ++ js ":1".

(** The ratio text [X.XX:1] in canonical form. *)
Definition canonical (s : list N) : Prop :=
  ∃ ip a b, ip ≠ [] ∧ Forall (fun c => isDigit c = true) ip
            ∧ isDigit a = true ∧ isDigit b = true
            ∧ s = ip ++ [46; a; b] ++ js ":1".

(** ** Notions used in the statements *)

(** The matcher goes from [s] to [s'] by reading code units. *)
Definition reach (s s' : cursor) : Prop :=
  (pos s ≤ pos s')%nat
  ∧ (pos s' + length (rest s') = pos s + length (rest s))%nat.

(** The code unit before the position reached after [pre]. *)
Definition lastOpt (pv : option N) (pre : list N) : option N :=
  fold_left (fun _ x => Some x) pre pv.

(** The text does not go on with a code unit of the class [q]. *)
Definition headNot (q : N → bool) (l : list N) : Prop :=
  match l with
  | x :: _ => q x = false
  | [] => True
  end.

(** A segment whose first ratio token is [n], white space, a colon, white
    space, [d]. *)
Definition segment (pre n ws1 ws2 d tail : list N) : list N :=
  pre ++ n ++ ws1 ++ 58 :: ws2 ++ d ++ tail.

Definition segmentOk (pre n ws1 ws2 d tail : list N) : Prop :=
  Forall (fun x => isDigit x = false) pre
  ∧ numberToken n ∧ numberToken d
  ∧ Forall (fun x => isSpace x = true) ws1
  ∧ Forall (fun x => isSpace x = true) ws2
  ∧ headNot (fun x => isDigit x || (x =? 46)) tail.

(** The code units of a ratio printed by [toFixed(2)] and [:1]: the digits,
    the point, the colon, [e], [+] and [-]. *)
Definition alphabet : list N :=
  [48; 49; 50; 51; 52; 53; 54; 55; 56; 57; 46; 58; 101; 43; 45].

(** A ratio text as the parser emits it. *)
Definition emitted (s : list N) : Prop := ∃ x : float, s = toFixed2 x ++ js ":1".

(** A text the normalisation leaves as it is. *)
Definition stable (s : list N) : Prop :=
  normalizeAspectRatioText (Some s) = Some s.

Ltac alphabet_cases H :=
  unfold alphabet in H;
  repeat (apply elem_of_cons in H as [->|H]);
  [..|now apply elem_of_nil in H].

(** ** Further notions used in the statements *)

(** A text that neither starts nor ends with white space. *)
Definition tight (s : list N) : Prop :=
  headNot isSpace s ∧ headNot isSpace (rev s).

Definition isParen (c : N) : bool := (c =? 40) || (c =? 41).

(** A code unit that is neither a separator nor a parenthesis. *)
Definition plainUnit (c : N) : Prop := isSeparator c = false ∧ isParen c = false.

(** A Number that is not negative (NaN has no sign). *)
Definition nonneg (x : float) : Prop :=
  match x with
  | S754_zero s | S754_infinity s | S754_finite s _ _ => s = false
  | S754_nan => True
  end.

(** The Numbers [toFixed] does not print in fixed notation: NaN, the
    infinities and the finite ones from [10^21] on. *)
Definition beyondFixed (x : float) : Prop :=
  match x with
  | S754_zero _ => False
  | S754_finite _ m e => (0 <= e ∧ 10 ^ 21 <= Z.pos m * 2 ^ e)%Z
  | S754_infinity _ | S754_nan => True
  end.

(** The shape of a ratio text: canonical, or printed for a Number that
    [toFixed] does not print in fixed notation. *)
Definition shaped (s : list N) : Prop :=
  canonical s ∨ ∃ x : float, s = toFixed2 x ++ js ":1" ∧ beyondFixed x.

(** A text whose white space is single spaces only: every white-space code
    unit is a space and is not followed by white space. *)
Inductive spaced : list N → Prop :=
| spaced_nil : spaced []
| spaced_unit (x : N) (l : list N) :
    isSpace x = false → spaced l → spaced (x :: l)
| spaced_space (l : list N) :
    headNot isSpace l → spaced l → spaced (32 :: l).

(** ** The content script: the id of the film *)

(** [r{n}] and the greedy [r{0,n}] and [r{a,b}]. *)
Fixpoint times (n : nat) (r : regex) : regex :=
  match n with
  | O => Eps
  | S n' => Seq r (times n' r)
  end.

Fixpoint upTo (n : nat) (r : regex) : regex :=
  match n with
  | O => Eps
  | S n' => opt (Seq r (upTo n' r))
  end.

Definition between (a b : nat) (r : regex) : regex :=
  Seq (times a r) (upTo (b - a) r).

(** [/tt\d{5,10}/]. *)
Definition imdbIdRe : regex := cat [lit "tt"; between 5 10 digit].

Definition extractImdbIdFromHref (href : option (list N)) : option (list N) :=
  match href with
  | None | Some [] => None
  | Some h =>
      match exec imdbIdRe h with
      | Some m => Some (matched m)
      | None => None
      end
  end.

(** The ids of the films: [tt] and five to ten digits. *)
Definition isImdbId (id : list N) : Prop :=
  ∃ ds, id = js "tt" ++ ds
        ∧ Forall (fun x => isDigit x = true) ds
        ∧ (5 ≤ length ds ≤ 10)%nat.

(** The address of the page of technical specifications of a film. *)
Definition technicalUrl (imdbId : list N) : list N :=
  js "https://www.imdb.com/title/" ++ imdbId ++ js "/technical/".

(** ** The text of a number *)

Module NumberToString.

Local Open Scope Z_scope.

(** [floor (m * 2^e * 10^j)]. *)
Definition scaled (m e j : Z) : Z :=
  (m * 2 ^ Z.max e 0 * 10 ^ Z.max j 0) / (2 ^ Z.max (- e) 0 * 10 ^ Z.max (- j) 0).

(** For [m * 2^e < 1], the least [j >= 1] with [m * 2^e * 10^j >= 1]. *)
Fixpoint leadingZeros (fuel : nat) (m e j : Z) : Z :=
  match fuel with
  | O => j
  | S f => if 1 <=? scaled m e j then j else leadingZeros f m e (j + 1)
  end.

(** The [n] with [10^(n-1) <= m * 2^e < 10^n]. *)
Definition magnitude (m e : Z) : Z :=
  let X := scaled m e 0 in
  if 1 <=? X then Z.of_nat (length (digitsOfN (Z.to_N X)))
  else 1 - leadingZeros 400 m e 1.

(** The Number value of the candidate [(s, n)] with [k] digits, which
    stands for [s * 10^(n-k)]. *)
Definition candNumber (k : Z) (c : Z * Z) : float :=
  if k <=? snd c then ofZ (fst c * 10 ^ (snd c - k))
  else ofDecimal (Z.to_N (fst c)) (Z.to_nat (k - snd c)).

Definition isCandOf (x : float) (k : Z) (c : Z * Z) : bool :=
  (10 ^ (k - 1) <=? fst c) && (fst c <? 10 ^ k) && eqb (candNumber k c) x.

(** The distance from the candidate to [m * 2^e], in units of
    [10^(n0-k) / (2^max(-e,0) * 10^max(n0-k,0))]. *)
Definition distance (m e n0 k : Z) (c : Z * Z) : Z :=
  Z.abs (fst c * 10 ^ (snd c - n0) * (2 ^ Z.max (- e) 0 * 10 ^ Z.max (n0 - k) 0)
         - m * 2 ^ Z.max e 0 * 10 ^ Z.max (k - n0) 0).

(** Of two candidates, the nearer one; the even one on a tie. *)
Definition nearer (m e n0 k : Z) (c1 c2 : Z * Z) : Z * Z :=
  let d1 := distance m e n0 k c1 in
  let d2 := distance m e n0 k c2 in
  if d1 <? d2 then c1
  else if d2 <? d1 then c2
  else if Z.even (fst c1) then c1 else c2.

(** The digits [s], the exponent [n] and the number [k] of digits of
    [Number::toString] for [x = m * 2^e > 0]: the least [k] for which some
    [s * 10^(n-k)] has the Number value [x]. *)
Fixpoint shortestDecimal (fuel : nat) (k : Z) (x : float) (m e n0 : Z)
    : Z * Z * Z :=
  match fuel with
  | O => (scaled m e (k - n0), n0, k)
  | S f =>
      let lo := scaled m e (k - n0) in
      match List.filter (isCandOf x k)
              [(lo, n0); (lo + 1, n0); (scaled m e (k - n0 - 1) + 1, n0 + 1)] with
      | [] => shortestDecimal f (k + 1) x m e n0
      | c :: cs => (fold_left (nearer m e n0 k) cs c, k)
      end
  end.

(** [Number::toString] for [x = m * 2^e > 0] below [10^21]. *)
Definition toStringSmall (x : float) (m e : Z) : list N :=
  let '(s, n, k) := shortestDecimal 17 1 x m e (magnitude m e) in
  let ds := digitsOfN (Z.to_N s) in
  if (k <=? n) && (n <=? 21) then ds ++ replicate (Z.to_nat (n - k)) 48%N
  else if (0 <? n) && (n <=? 21)
  then take (Z.to_nat n) ds ++ js "." ++ drop (Z.to_nat n) ds
  else if (-6 <? n) && (n <=? 0)
  then js "0." ++ replicate (Z.to_nat (- n)) 48%N ++ ds
  else
    let ex := (if n - 1 <? 0 then js "-" else js "+")
              ++ digitsOfN (Z.to_N (Z.abs (n - 1))) in
    match ds with
    | [] => []
    | [d] => d :: js "e" ++ ex
    | d :: ds' => d :: js "." ++ ds' ++ js "e" ++ ex
    end.

(** [String(x)] for a Number [x]. *)
Definition numberToString (x : float) : list N :=
  match x with
  | S754_nan => js "NaN"
  | S754_infinity s => if s then js "-Infinity" else js "Infinity"
  | S754_zero _ => js "0"
  | S754_finite s m e =>
      let sign := if s then js "-" else [] in
      if (0 <=? e) && (10 ^ 21 <=? Z.pos m * 2 ^ e)
      then sign ++ toStringLarge (S754_finite false m e) (Z.pos m * 2 ^ e)
      else sign ++ toStringSmall (S754_finite false m e) (Z.pos m) e
  end.

(** A Number in a condition: [NaN] and the zeros are falsy. *)
Definition truthy (x : float) : bool :=
  match x with
  | S754_nan | S754_zero _ => false
  | _ => true
  end.

End NumberToString.
Import NumberToString.

(** ** The text of the badge of the icon *)

(** [/^(\d+(?:\.\d+)?):1$/]. *)
Definition badgeRe : regex := cat [Bol; Group 1 numberRe; lit ":1"; Eol].

Definition formatBadgeTextForIcon (ratio : option (list N)) : list N :=
  match ratio with
  | None | Some [] => []
  | Some r =>
      match exec badgeRe r with
      | Some m => slice (groupText 1 m) 0 4
      | None =>
          match ratioToNumber r with
          | Some n =>
              if truthy n
              then slice (numberToString
                            (div (mathRound (mul n (ofZ 100))) (ofZ 100))) 0 4
              else slice r 0 4
          | None => slice r 0 4
          end
      end
  end.

(** ** The cache, the status and the handlers of the worker

    The state of the worker is passed explicitly: the two storage areas,
    the variables [STATUS], [TAB_DATA] and [lastImdbRequestTime], the badge
    and the title of the icon for each tab, and the requests sent to IMDb.
    A handler is run to its end before the next event is handled; what it
    reads from the clock and what [fetch] answers are given with the
    event.  The log lines are left out. *)

Definition CACHE_TTL_MS : Z := 30 * 24 * 60 * 60 * 1000.
Definition MIN_REQUEST_INTERVAL_MS : Z := 1000.

Module Cache.
(** [{ ...data, fetchedAt }]. *)
Record record := mk { data : AspectRatioResult; fetchedAt : Z }.
End Cache.

Module Tab.
(** A value of [TAB_DATA]; a field that is not set is [None]. *)
Record data := mk {
  imdbId : option (list N);
  aspectRatio : option (list N);
  displayText : option (list N);
  mappedTypeShort : option (list N);
  filmTitle : option (list N)
}.
End Tab.

Module Sender.
(** [sender.tab]. *)
Record tab := mk { id : Z; incognito : bool }.
End Sender.

Module Msg.
(** A message; a field that is not set is [None]. *)
Record t := mk {
  type : list N;
  imdbId : option (list N);
  filmTitle : option (list N);
  status : option (list N);
  aspectRatio : option (list N);
  error : option (list N)
}.
End Msg.

Record Status := mkStatus {
  lastImdbId : option (list N);
  lastStatus : list N;
  lastAspectRatio : option (list N);
  lastFilmTitle : option (list N);
  lastError : option (list N);
  lastUpdate : option (list N);
  totalFetches : N;
  cacheHits : N;
  imdbRequests : N
}.

Definition initialStatus : Status :=
  mkStatus None (js "idle") None None None None 0 0 0.

(** The badge and the title of the icon for a tab. *)
Record Action := mkAction {
  badgeText : list N;
  badgeBackgroundColor : option (list N);
  title : list N
}.

Record World := mkWorld {
  storageLocal : gmap (list N) Cache.record;
  sessionStatus : option Status;
  sessionTabData : option (gmap Z Tab.data);
  STATUS : Status;
  TAB_DATA : gmap Z Tab.data;
  lastImdbRequestTime : Z;
  actions : gmap Z Action;
  waited : list Z;
  requested : list (list N)
}.

(** What [fetch] does: it answers, or it rejects with an error object of
    some name and message. *)
Inductive fetched :=
| Answered (res : Response)
| Rejected (name message : list N).

(** What a run of the handler of the messages takes from outside. *)
Record Env := mkEnv {
  isoTime : list N;
  timeOfMessage : Z;
  timeOfFetch : Z;
  timeOfRequest : Z;
  answer : fetched;
  timeOfRecord : Z
}.

Inductive Reply :=
| ReplyData (record : Cache.record)
| ReplyError (error : list N)
| ReplyStatus (status : Status)
| NoReply.

Definition setStorageLocal (v : gmap (list N) Cache.record) (w : World) : World :=
  mkWorld v (sessionStatus w) (sessionTabData w) (STATUS w) (TAB_DATA w)
    (lastImdbRequestTime w) (actions w) (waited w) (requested w).

Definition setSTATUS (v : Status) (w : World) : World :=
  mkWorld (storageLocal w) (sessionStatus w) (sessionTabData w) v (TAB_DATA w)
    (lastImdbRequestTime w) (actions w) (waited w) (requested w).

Definition setTAB_DATA (v : gmap Z Tab.data) (w : World) : World :=
  mkWorld (storageLocal w) (sessionStatus w) (sessionTabData w) (STATUS w) v
    (lastImdbRequestTime w) (actions w) (waited w) (requested w).

Definition setActions (v : gmap Z Action) (w : World) : World :=
  mkWorld (storageLocal w) (sessionStatus w) (sessionTabData w) (STATUS w)
    (TAB_DATA w) (lastImdbRequestTime w) v (waited w) (requested w).

Definition saveStatus (w : World) : World :=
  mkWorld (storageLocal w) (Some (STATUS w)) (sessionTabData w) (STATUS w)
    (TAB_DATA w) (lastImdbRequestTime w) (actions w) (waited w) (requested w).

Definition saveTabData (w : World) : World :=
  mkWorld (storageLocal w) (sessionStatus w) (Some (TAB_DATA w)) (STATUS w)
    (TAB_DATA w) (lastImdbRequestTime w) (actions w) (waited w) (requested w).

(** A string in a condition: [null] and the empty string are falsy. *)
Definition given (x : option (list N)) : bool :=
  match x with
  | Some (_ :: _) => true
  | _ => false
  end.

(** A tab id in a condition: [undefined] and [0] are falsy. *)
Definition givenTab (sender : option Sender.tab) : option Z :=
  match sender with
  | Some t => if (Sender.id t =? 0)%Z then None else Some (Sender.id t)
  | None => None
  end.

Definition isIncognito (sender : option Sender.tab) : bool :=
  match sender with
  | Some t => Sender.incognito t
  | None => false
  end.

Definition titleForTab (d : Tab.data) : list N :=
  let ar := toString (Tab.aspectRatio d) in
  default (js "Film") (orElse (Tab.filmTitle d) None) ++ js ": " ++ ar
  ++ (if given (Tab.mappedTypeShort d)
      then js " (" ++ toString (Tab.mappedTypeShort d) ++ js ")" else [])
  ++ (if given (Tab.displayText d)
         && negb (bool_decide (Tab.displayText d = Tab.aspectRatio d))
      then [10] ++ js "All: " ++ toString (Tab.displayText d) else []).

Definition updateBadgeForTab (tabId : Z) (w : World) : World :=
  let old := actions w !! tabId in
  match TAB_DATA w !! tabId with
  | Some d =>
      if given (Tab.aspectRatio d)
      then setActions
             (<[tabId := mkAction (formatBadgeTextForIcon (Tab.aspectRatio d))
                           (Some (js "#4CAF50")) (titleForTab d)]> (actions w)) w
      else setActions
             (<[tabId := mkAction [] (old ≫= badgeBackgroundColor)
                           (js "Letterboxd Aspect Ratio")]> (actions w)) w
  | None =>
      setActions
        (<[tabId := mkAction [] (old ≫= badgeBackgroundColor)
                      (js "Letterboxd Aspect Ratio")]> (actions w)) w
  end.

Definition cacheKey (imdbId : list N) : list N := js "ar:" ++ imdbId.

Definition getCached (imdbId : list N) (w : World) : option Cache.record :=
  storageLocal w !! cacheKey imdbId.

Definition setCached (imdbId : list N) (value : Cache.record) (w : World) : World :=
  setStorageLocal (<[cacheKey imdbId := value]> (storageLocal w)) w.

(** The wait of the rate limit, if any. *)
Definition rateLimitDelay (now last : Z) : option Z :=
  let timeSinceLastRequest := (now - last)%Z in
  if (timeSinceLastRequest <? MIN_REQUEST_INTERVAL_MS)%Z
  then Some (MIN_REQUEST_INTERVAL_MS - timeSinceLastRequest)%Z
  else None.

Definition countRequest (s : Status) : Status :=
  mkStatus (lastImdbId s) (lastStatus s) (lastAspectRatio s) (lastFilmTitle s)
    (lastError s) (lastUpdate s) (totalFetches s) (cacheHits s)
    (imdbRequests s + 1).

(** What comes of the request: the result, or the name and the message of
    the error thrown. *)
Definition fetchOutcome (env : Env) (imdbId : list N)
    : list N * list N + AspectRatioResult :=
  match answer env with
  | Rejected name message => inl (name, message)
  | Answered res =>
      match fetchImdbAspectRatio imdbId res with
      | inl (Error message) => inl (js "Error", message)
      | inr r => inr r
      end
  end.

(** [fetchImdbAspectRatio] as a whole: the wait of the rate limit, the
    request, and what comes of it. *)
Definition fetchImdbAspectRatioAt (env : Env) (imdbId : list N) (w : World)
    : World * (list N * list N + AspectRatioResult) :=
  let delay := rateLimitDelay (timeOfFetch env) (lastImdbRequestTime w) in
  let url := js "https://www.imdb.com/title/" ++ imdbId ++ js "/technical/" in
  let w := mkWorld (storageLocal w) (sessionStatus w) (sessionTabData w)
             (countRequest (STATUS w)) (TAB_DATA w) (timeOfRequest env)
             (actions w)
             (match delay with Some d => d :: waited w | None => waited w end)
             (url :: requested w) in
  (w, fetchOutcome env imdbId).

(** [String(err && err.message ? err.message : err)] for an error object. *)
Definition errorText (name message : list N) : list N :=
  match message with
  | _ :: _ => message
  | [] => name
  end.

Definition startFetching (imdbId : list N) (filmTitle : option (list N))
    (iso : list N) (s : Status) : Status :=
  mkStatus (Some imdbId) (js "fetching") (lastAspectRatio s)
    (orElse filmTitle None) (lastError s) (Some iso) (totalFetches s + 1)
    (cacheHits s) (imdbRequests s).

Definition markSuccess (ar filmTitle : option (list N)) (s : Status) : Status :=
  mkStatus (lastImdbId s) (js "success") ar (orElse filmTitle None)
    (lastError s) (lastUpdate s) (totalFetches s) (cacheHits s) (imdbRequests s).

Definition countHit (s : Status) : Status :=
  mkStatus (lastImdbId s) (lastStatus s) (lastAspectRatio s) (lastFilmTitle s)
    (lastError s) (lastUpdate s) (totalFetches s) (cacheHits s + 1)
    (imdbRequests s).

Definition markError (error : list N) (s : Status) : Status :=
  mkStatus (lastImdbId s) (js "error") (lastAspectRatio s) (lastFilmTitle s)
    (Some error) (lastUpdate s) (totalFetches s) (cacheHits s) (imdbRequests s).

(** The entry of [TAB_DATA] made from a result. *)
Definition tabEntry (imdbId : list N) (r : AspectRatioResult)
    (filmTitle : option (list N)) : Tab.data :=
  Tab.mk (Some imdbId) (aspectRatio r)
    (orElse (Some (displayText r)) (aspectRatio r))
    (orElse (mappedTypeShort r) None) (orElse filmTitle None).

Definition setTab (tabId : Z) (d : Tab.data) (w : World) : World :=
  setTAB_DATA (<[tabId := d]> (TAB_DATA w)) w.

(** The record of the cache that is used: one that has a time of fetch
    less than [CACHE_TTL_MS] before [now]. *)
Definition freshRecord (now : Z) (cached : option Cache.record) : option Cache.record :=
  match cached with
  | Some c =>
      if negb (Cache.fetchedAt c =? 0)%Z
         && (now - Cache.fetchedAt c <? CACHE_TTL_MS)%Z
      then Some c else None
  | None => None
  end.

(** The handler of the message [getAspectRatio] for a given [imdbId]. *)
Definition getAspectRatio (env : Env) (imdbId : list N)
    (filmTitle : option (list N)) (sender : option Sender.tab) (w : World)
    : World * Reply :=
  let tabId := givenTab sender in
  let incognito := isIncognito sender in
  let w := setSTATUS (startFetching imdbId filmTitle (isoTime env) (STATUS w)) w in
  let w := if negb incognito then saveStatus w else w in
  let now := timeOfMessage env in
  let cached := if negb incognito then getCached imdbId w else None in
  match freshRecord now cached with
  | Some c =>
      let r := Cache.data c in
      let w := if negb incognito
               then saveStatus
                      (setSTATUS (markSuccess (aspectRatio r) filmTitle
                                    (countHit (STATUS w))) w)
               else w in
      let w := match tabId with
               | Some t =>
                   if negb incognito
                   then updateBadgeForTab t
                          (saveTabData (setTab t (tabEntry imdbId r filmTitle) w))
                   else updateBadgeForTab t
                          (setTab t (tabEntry imdbId r filmTitle) w)
               | None => w
               end in
      (w, ReplyData c)
  | None =>
      match fetchImdbAspectRatioAt env imdbId w with
      | (w, inr r) =>
          let record := Cache.mk r (timeOfRecord env) in
          let w :=
            if negb incognito then
              let w := setCached imdbId record w in
              let w := saveStatus
                         (setSTATUS (markSuccess (aspectRatio r) filmTitle (STATUS w)) w) in
              match tabId with
              | Some t =>
                  updateBadgeForTab t
                    (saveTabData (setTab t (tabEntry imdbId r filmTitle) w))
              | None => w
              end
            else
              let w := setSTATUS (markSuccess (aspectRatio r) filmTitle (STATUS w)) w in
              match tabId with
              | Some t =>
                  updateBadgeForTab t (setTab t (tabEntry imdbId r filmTitle) w)
              | None => w
              end in
          (w, ReplyData record)
      | (w, inl (name, message)) =>
          let w := setSTATUS (markError (errorText name message) (STATUS w)) w in
          let w := if negb incognito then saveStatus w else w in
          (w, ReplyError (errorText name message))
      end
  end.

(** The handler of the message [updateStatus]. *)
Definition updateStatus (env : Env) (msg : Msg.t) (sender : option Sender.tab)
    (w : World) : World :=
  let tabId := givenTab sender in
  let s := STATUS w in
  let s := mkStatus
             (if given (Msg.imdbId msg) then Msg.imdbId msg else lastImdbId s)
             (if given (Msg.status msg) then toString (Msg.status msg)
              else lastStatus s)
             (if given (Msg.aspectRatio msg) then Msg.aspectRatio msg
              else lastAspectRatio s)
             (if given (Msg.filmTitle msg) then Msg.filmTitle msg
              else lastFilmTitle s)
             (if given (Msg.error msg) then Msg.error msg else lastError s)
             (Some (isoTime env)) (totalFetches s) (cacheHits s)
             (imdbRequests s) in
  let w := saveStatus (setSTATUS s w) in
  match tabId with
  | Some t =>
      if given (Msg.aspectRatio msg) then
        let entry :=
          Tab.mk (orElse (Msg.imdbId msg) (lastImdbId (STATUS w)))
            (Msg.aspectRatio msg)
            (orElse (TAB_DATA w !! t ≫= Tab.displayText) (Msg.aspectRatio msg))
            None (orElse (Msg.filmTitle msg) None) in
        updateBadgeForTab t (saveTabData (setTab t entry w))
      else w
  | None => w
  end.

(** The listener of the messages. *)
Definition onMessage (env : Env) (msg : option Msg.t)
    (sender : option Sender.tab) (w : World) : World * Reply :=
  match msg with
  | None => (w, NoReply)
  | Some m =>
      if bool_decide (Msg.type m = js "getAspectRatio") && given (Msg.imdbId m)
      then getAspectRatio env (toString (Msg.imdbId m)) (Msg.filmTitle m) sender w
      else if bool_decide (Msg.type m = js "updateStatus")
      then (updateStatus env m sender w, NoReply)
      else if bool_decide (Msg.type m = js "getStatus")
      then (w, ReplyStatus (STATUS w))
      else (w, NoReply)
  end.

(** The listeners of the tabs. *)
Definition onActivated (tabId : Z) (w : World) : World :=
  updateBadgeForTab tabId w.

Definition onUpdated (tabId : Z) (urlChanged : bool) (w : World) : World :=
  if urlChanged
  then updateBadgeForTab tabId
         (saveTabData (setTAB_DATA (delete tabId (TAB_DATA w)) w))
  else w.

Definition onRemoved (tabId : Z) (w : World) : World :=
  saveTabData (setTAB_DATA (delete tabId (TAB_DATA w)) w).

(** The start of the worker: the variables have their initial values, then
    the status and the table of the tabs are restored from the session
    storage. *)
Definition onStartup (w : World) : World :=
  mkWorld (storageLocal w) (sessionStatus w) (sessionTabData w)
    (default initialStatus (sessionStatus w))
    (default ∅ (sessionTabData w)) 0 (actions w) (waited w) (requested w).

Inductive event :=
| Message (env : Env) (msg : option Msg.t) (sender : option Sender.tab)
| Activated (tabId : Z)
| Updated (tabId : Z) (urlChanged : bool)
| Removed (tabId : Z)
| Startup.

Definition handle (w : World) (e : event) : World :=
  match e with
  | Message env msg sender => fst (onMessage env msg sender w)
  | Activated t => onActivated t w
  | Updated t u => onUpdated t u w
  | Removed t => onRemoved t w
  | Startup => onStartup w
  end.

(** The worker after a sequence of events. *)
Definition handleAll (w : World) (es : list event) : World :=
  fold_left handle es w.

(** Every request counted is counted as a hit of the cache or as a request
    to IMDb. *)
Definition counted (s : Status) : Prop :=
  totalFetches s = cacheHits s + imdbRequests s.

(** The counters in the status in memory and in the status saved. *)
Definition countedWorld (w : World) : Prop :=
  counted (STATUS w) ∧ ∀ s, sessionStatus w = Some s → counted s.

(** *** A film, for the examples *)

Definition bladeRunner : list N := js "tt0083658".

Definition bladeRunnerResult : AspectRatioResult :=
  mkResult (Some (js "2.39:1")) (js "2.39:1 (Anamorphic widescreen, Scope)")
    [js "2.39:1"] (Some (js "Scope"))
    (Some (js "Anamorphic widescreen, Scope")) (js "imdb")
    (js "https://www.imdb.com/title/tt0083658/technical/").

(** A worker that has just started, with a record for the film fetched at
    the time [1000]. *)
Definition startedWith (local : gmap (list N) Cache.record) : World :=
  mkWorld local None None initialStatus ∅ 0 ∅ [] [].

Definition cachedWorld : World :=
  startedWith {[cacheKey bladeRunner := Cache.mk bladeRunnerResult 1000]}.

(** A page of technical specifications with one ratio. *)
Definition technicalPage : Response :=
  mkResponse true 200 (js "<li>Aspect ratio 2.39 : 1</li>").

Definition envAt (time : Z) (a : fetched) : Env :=
  mkEnv (js "2025-01-01T00:00:00.000Z") time time time a time.

Definition normalTab (t : Z) : option Sender.tab := Some (Sender.mk t false).
Definition privateTab (t : Z) : option Sender.tab := Some (Sender.mk t true).

(** ** The content script: the badge of the page and the messages *)

(** The element of the badge: its text, its [title] and [data-source]
    attributes, the address of the link it holds, and the two classes the
    script puts and removes. *)
Record Badge := mkBadge {
  textContent : list N;
  badgeTitle : option (list N);
  dataSource : option (list N);
  linkHref : option (list N);
  loading : bool;
  notAvailable : bool
}.

Definition updateBadge (badgeEl : option Badge)
    (text source sourceUrl : option (list N)) : option Badge :=
  match badgeEl with
  | None => None
  | Some b =>
      if given text then
        let content := js "Aspect Ratio: " ++ toString text in
        let b := mkBadge content (badgeTitle b) (dataSource b) None false
                   (notAvailable b) in
        let b := if given source
                 then mkBadge (textContent b)
                        (Some (js "Aspect ratio from "
                               ++ toUpperCase (toString source)
                               ++ (if given sourceUrl
                                   then [10] ++ toString sourceUrl else [])))
                        source (linkHref b) (loading b) (notAvailable b)
                 else b in
        let b := if given sourceUrl
                 then mkBadge (textContent b) (badgeTitle b) (dataSource b)
                        sourceUrl (loading b) (notAvailable b)
                 else b in
        Some b
      else
        Some (mkBadge (js "AR: N/A") (Some (js "Aspect ratio not found"))
                (dataSource b) None false true)
  end.

(** What [requestAspectRatio] resolves to, in the fields of the message
    that follows: the ratio, or the text of the error. *)
Definition errorOfReply (resp : Reply) : option (list N) :=
  match resp with
  | ReplyError e => orElse (Some e) (Some (js "Not found"))
  | NoReply => Some (js "No response")
  | _ => Some (js "Not found")
  end.

(** The two messages of the content script. *)
Definition updateStatusMessage (id : list N) (filmTitle : option (list N))
    (status : list N) (aspectRatio error : option (list N)) : Msg.t :=
  Msg.mk (js "updateStatus") (Some id) filmTitle (Some status) aspectRatio error.

Definition getAspectRatioMessage (id : list N) (filmTitle : option (list N))
    : Msg.t :=
  Msg.mk (js "getAspectRatio") (Some id) filmTitle None None None.

(** [initWithAnchor], from the address of the link, the title of the film
    and the element of the badge that the page gives: the three messages
    it sends are handled by the worker one after the other. *)
Definition initWithAnchor (env1 env2 env3 : Env) (href filmTitle : option (list N))
    (badge : option Badge) (sender : option Sender.tab) (w : World)
    : World * option Badge :=
  match extractImdbIdFromHref href with
  | Some (c :: l) =>
      let id := c :: l in
      match badge with
      | None => (w, badge)
      | Some _ =>
          let w := fst (onMessage env1
                          (Some (updateStatusMessage id filmTitle (js "fetching")
                                   None None))
                          sender w) in
          let '(w, resp) :=
            onMessage env2 (Some (getAspectRatioMessage id filmTitle)) sender w in
          match resp with
          | ReplyData r =>
              let d := Cache.data r in
              let display := orElse (Some (displayText d)) (aspectRatio d) in
              (fst (onMessage env3
                      (Some (updateStatusMessage id filmTitle (js "success")
                               (aspectRatio d) None))
                      sender w),
               updateBadge badge display (Some (source d)) (Some (sourceUrl d)))
          | _ =>
              (fst (onMessage env3
                      (Some (updateStatusMessage id filmTitle (js "error") None
                               (errorOfReply resp)))
                      sender w),
               updateBadge badge None None None)
          end
      end
  | _ => (w, badge)
  end.

Definition emptyBadge : Badge := mkBadge [] None None None true false.

(** The record [c] under the key [k] was fetched by the event [e]: a
    message [getAspectRatio] of a normal window for the film of the key,
    answered with the result of the record at the time of the record. *)
Definition fetchedBy (e : event) (k : list N) (c : Cache.record) : Prop :=
  ∃ env m sender id,
    e = Message env (Some m) sender
    ∧ isIncognito sender = false
    ∧ Msg.type m = js "getAspectRatio"
    ∧ Msg.imdbId m = Some id
    ∧ k = cacheKey id
    ∧ fetchOutcome env id = inr (Cache.data c)
    ∧ Cache.fetchedAt c = timeOfRecord env.

(** ** Notions on the case conversion *)




(** ** The label of the blocks, as a text has it *)







(** ** The table of the formats in exact arithmetic *)











(** The [n] numbers from [a] on. *)
Definition range (a n : nat) : list N := N.of_nat <$> seq a n.

(** ** The first ratio token of a segment *)

(** The text starts with a ratio token: a number, white space, a colon,
    white space and a number. *)
Definition tokenAt (l : list N) : Prop :=
  ∃ n ws1 ws2 d tail,
    l = n ++ ws1 ++ 58 :: ws2 ++ d ++ tail
    ∧ numberToken n ∧ numberToken d
    ∧ Forall (fun x => isSpace x = true) ws1
    ∧ Forall (fun x => isSpace x = true) ws2.

(** The number [d] goes on in the text after it. *)
Definition continued (d tail : list N) : Prop :=
  ∃ x tail', tail = x ++ tail' ∧ x ≠ [] ∧ numberToken (d ++ x).

(** [n : d] is the first ratio token of the segment: no ratio token starts
    before it, and [d] is the whole of the second number. *)
Definition firstToken (pre n ws1 ws2 d tail : list N) : Prop :=
  numberToken n ∧ numberToken d
  ∧ Forall (fun x => isSpace x = true) ws1
  ∧ Forall (fun x => isSpace x = true) ws2
  ∧ ¬ continued d tail
  ∧ ∀ i : nat, (i < length pre)%nat →
               ¬ tokenAt (drop i (segment pre n ws1 ws2 d tail)).

(** [100 N / D] lies halfway between two integers, for the exact decimals
    [N] and [D]. *)
Definition tie (n d : list N) : bool :=
  let '(a, i) := decimalOf n in
  let '(b, j) := decimalOf d in
  let num := 100 * a * 10 ^ N.of_nat j in
  let den := b * 10 ^ N.of_nat i in
  (2 * num) mod (2 * den) =? den.

(** The integer [k] of thousandths with three decimals. *)
Definition thousandths (k : N) : list N :=
  let m := digitsOfN k in
  let m := replicate (4 - length m) 48%N ++ m in
  take (length m - 3) m ++ js "." ++ drop (length m - 3) m.

(** The tokens on which the rounded quotient is compared with the exact
    one: two integers from 1 to 40; the thousandths up to 2.999 and the
    hundredths up to 9.99, over 1. *)
Definition checkedToken (n d : list N) : Prop :=
  (∃ a b, 1 ≤ a ≤ 40 ∧ 1 ≤ b ≤ 40 ∧ n = digitsOfN a ∧ d = digitsOfN b)
  ∨ (∃ k, 1 ≤ k ≤ 2999 ∧ n = thousandths k ∧ d = js "1")
  ∨ (∃ k, 1 ≤ k ≤ 999 ∧ n = fixedDigits k ∧ d = js "1").

(** The check that the token [n : d], unless a tie, has a nonzero
    denominator, a positive numerator and the exact quotient as ratio. *)
Definition exactOn (n d : list N) : bool :=
  tie n d
  || (negb (eqb (parseFloat d) zero) && ltb zero (parseFloat n)
      && bool_decide (normalizedRatio (parseFloat n) (parseFloat d)
                      = exactRatio n d)).

(** * Properties *)

(** ** The classifier *)

Lemma scoreForPrimary_table (r : list N) (val : float) :
  ratioToNumber r = Some val -> scoreForPrimary r = scoreByTable val.
Proof.
  intros Hval. unfold scoreForPrimary, scoreByTable, firstWithin, preferenceTable.
  rewrite Hval.
  cbn [List.find existsb fst snd fmap option_fmap option_map default].
  repeat match goal with
         | |- context [within val ?t] =>
             destruct (within val t) eqn:?;
             cbn [List.find existsb fst snd fmap option_fmap option_map default orb];
             try reflexivity
         end.
Qed.

(** ** The primary ratio *)

Lemma firstBest_single (b : list N) : firstBest [b] b.
Proof.
  exists 0%nat. split; [reflexivity|]. split.
  - intros [|j] x Hx; simpl in Hx; [|discriminate].
    injection Hx as <-. lia.
  - intros j x Hj. lia.
Qed.

Lemma firstBest_step (pre : list (list N)) (b x : list N) :
  firstBest pre b →
  firstBest (pre ++ [x]) (fst (primaryStep (b, scoreForPrimary b) x))
  ∧ snd (primaryStep (b, scoreForPrimary b) x)
    = scoreForPrimary (fst (primaryStep (b, scoreForPrimary b) x)).
Proof.
  intros (i & Hi & Hmax & Hfirst). unfold primaryStep. cbn [snd].
  destruct (Z.gtb_spec (scoreForPrimary x) (scoreForPrimary b)) as [Hgt|Hle];
    cbn [fst snd]; (split; [|reflexivity]).
  - exists (length pre). split; [apply list_lookup_middle; reflexivity|]. split.
    + intros j y Hy. apply lookup_app_Some in Hy as [Hy|[_ Hy]].
      * specialize (Hmax _ _ Hy). lia.
      * apply list_lookup_singleton_Some in Hy as [_ <-]. lia.
    + intros j y Hj Hy. rewrite lookup_app_l in Hy by exact Hj.
      specialize (Hmax _ _ Hy). lia.
  - exists i. split; [apply lookup_app_l_Some; exact Hi|]. split.
    + intros j y Hy. apply lookup_app_Some in Hy as [Hy|[_ Hy]].
      * exact (Hmax _ _ Hy).
      * apply list_lookup_singleton_Some in Hy as [_ <-]. lia.
    + intros j y Hj Hy. apply (Hfirst j y Hj).
      apply lookup_lt_Some in Hi.
      rewrite lookup_app_l in Hy by lia. exact Hy.
Qed.

Lemma firstBest_fold (l pre : list (list N)) (b : list N) :
  firstBest pre b →
  firstBest (pre ++ l) (fst (fold_left primaryStep l (b, scoreForPrimary b))).
Proof.
  revert pre b. induction l as [|x l IH]; intros pre b Hb.
  - rewrite app_nil_r. exact Hb.
  - cbn [fold_left].
    destruct (firstBest_step pre b x Hb) as [Hstep Hscore].
    destruct (primaryStep (b, scoreForPrimary b) x) as [b' s'].
    cbn [fst snd] in *. subst s'.
    replace (pre ++ x :: l) with ((pre ++ [x]) ++ l) by (now rewrite <- app_assoc).
    now apply IH.
Qed.

Lemma choosePrimaryRatio_firstBest (l : list (list N)) :
  l ≠ [] → ∃ r, choosePrimaryRatio (Some l) = Some r ∧ firstBest l r.
Proof.
  destruct l as [|r0 l]; [congruence|]. intros _.
  eexists. split; [reflexivity|].
  apply (firstBest_fold l [r0] r0), firstBest_single.
Qed.

Lemma firstBest_elem (l : list (list N)) (r : list N) : firstBest l r → r ∈ l.
Proof. intros (i & Hi & _). eapply list_elem_of_lookup_2, Hi. Qed.

(** C4. On a nonempty list the selector returns an element of the list: the
    first one of greatest score (a later candidate replaces the best one
    only on a strictly greater score).  The score of a text that denotes a
    ratio is the one of the preference table, the default being 10.  On
    [1.33:1; 2.39:1] the result is [2.39:1], for the scores 35 and 100. *)
Theorem choosePrimaryRatio_element (l : list (list N)) :
  l ≠ [] →
  (∃ r, choosePrimaryRatio (Some l) = Some r ∧ r ∈ l ∧ firstBest l r)
  ∧ (∀ r val, ratioToNumber r = Some val →
       scoreForPrimary r = default 10%Z (firstWithin preferenceTable val))
  ∧ choosePrimaryRatio (Some [js "1.33:1"; js "2.39:1"]) = Some (js "2.39:1")
  ∧ scoreForPrimary (js "1.33:1") = 35%Z
  ∧ scoreForPrimary (js "2.39:1") = 100%Z.
Proof.
  intros Hl. split; [|split; [|split; [|split]]].
  - destruct (choosePrimaryRatio_firstBest l Hl) as (r & Hr & Hbest).
    exists r. eauto using firstBest_elem.
  - intros r val. apply scoreForPrimary_table.
  - vm_compute. reflexivity.
  - vm_compute. reflexivity.
  - vm_compute. reflexivity.
Qed.

Lemma choosePrimaryRatio_element_witness :
  [js "1.85:1"; js "2.39:1"; js "2.40:1"] ≠ []
  ∧ ∃ r, choosePrimaryRatio (Some [js "1.85:1"; js "2.39:1"; js "2.40:1"]) = Some r
         ∧ r ∈ [js "1.85:1"; js "2.39:1"; js "2.40:1"].
Proof.
  split; [discriminate|].
  destruct (choosePrimaryRatio_element [js "1.85:1"; js "2.39:1"; js "2.40:1"])
    as [(r & Hr & Hin & _) _]; [discriminate|].
  exists r. split; assumption.
Defined.

(** ** De-duplication *)

Lemma uniqueStep_fold (l : list RatioEntry) (seen : gset (list N))
    (uniq : list RatioEntry) (earlier : list (list N)) :
  (∀ r, r ≠ [] → r ∈ seen ↔ r ∈ earlier) →
  snd (fold_left uniqueStep l (seen, uniq)) = uniq ++ firstOccurrences earlier l.
Proof.
  revert seen uniq earlier.
  induction l as [|e l IH]; intros seen uniq earlier Hseen.
  - cbn. now rewrite app_nil_r.
  - cbn [fold_left firstOccurrences]. unfold uniqueStep at 2.
    destruct (ratio e) as [|c t] eqn:He.
    + rewrite bool_decide_eq_false_2 by (intros H; now apply H).
      cbn [andb]. apply IH. intros r Hr. rewrite Hseen by exact Hr.
      rewrite elem_of_cons. split; [tauto|]. intros [Heq|?]; [congruence|assumption].
    + rewrite bool_decide_eq_true_2 by discriminate. cbn [andb].
      destruct (decide (c :: t ∈ seen)) as [Hin|Hnin].
      * rewrite bool_decide_eq_false_2
          by (intros H; apply H; now apply Hseen).
        apply IH. intros r Hr. rewrite elem_of_cons, <- Hseen by exact Hr.
        split; [tauto|]. intros [Heq|?]; [now subst r|assumption].
      * rewrite bool_decide_eq_true_2
          by (intros H; apply Hnin; now apply Hseen).
        rewrite (IH _ _ ((c :: t) :: earlier)).
        -- now rewrite <- app_assoc.
        -- intros r Hr. rewrite elem_of_union, elem_of_singleton, elem_of_cons.
           now rewrite Hseen by exact Hr.
Qed.

Lemma uniqueRatios_firstOccurrences (l : list RatioEntry) :
  uniqueRatios l = firstOccurrences [] l.
Proof.
  unfold uniqueRatios. rewrite (uniqueStep_fold l ∅ [] []); [reflexivity|].
  intros r _. now rewrite elem_of_empty, elem_of_nil.
Qed.

Lemma firstOccurrences_elem (l : list RatioEntry) (earlier : list (list N))
    (e : RatioEntry) :
  e ∈ firstOccurrences earlier l → e ∈ l ∧ ratio e ≠ [] ∧ ratio e ∉ earlier.
Proof.
  revert earlier. induction l as [|a l IH]; intros earlier; cbn [firstOccurrences].
  - intros H. now apply elem_of_nil in H.
  - destruct (bool_decide (ratio a ≠ [])) eqn:Hne;
      destruct (bool_decide (ratio a ∉ earlier)) eqn:Hnew; cbn [andb];
      rewrite ?elem_of_cons; intros H;
      try (destruct H as [->|H];
           [apply bool_decide_eq_true_1 in Hne, Hnew; tauto|]);
      apply IH in H as (? & ? & Hn); rewrite elem_of_cons in Hn; tauto.
Qed.

Lemma firstOccurrences_NoDup (l : list RatioEntry) (earlier : list (list N)) :
  NoDup (ratio <$> firstOccurrences earlier l).
Proof.
  revert earlier. induction l as [|a l IH]; intros earlier; cbn [firstOccurrences].
  - constructor.
  - destruct (bool_decide (ratio a ≠ []) && bool_decide (ratio a ∉ earlier));
      [|apply IH].
    rewrite fmap_cons. constructor; [|apply IH].
    intros Hin. apply list_elem_of_fmap in Hin as (e & He & Hin).
    apply firstOccurrences_elem in Hin as (_ & _ & Hn).
    apply Hn. rewrite He. apply list_elem_of_here.
Qed.

Lemma firstOccurrences_sublist (l : list RatioEntry) (earlier : list (list N)) :
  sublist (firstOccurrences earlier l) l.
Proof.
  revert earlier. induction l as [|a l IH]; intros earlier; cbn [firstOccurrences].
  - constructor.
  - destruct (bool_decide (ratio a ≠ []) && bool_decide (ratio a ∉ earlier)).
    + apply sublist_skip, IH.
    + apply sublist_cons, IH.
Qed.

Lemma firstOccurrences_fixed (l : list RatioEntry) (earlier : list (list N)) :
  Forall (fun e => ratio e ≠ [] ∧ ratio e ∉ earlier) l →
  NoDup (ratio <$> l) →
  firstOccurrences earlier l = l.
Proof.
  revert earlier. induction l as [|a l IH]; intros earlier Hall Hnd; [reflexivity|].
  cbn [firstOccurrences].
  apply Forall_cons in Hall as [[Hne Hnew] Hall].
  rewrite fmap_cons in Hnd. apply NoDup_cons in Hnd as [Hna Hnd].
  rewrite !bool_decide_eq_true_2 by assumption. cbn [andb]. f_equal.
  apply IH; [|exact Hnd].
  rewrite Forall_forall in Hall |- *. intros e He.
  destruct (Hall e He) as [? ?]. split; [assumption|].
  rewrite elem_of_cons. intros [Heq|?]; [|tauto].
  apply Hna. rewrite <- Heq. now apply list_elem_of_fmap_2.
Qed.

Lemma firstOccurrences_keeps (pre post : list RatioEntry) (e : RatioEntry)
    (earlier : list (list N)) :
  ratio e ≠ [] → ratio e ∉ earlier → ratio e ∉ ratio <$> pre →
  e ∈ firstOccurrences earlier (pre ++ e :: post).
Proof.
  revert earlier. induction pre as [|a pre IH]; intros earlier Hne Hnew Hpre.
  - cbn [app firstOccurrences]. rewrite !bool_decide_eq_true_2 by assumption.
    apply list_elem_of_here.
  - cbn [app firstOccurrences]. rewrite fmap_cons, not_elem_of_cons in Hpre.
    destruct Hpre as [Ha Hpre].
    assert (e ∈ firstOccurrences (ratio a :: earlier) (pre ++ e :: post)) as H.
    { apply IH; try assumption. rewrite not_elem_of_cons. tauto. }
    destruct (bool_decide (ratio a ≠ []) && bool_decide (ratio a ∉ earlier));
      [now apply list_elem_of_further | exact H].
Qed.

(** C5. De-duplication is idempotent and stable: the result is the input
    restricted to the entries that have a ratio (the loop skips an entry with
    a missing or empty one) and whose ratio no earlier entry has, in the
    order of the input and with their own raw text and note; no two entries
    of the result have the same ratio, whatever their raw text or note. *)
Theorem uniqueRatios_idempotent_stable (x : list RatioEntry) :
  uniqueRatios (uniqueRatios x) = uniqueRatios x
  ∧ uniqueRatios x = firstOccurrences [] x
  ∧ sublist (uniqueRatios x) x
  ∧ NoDup (ratio <$> uniqueRatios x)
  ∧ (∀ (i : nat) e, x !! i = Some e → ratio e ≠ [] →
       (∀ (j : nat) e', (j < i)%nat → x !! j = Some e' → ratio e' ≠ ratio e) →
       e ∈ uniqueRatios x)
  ∧ (∀ e e', e ∈ uniqueRatios x → e' ∈ uniqueRatios x →
       ratio e' = ratio e → e' = e).
Proof.
  rewrite !uniqueRatios_firstOccurrences.
  split; [|split; [reflexivity|split; [|split; [|split]]]].
  - apply firstOccurrences_fixed; [|apply firstOccurrences_NoDup].
    rewrite Forall_forall. intros e He.
    apply firstOccurrences_elem in He as (_ & ? & _).
    split; [assumption|apply not_elem_of_nil].
  - apply firstOccurrences_sublist.
  - apply firstOccurrences_NoDup.
  - intros i e Hi Hne Hfirst.
    rewrite <- (take_drop_middle x i e Hi).
    apply firstOccurrences_keeps; [assumption|apply not_elem_of_nil|].
    intros Hin. apply list_elem_of_fmap in Hin as (e' & He' & Hin).
    apply list_elem_of_lookup in Hin as (j & Hj).
    pose proof (lookup_lt_Some _ _ _ Hj) as Hlt.
    rewrite length_take in Hlt.
    rewrite lookup_take_lt in Hj by lia.
    exact (Hfirst j e' ltac:(lia) Hj (eq_sym He')).
  - intros e e' He He' Heq.
    pose proof (firstOccurrences_NoDup x []) as Hnd.
    apply list_elem_of_lookup in He as (i & Hi), He' as (j & Hj).
    assert (i = j) as ->.
    { apply (NoDup_lookup _ i j (ratio e) Hnd);
        rewrite list_lookup_fmap; [rewrite Hi|rewrite Hj]; cbn; congruence. }
    congruence.
Qed.

(** ** The block extractor *)





(** ** The record builder on an empty list *)

Lemma parseAll_no_entries (html : list N) :
  flat_map parseRatiosFromBlock (findAspectRatioBlocks html) = [] →
  parseAllAspectRatiosFromImdb html = [].
Proof. unfold parseAllAspectRatiosFromImdb. now intros ->. Qed.

(** C6 as the code has it.  When the document was fetched and the list of
    de-duplicated ratios is empty (in particular when no block yields an
    entry), the builder fails with the message [Aspect ratio not found on
    IMDb]; a record that is built never has an empty list of ratios. *)
Theorem fetchImdbAspectRatio_not_found (imdbId : list N) (res : Response) :
  ok res = true →
  (parseAllAspectRatiosFromImdb (text res) = [] →
   fetchImdbAspectRatio imdbId res
   = inl (Error (js "Aspect ratio not found on IMDb")))
  ∧ (flat_map parseRatiosFromBlock (findAspectRatioBlocks (text res)) = [] →
     fetchImdbAspectRatio imdbId res
     = inl (Error (js "Aspect ratio not found on IMDb")))
  ∧ (∀ r, fetchImdbAspectRatio imdbId res = inr r → allAspectRatios r ≠ []).
Proof.
  intros Hok.
  assert (parseAllAspectRatiosFromImdb (text res) = [] →
          fetchImdbAspectRatio imdbId res
          = inl (Error (js "Aspect ratio not found on IMDb"))) as Hempty.
  { intros Hl. unfold fetchImdbAspectRatio. now rewrite Hok, Hl. }
  split; [exact Hempty|]. split.
  - intros Hnone. now apply Hempty, parseAll_no_entries.
  - intros r. unfold fetchImdbAspectRatio. rewrite Hok. cbn [negb].
    destruct (parseAllAspectRatiosFromImdb (text res)) as [|r0 l];
      [discriminate|].
    intros [= <-]. discriminate.
Qed.

Lemma fetchImdbAspectRatio_not_found_witness :
  let res := mkResponse true 200 (js "<html><body>Runtime 2h 32m</body></html>") in
  ok res = true
  ∧ parseAllAspectRatiosFromImdb (text res) = []
  ∧ fetchImdbAspectRatio (js "tt0468569") res
    = inl (Error (js "Aspect ratio not found on IMDb")).
Proof.
  intros res.
  assert (parseAllAspectRatiosFromImdb (text res) = []) as Hl
    by (vm_compute; reflexivity).
  split; [reflexivity|]. split; [exact Hl|].
  exact (proj1 (fetchImdbAspectRatio_not_found (js "tt0468569") res eq_refl) Hl).
Defined.

(** C6 as stated fails: the message of the failure is not [Aspect ratio not
    found]. *)
Lemma fetchImdbAspectRatio_message_differs :
  let res := mkResponse true 200 (js "<html><body>Runtime 2h 32m</body></html>") in
  parseAllAspectRatiosFromImdb (text res) = []
  ∧ fetchImdbAspectRatio (js "tt0468569") res
    = inl (Error (js "Aspect ratio not found on IMDb"))
  ∧ fetchImdbAspectRatio (js "tt0468569") res
    ≠ inl (Error (js "Aspect ratio not found")).
Proof. vm_compute. repeat split; discriminate. Qed.

(** ** The matcher on structured input *)

Lemma orElseTry_None_r (a : outcome) : orElseTry a None = a.
Proof. now destruct a. Qed.

Lemma run_chr_cons (q : N → bool) (p : nat) (pv : option N) (x : N)
    (xs : list N) (c : caps) (k : cont) :
  run (Chr q) (Cursor p pv (x :: xs)) c k
  = if q x then k (Cursor (S p) (Some x) xs) c else None.
Proof. reflexivity. Qed.

Lemma run_seq (r1 r2 : regex) (s : cursor) (c : caps) (k : cont) :
  run (Seq r1 r2) s c k = run r1 s c (fun s' c' => run r2 s' c' k).
Proof. reflexivity. Qed.

Lemma run_alt (r1 r2 : regex) (s : cursor) (c : caps) (k : cont) :
  run (Alt r1 r2) s c k = orElseTry (run r1 s c k) (run r2 s c k).
Proof. reflexivity. Qed.

Lemma run_star (g : bool) (r : regex) (s : cursor) (c : caps) (k : cont) :
  run (Star g r) s c k = starLoop (run r) g k (S (length (rest s))) s c.
Proof. reflexivity. Qed.

Lemma run_group (i : nat) (r : regex) (s : cursor) (c : caps) (k : cont) :
  run (Group i r) s c k
  = run r s c (fun s' c' => k s' ((i, take (pos s' - pos s) (rest s)) :: c')).
Proof. reflexivity. Qed.

Lemma run_eps (s : cursor) (c : caps) (k : cont) : run Eps s c k = k s c.
Proof. reflexivity. Qed.

Lemma starLoop_S (step : cursor → caps → cont → outcome) (g : bool) (k : cont)
    (f : nat) (s : cursor) (c : caps) :
  starLoop step g k (S f) s c
  = let again := step s c (fun s' c' =>
                   if (pos s <? pos s')%nat then starLoop step g k f s' c'
                   else None) in
    if g then orElseTry again (k s c) else orElseTry (k s c) again.
Proof. reflexivity. Qed.

Lemma run_chr_stop (q : N → bool) (p : nat) (pv : option N) (l : list N)
    (c : caps) (k : cont) :
  headNot q l → run (Chr q) (Cursor p pv l) c k = None.
Proof. destruct l as [|x l]; cbn; [reflexivity|]. now intros ->. Qed.

(** A loop over a class stops where the class stops. *)
Lemma starLoop_chr_stop (q : N → bool) (g : bool) (fuel : nat) (p : nat)
    (pv : option N) (l : list N) (c : caps) (k : cont) :
  headNot q l →
  starLoop (run (Chr q)) g k fuel (Cursor p pv l) c = k (Cursor p pv l) c.
Proof.
  intros Hstop. destruct fuel as [|f]; [reflexivity|].
  rewrite starLoop_S. cbv zeta. rewrite run_chr_stop by exact Hstop.
  destruct g; [reflexivity|apply orElseTry_None_r].
Qed.

(** A greedy loop over a class takes the whole run of the class when the
    continuation succeeds after it. *)
Lemma starLoop_chr_greedy (q : N → bool) (pre post : list N) (fuel p : nat)
    (pv : option N) (c : caps) (k : cont) (r : cursor * caps) :
  Forall (fun x => q x = true) pre → headNot q post →
  (length (pre ++ post) < fuel)%nat →
  k (Cursor (p + length pre) (lastOpt pv pre) post) c = Some r →
  starLoop (run (Chr q)) true k fuel (Cursor p pv (pre ++ post)) c = Some r.
Proof.
  revert fuel p pv. induction pre as [|x pre IH]; intros fuel p pv Hall Hstop Hfuel Hk.
  - cbn [app length lastOpt fold_left] in *. rewrite Nat.add_0_r in Hk.
    now rewrite starLoop_chr_stop.
  - destruct fuel as [|f]; [cbn in Hfuel; lia|].
    apply Forall_cons in Hall as [Hx Hall].
    rewrite starLoop_S. cbv zeta. cbn [app]. rewrite run_chr_cons, Hx.
    cbn [pos].
    replace (p <? S p)%nat with true by (symmetry; apply Nat.ltb_lt; lia).
    rewrite (IH f (S p) (Some x)); [reflexivity|assumption..| |].
    + cbn [length app] in Hfuel. lia.
    + cbn [length lastOpt fold_left] in Hk.
      now replace (S p + length pre)%nat with (p + S (length pre))%nat by lia.
Qed.

Lemma run_star_chr_greedy (q : N → bool) (pre post : list N) (p : nat)
    (pv : option N) (c : caps) (k : cont) (r : cursor * caps) :
  Forall (fun x => q x = true) pre → headNot q post →
  k (Cursor (p + length pre) (lastOpt pv pre) post) c = Some r →
  run (Star true (Chr q)) (Cursor p pv (pre ++ post)) c k = Some r.
Proof.
  intros Hall Hstop Hk. rewrite run_star. cbn [rest].
  apply starLoop_chr_greedy; [assumption..|lia|assumption].
Qed.

Lemma run_plus_chr_greedy (q : N → bool) (pre post : list N) (p : nat)
    (pv : option N) (c : caps) (k : cont) (r : cursor * caps) :
  pre ≠ [] → Forall (fun x => q x = true) pre → headNot q post →
  k (Cursor (p + length pre) (lastOpt pv pre) post) c = Some r →
  run (plus (Chr q)) (Cursor p pv (pre ++ post)) c k = Some r.
Proof.
  destruct pre as [|x pre]; [congruence|]. intros _ Hall Hstop Hk.
  apply Forall_cons in Hall as [Hx Hall].
  unfold plus. cbn [app]. rewrite run_seq, run_chr_cons, Hx, run_star.
  cbn [rest].
  apply starLoop_chr_greedy; [assumption..|lia|].
  cbn [length lastOpt fold_left] in Hk.
  now replace (S p + length pre)%nat with (p + S (length pre))%nat by lia.
Qed.

Lemma lastOpt_app (pv : option N) (a b : list N) :
  lastOpt pv (a ++ b) = lastOpt (lastOpt pv a) b.
Proof. apply fold_left_app. Qed.

Lemma take_add_app (p : nat) (t post : list N) :
  take (p + length t - p) (t ++ post) = t.
Proof.
  replace (p + length t - p)%nat with (length t) by lia.
  now rewrite take_app_length.
Qed.

(** The pattern of a number reads a numeric token to its end when the text
    does not go on with a digit or a point. *)
Lemma run_numberRe (t post : list N) (p : nat) (pv : option N) (c : caps)
    (k : cont) (r : cursor * caps) :
  numberToken t →
  headNot (fun x => isDigit x || (x =? 46)) post →
  k (Cursor (p + length t) (lastOpt pv t) post) c = Some r →
  run numberRe (Cursor p pv (t ++ post)) c k = Some r.
Proof.
  intros (ip & fp & Hip & Hdi & Hdf & Ht) Hpost Hk.
  assert (headNot isDigit post ∧ headNot (N.eqb 46) post) as [Hpd Hpp].
  { destruct post as [|x post]; [now split|]. unfold headNot in *.
    apply orb_false_iff in Hpost as [? H46]. split; [assumption|].
    rewrite N.eqb_sym. exact H46. }
  unfold numberRe, cat, digit, opt, chr. cbn [foldr]. rewrite run_seq.
  destruct Ht as [-> | [Hfp ->]].
  - apply run_plus_chr_greedy; [assumption..|].
    rewrite run_seq, run_alt, run_seq.
    rewrite run_chr_stop by exact Hpp. cbn [orElseTry].
    rewrite !run_eps. exact Hk.
  - rewrite <- app_assoc.
    apply run_plus_chr_greedy; [assumption.. | now cbn |].
    rewrite run_seq, run_alt, run_seq. cbn [app].
    rewrite run_chr_cons, N.eqb_refl, run_seq.
    rewrite (run_plus_chr_greedy isDigit fp post _ _ _ _ r);
      [reflexivity|assumption..|].
    rewrite !run_eps.
    rewrite length_app, lastOpt_app in Hk. cbn [length lastOpt fold_left] in Hk.
    fold (lastOpt (Some 46) fp) in Hk.
    now replace (S (p + length ip) + length fp)%nat
      with (p + (length ip + S (length fp)))%nat by lia.
Qed.

Lemma isSpace_spec (x : N) :
  isSpace x = true ↔
  (9 ≤ x ≤ 13 ∨ x = 32 ∨ x = 160 ∨ x = 5760 ∨ 8192 ≤ x ≤ 8202 ∨ x = 8232
   ∨ x = 8233 ∨ x = 8239 ∨ x = 8287 ∨ x = 12288 ∨ x = 65279)%N.
Proof.
  unfold isSpace.
  rewrite !orb_true_iff, !andb_true_iff, !N.leb_le, !N.eqb_eq. tauto.
Qed.

Lemma isDigit_spec (x : N) : isDigit x = true ↔ (48 ≤ x ≤ 57)%N.
Proof. unfold isDigit. now rewrite andb_true_iff, !N.leb_le. Qed.

Lemma isDigit_false (x : N) : isDigit x = false ↔ (x < 48 ∨ 57 < x)%N.
Proof. unfold isDigit. now rewrite andb_false_iff, !N.leb_gt. Qed.

Lemma isSpace_false (x : N) :
  isSpace x = false ↔ ¬ (9 ≤ x ≤ 13 ∨ x = 32 ∨ x = 160 ∨ x = 5760
                         ∨ 8192 ≤ x ≤ 8202 ∨ x = 8232 ∨ x = 8233 ∨ x = 8239
                         ∨ x = 8287 ∨ x = 12288 ∨ x = 65279)%N.
Proof. rewrite <- isSpace_spec. now destruct (isSpace x). Qed.

Lemma space_not_number (x : N) :
  isSpace x = true → isDigit x || (x =? 46) = false.
Proof.
  rewrite isSpace_spec, orb_false_iff, isDigit_false, N.eqb_neq. lia.
Qed.

Lemma digit_not_space (x : N) : isDigit x = true → isSpace x = false.
Proof. rewrite isDigit_spec, isSpace_false. lia. Qed.

Lemma headNot_app (q : N → bool) (a b : list N) :
  a ≠ [] → Forall (fun x => q x = false) a → headNot q (a ++ b).
Proof.
  destruct a as [|x a]; [congruence|]. intros _ Ha.
  now apply Forall_cons in Ha as [Hx _].
Qed.

Lemma numberToken_head (t : list N) :
  numberToken t → ∃ x t', t = x :: t' ∧ isDigit x = true.
Proof.
  intros (ip & fp & Hip & Hdi & _ & Ht).
  destruct ip as [|x ip]; [congruence|].
  apply Forall_cons in Hdi as [Hx _].
  destruct Ht as [-> | [_ ->]]; eauto.
Qed.

(** The pattern of a ratio on a ratio token: whatever the white space around
    the colon, the two groups are the two numbers. *)
Lemma run_ratioRe (n d ws1 ws2 tail : list N) (p : nat) (pv : option N) :
  numberToken n → numberToken d →
  Forall (fun x => isSpace x = true) ws1 →
  Forall (fun x => isSpace x = true) ws2 →
  headNot (fun x => isDigit x || (x =? 46)) tail →
  ∃ e, run ratioRe (Cursor p pv (n ++ ws1 ++ 58 :: ws2 ++ d ++ tail)) [] accept
       = Some (e, [(2%nat, d); (1%nat, n)])
       ∧ rest e = tail
       ∧ pos e = (p + length (n ++ ws1 ++ 58%N :: ws2 ++ d))%nat.
Proof.
  intros Hn Hd Hws1 Hws2 Htail.
  destruct (numberToken_head d Hd) as (x & d' & Hdx & Hx).
  eexists. split.
  - unfold ratioRe, cat, star, space, chr. cbn [foldr].
    rewrite run_seq, run_group.
    apply run_numberRe; [exact Hn| |].
    { destruct ws1 as [|w ws1]; [cbn; reflexivity|].
      apply Forall_cons in Hws1 as [Hw _]. now apply space_not_number. }
    cbv beta. cbn [pos rest]. rewrite take_add_app, run_seq.
    apply run_star_chr_greedy; [exact Hws1|reflexivity|].
    cbv beta. rewrite run_seq, run_chr_cons. cbn [N.eqb Pos.eqb].
    rewrite run_seq.
    apply run_star_chr_greedy; [exact Hws2| |].
    { subst d. cbn. now apply digit_not_space. }
    cbv beta. rewrite run_seq, run_group.
    apply run_numberRe; [exact Hd|exact Htail|].
    cbv beta. cbn [pos rest]. rewrite take_add_app, run_eps.
    unfold accept. reflexivity.
  - cbn [rest pos]. split; [reflexivity|].
    rewrite !length_app. cbn [length]. rewrite length_app. lia.
Qed.

Lemma search_eq (r : regex) (p : nat) (pv : option N) (l : list N) :
  search r p pv l
  = match run r (Cursor p pv l) [] accept with
    | Some (e, c) => Some (Found (Cursor p pv l) e c)
    | None => match l with
              | [] => None
              | x :: l' => search r (S p) (Some x) l'
              end
    end.
Proof. destruct l; reflexivity. Qed.

(** The search passes over code units at which the pattern cannot start. *)
Lemma search_skip (r : regex) (q : N → Prop) (pre l : list N) (p : nat)
    (pv : option N) :
  (∀ p pv x xs, q x → run r (Cursor p pv (x :: xs)) [] accept = None) →
  Forall q pre →
  search r p pv (pre ++ l) = search r (p + length pre) (lastOpt pv pre) l.
Proof.
  intros Hfail. revert p pv.
  induction pre as [|x pre IH]; intros p pv Hpre.
  - cbn. now rewrite Nat.add_0_r.
  - apply Forall_cons in Hpre as [Hx Hpre].
    cbn [app]. rewrite search_eq, (Hfail _ _ _ _ Hx), (IH _ _ Hpre).
    cbn [length lastOpt fold_left]. f_equal. lia.
Qed.

Lemma run_ratioRe_not_digit (p : nat) (pv : option N) (x : N) (xs : list N) :
  isDigit x = false → run ratioRe (Cursor p pv (x :: xs)) [] accept = None.
Proof.
  intros Hx. unfold ratioRe, numberRe, cat, plus, digit. cbn [foldr].
  now rewrite run_seq, run_group, !run_seq, run_chr_cons, Hx.
Qed.

(** The first ratio token of a segment: no digit before it, and neither a
    digit nor a point right after it. *)
Lemma exec_ratioRe_token (pre n d ws1 ws2 tail : list N) :
  Forall (fun x => isDigit x = false) pre →
  numberToken n → numberToken d →
  Forall (fun x => isSpace x = true) ws1 →
  Forall (fun x => isSpace x = true) ws2 →
  headNot (fun x => isDigit x || (x =? 46)) tail →
  ∃ m, exec ratioRe (pre ++ n ++ ws1 ++ 58 :: ws2 ++ d ++ tail) = Some m
       ∧ groupText 1 m = n ∧ groupText 2 m = d
       ∧ matched m = n ++ ws1 ++ 58 :: ws2 ++ d
       ∧ pos (start m) = length pre
       ∧ rest (stop m) = tail.
Proof.
  intros Hpre Hn Hd Hws1 Hws2 Htail. unfold exec.
  rewrite (search_skip ratioRe _ pre _ 0 None run_ratioRe_not_digit Hpre).
  destruct (run_ratioRe n d ws1 ws2 tail (0 + length pre) (lastOpt None pre)
              Hn Hd Hws1 Hws2 Htail) as (e & He & Hrest & Hpos).
  rewrite search_eq, He. eexists. split; [reflexivity|].
  unfold groupText, matched. cbn [groups group start stop pos rest Nat.eqb default].
  repeat split; try assumption.
  rewrite Hpos.
  replace (0 + length pre + length (n ++ ws1 ++ 58%N :: ws2 ++ d)
           - (0 + length pre))%nat
    with (length (n ++ ws1 ++ 58 :: ws2 ++ d)) by lia.
  replace (n ++ ws1 ++ 58 :: ws2 ++ d ++ tail)
    with ((n ++ ws1 ++ 58 :: ws2 ++ d) ++ tail)
    by (now rewrite <- !app_assoc, <- app_comm_cons, <- app_assoc).
  apply take_app_length.
Qed.

(** ** The fuel of the loops is never used up *)

Lemma run_ext (r : regex) (s : cursor) (c : caps) (k k' : cont) :
  (∀ s' c', reach s s' → k s' c' = k' s' c') →
  run r s c k = run r s c k'.
Proof.
  revert s c k k'.
  induction r as [|q|r1 IH1 r2 IH2|r1 IH1 r2 IH2|g r IH|i r IH| | |];
    intros s c k k' Hk.
  - apply Hk. split; lia.
  - cbn [run]. destruct (rest s) as [|x xs] eqn:Hs; [reflexivity|].
    destruct (q x); [|reflexivity]. apply Hk.
    unfold reach. cbn [pos rest]. rewrite Hs. cbn [length]. lia.
  - rewrite !run_seq. apply IH1. intros s1 c1 H1. apply IH2.
    intros s2 c2 H2. apply Hk. unfold reach in *. lia.
  - rewrite !run_alt. now rewrite (IH1 s c k k'), (IH2 s c k k').
  - rewrite !run_star. generalize (S (length (rest s))). intros fuel.
    revert s c Hk. induction fuel as [|f IHf]; intros s c Hk.
    + cbn [starLoop]. apply Hk. split; lia.
    + rewrite !starLoop_S. cbv zeta.
      rewrite (Hk s c) by (split; lia).
      rewrite (IH s c _ (fun s' c' =>
                 if (pos s <? pos s')%nat then starLoop (run r) g k' f s' c'
                 else None)); [reflexivity|].
      intros s1 c1 H1. destruct (pos s <? pos s1)%nat; [|reflexivity].
      apply IHf. intros s2 c2 H2. apply Hk. unfold reach in *. lia.
  - rewrite !run_group. apply IH. intros s1 c1 H1. now apply Hk.
  - cbn [run]. destruct (pos s =? 0)%nat; [|reflexivity]. apply Hk. split; lia.
  - cbn [run]. destruct (rest s); [|reflexivity]. apply Hk. split; lia.
  - cbn [run]. destruct (xorb _ _); [|reflexivity]. apply Hk. split; lia.
Qed.

(** Every amount of fuel above the length of the rest gives the same
    result. *)
Lemma starLoop_fuel (r : regex) (g : bool) (k : cont) (f1 f2 : nat)
    (s : cursor) (c : caps) :
  (length (rest s) < f1)%nat → (length (rest s) < f2)%nat →
  starLoop (run r) g k f1 s c = starLoop (run r) g k f2 s c.
Proof.
  revert f2 s c. induction f1 as [|f1 IH]; intros f2 s c H1 H2; [lia|].
  destruct f2 as [|f2]; [lia|].
  rewrite !starLoop_S. cbv zeta.
  rewrite (run_ext r s c _ (fun s' c' =>
             if (pos s <? pos s')%nat then starLoop (run r) g k f2 s' c'
             else None)); [reflexivity|].
  intros s' c' Hs'. destruct (pos s <? pos s')%nat eqn:Hlt; [|reflexivity].
  apply Nat.ltb_lt in Hlt. unfold reach in Hs'. apply IH; lia.
Qed.

(** A match ends at a position the matcher can reach from its start. *)
Lemma run_reach (r : regex) (s : cursor) (c : caps) (k : cont) (res : cursor * caps) :
  run r s c k = Some res → ∃ s' c', reach s s' ∧ k s' c' = Some res.
Proof.
  revert s c k.
  induction r as [|q|r1 IH1 r2 IH2|r1 IH1 r2 IH2|g r IH|i r IH| | |];
    intros s c k Hrun.
  - exists s, c. split; [split; lia|exact Hrun].
  - cbn [run] in Hrun. destruct (rest s) as [|x xs] eqn:Hs; [discriminate|].
    destruct (q x); [|discriminate]. eexists _, _. split; [|exact Hrun].
    unfold reach. cbn [pos rest]. rewrite Hs. cbn [length]. lia.
  - rewrite run_seq in Hrun. apply IH1 in Hrun as (s1 & c1 & H1 & Hrun).
    apply IH2 in Hrun as (s2 & c2 & H2 & Hrun).
    exists s2, c2. split; [unfold reach in *; lia|exact Hrun].
  - rewrite run_alt in Hrun. destruct (run r1 s c k) eqn:H1.
    + cbn in Hrun. rewrite <- Hrun in *. now apply IH1 in H1.
    + cbn in Hrun. now apply IH2 in Hrun.
  - rewrite run_star in Hrun. revert Hrun.
    generalize (S (length (rest s))). intros fuel. revert s c.
    induction fuel as [|f IHf]; intros s c Hrun.
    + exists s, c. split; [split; lia|exact Hrun].
    + rewrite starLoop_S in Hrun. cbv zeta in Hrun.
      assert (∀ o, o = Some res →
                o = run r s c (fun s' c' =>
                      if (pos s <? pos s')%nat then starLoop (run r) g k f s' c'
                      else None) →
                ∃ s' c', reach s s' ∧ k s' c' = Some res) as Hagain.
      { intros o Ho ->. apply IH in Ho as (s1 & c1 & H1 & Ho).
        destruct (pos s <? pos s1)%nat; [|discriminate].
        apply IHf in Ho as (s2 & c2 & H2 & Ho).
        exists s2, c2. split; [unfold reach in *; lia|exact Ho]. }
      match type of Hrun with
      | context [run r s c ?kk] => remember (run r s c kk) as again eqn:Hag
      end.
      destruct g.
      * destruct again as [x|].
        -- cbn in Hrun. eapply Hagain; [exact Hrun|reflexivity].
        -- cbn in Hrun. exists s, c. split; [split; lia|exact Hrun].
      * destruct (k s c) as [x|] eqn:Hx.
        -- cbn in Hrun. exists s, c. split; [split; lia|]. congruence.
        -- cbn in Hrun. eapply Hagain; [exact Hrun|reflexivity].
  - rewrite run_group in Hrun. apply IH in Hrun as (s1 & c1 & H1 & Hrun).
    eexists _, _. split; [exact H1|exact Hrun].
  - cbn [run] in Hrun. destruct (pos s =? 0)%nat; [|discriminate].
    exists s, c. split; [split; lia|exact Hrun].
  - cbn [run] in Hrun. destruct (rest s); [|discriminate].
    exists s, c. split; [split; lia|exact Hrun].
  - cbn [run] in Hrun. destruct (xorb _ _); [|discriminate].
    exists s, c. split; [split; lia|exact Hrun].
Qed.

Lemma search_reach (r : regex) (l : list N) (p : nat) (pv : option N) (m : found) :
  search r p pv l = Some m →
  reach (Cursor p pv l) (start m) ∧ reach (start m) (stop m).
Proof.
  revert p pv. induction l as [|x l IH]; intros p pv; rewrite search_eq;
    destruct (run r _ [] accept) as [[e c]|] eqn:Hrun;
    try discriminate.
  1,2: intros [= <-]; cbn [start stop]; split; [split; lia|];
       apply run_reach in Hrun as (s' & c' & Hs' & [= -> _]); exact Hs'.
  intros Hm. apply IH in Hm as [H1 H2]. split; [|exact H2].
  unfold reach in *. cbn [pos rest length] in *. lia.
Qed.

(** The scans of the global replacement and of the global match do not
    depend on the fuel either. *)
Lemma stepOver_fuel {A} (k1 k2 : cursor → list A) (copy : N → list A)
    (s : cursor) (m : found) :
  reach s (start m) → reach (start m) (stop m) →
  (∀ s', (length (rest s') < length (rest s))%nat → k1 s' = k2 s') →
  stepOver m k1 copy = stepOver m k2 copy.
Proof.
  intros H1 H2 Hk. unfold stepOver.
  destruct (pos (start m) <? pos (stop m))%nat eqn:Hlt.
  - apply Nat.ltb_lt in Hlt. apply Hk. unfold reach in *. lia.
  - destruct (rest (stop m)) as [|x xs] eqn:Hrest; [reflexivity|].
    f_equal. apply Hk. unfold reach in *. cbn [rest].
    rewrite Hrest in H2. cbn [length] in H2. lia.
Qed.

Lemma replaceAllFrom_fuel (r : regex) (by_ : list N) (f1 f2 : nat) (s : cursor) :
  (length (rest s) < f1)%nat → (length (rest s) < f2)%nat →
  replaceAllFrom r by_ f1 s = replaceAllFrom r by_ f2 s.
Proof.
  revert f2 s. induction f1 as [|f1 IH]; intros f2 s H1 H2; [lia|].
  destruct f2 as [|f2]; [lia|]. cbn [replaceAllFrom].
  destruct (search r (pos s) (prev s) (rest s)) as [m|] eqn:Hm; [|reflexivity].
  destruct s as [p pv l]. cbn [pos prev rest] in *.
  apply search_reach in Hm as [Hs Hm].
  do 2 f_equal. apply (stepOver_fuel _ _ _ (Cursor p pv l)); [assumption..|].
  intros s' Hs'. cbn [rest] in Hs'. apply IH; lia.
Qed.

Lemma matchAllFrom_fuel (r : regex) (f1 f2 : nat) (s : cursor) :
  (length (rest s) < f1)%nat → (length (rest s) < f2)%nat →
  matchAllFrom r f1 s = matchAllFrom r f2 s.
Proof.
  revert f2 s. induction f1 as [|f1 IH]; intros f2 s H1 H2; [lia|].
  destruct f2 as [|f2]; [lia|]. cbn [matchAllFrom].
  destruct (search r (pos s) (prev s) (rest s)) as [m|] eqn:Hm; [|reflexivity].
  destruct s as [p pv l]. cbn [pos prev rest] in *.
  apply search_reach in Hm as [Hs Hm].
  f_equal. apply (stepOver_fuel _ _ _ (Cursor p pv l)); [assumption..|].
  intros s' Hs'. cbn [rest] in Hs'. apply IH; lia.
Qed.

(** ** Printing and reading decimal digits *)

Lemma digitsValue_acc (ds : list N) (a : N) :
  fold_left (fun acc c => 10 * acc + digitValue c) ds a
  = a * 10 ^ N.of_nat (length ds) + digitsValue ds.
Proof.
  unfold digitsValue. revert a. induction ds as [|d ds IH]; intros a.
  - cbn. lia.
  - cbn [fold_left length]. rewrite IH, (IH (10 * 0 + digitValue d)).
    rewrite Nat2N.inj_succ, N.pow_succ_r'. lia.
Qed.

Lemma digitsAux_value (fuel : nat) (n : N) (acc : list N) :
  n < 2 ^ N.of_nat fuel →
  digitsValue (digitsAux fuel n acc)
  = n * 10 ^ N.of_nat (length acc) + digitsValue acc.
Proof.
  revert n acc. induction fuel as [|f IH]; intros n acc Hn.
  - cbn in Hn. assert (n = 0) as -> by lia. cbn [digitsAux]. lia.
  - cbn [digitsAux].
    assert (digitsValue ((48 + n mod 10) :: acc)
            = (n mod 10) * 10 ^ N.of_nat (length acc) + digitsValue acc) as Hcons.
    { unfold digitsValue at 1. cbn [fold_left]. rewrite digitsValue_acc.
      unfold digitValue. generalize (n mod 10). intros r.
      replace (10 * 0 + (48 + r - 48)) with r by lia. reflexivity. }
    pose proof (N.div_mod' n 10) as Hdm.
    destruct (N.eqb_spec (n / 10) 0) as [Hz|Hnz].
    + rewrite Hcons. rewrite Hz in Hdm. lia.
    + rewrite IH.
      * rewrite Hcons. cbn [length]. rewrite Nat2N.inj_succ, N.pow_succ_r'.
        set (q := n / 10) in *. set (r := n mod 10) in *.
        set (t := 10 ^ N.of_nat (length acc)). nia.
      * rewrite Nat2N.inj_succ, N.pow_succ_r' in Hn.
        set (q := n / 10) in *. set (r := n mod 10) in *. lia.
Qed.

Lemma size_nat_gt (p : positive) : N.pos p < 2 ^ N.of_nat (Pos.size_nat p).
Proof.
  induction p as [p IH|p IH|]; cbn [Pos.size_nat];
    rewrite Nat2N.inj_succ, N.pow_succ_r'; [lia|lia|reflexivity].
Qed.

(** The digits printed for a number read back as this number: the fuel of
    the printer suffices. *)
Lemma digitsValue_digitsOfN (n : N) : digitsValue (digitsOfN n) = n.
Proof.
  unfold digitsOfN. rewrite digitsAux_value.
  - cbn [length]. unfold digitsValue. cbn. lia.
  - rewrite Nat2N.inj_succ, N.pow_succ_r'.
    assert (n < 2 ^ N.of_nat (N.size_nat n)) as H; [|lia].
    destruct n as [|p]; [reflexivity|]. apply size_nat_gt.
Qed.

(** ** The token parser on ratio tokens *)

Lemma startsWith_app (t l : list N) : startsWith t (t ++ l) = true.
Proof.
  induction t as [|x t IH]; [now destruct l|].
  cbn. now rewrite N.eqb_refl.
Qed.

Lemma indexOfFrom_skip (x : N) (t pre l : list N) (i : nat) :
  Forall (fun y => y ≠ x) pre →
  indexOfFrom (x :: t) (pre ++ (x :: t) ++ l) i = Some (i + length pre)%nat.
Proof.
  revert i. induction pre as [|y pre IH]; intros i Hpre.
  - cbn [app length]. rewrite Nat.add_0_r.
    destruct t; cbn; rewrite N.eqb_refl; cbn; [reflexivity|].
    now rewrite N.eqb_refl, startsWith_app.
  - apply Forall_cons in Hpre as [Hy Hpre].
    rewrite <- app_comm_cons.
    change (indexOfFrom (x :: t) (y :: pre ++ (x :: t) ++ l) i)
      with (if (x =? y) && startsWith t (pre ++ (x :: t) ++ l) then Some i
            else indexOfFrom (x :: t) (pre ++ (x :: t) ++ l) (S i)).
    replace (x =? y) with false by (symmetry; apply N.eqb_neq; congruence).
    cbn [andb]. rewrite (IH (S i) Hpre). cbn [length]. f_equal. lia.
Qed.

Lemma token_assoc (n ws1 ws2 d tail : list N) :
  n ++ ws1 ++ 58 :: ws2 ++ d ++ tail = (n ++ ws1 ++ 58 :: ws2 ++ d) ++ tail.
Proof. now rewrite <- !app_assoc, <- app_comm_cons, <- app_assoc. Qed.

(** What one round of the loop does on a segment with a ratio token. *)
Lemma parsePart_token (out : list RatioEntry) (pre n ws1 ws2 d tail : list N) :
  segmentOk pre n ws1 ws2 d tail →
  parsePart out (segment pre n ws1 ws2 d tail)
  = if negb (eqb (parseFloat d) zero) && ltb zero (parseFloat n)
    then out ++ [mkEntry (normalizedRatio (parseFloat n) (parseFloat d))
                   (replaceAll (star space) [] (n ++ ws1 ++ 58 :: ws2 ++ d))
                   (match exec noteRe (trim tail) with
                    | Some nm => Some (trim (groupText 1 nm))
                    | None => None
                    end)]
    else out.
Proof.
  intros (Hpre & Hn & Hd & Hws1 & Hws2 & Htail).
  destruct (exec_ratioRe_token pre n d ws1 ws2 tail Hpre Hn Hd Hws1 Hws2 Htail)
    as (m & Hm & Hg1 & Hg2 & Hmatched & Hstart & Hstop).
  unfold parsePart, segment. rewrite Hm, Hg1, Hg2, Hmatched.
  destruct (negb (eqb (parseFloat d) zero) && ltb zero (parseFloat n));
    [|reflexivity].
  rewrite token_assoc.
  assert (indexOf (pre ++ (n ++ ws1 ++ 58 :: ws2 ++ d) ++ tail)
            (n ++ ws1 ++ 58 :: ws2 ++ d)
          = Some (length pre)) as Hidx.
  { destruct (numberToken_head n Hn) as (x & n' & -> & Hx).
    unfold indexOf. rewrite <- app_comm_cons.
    rewrite indexOfFrom_skip; [reflexivity|].
    eapply Forall_impl; [exact Hpre|]. cbn. intros y Hy ->. congruence. }
  rewrite Hidx. cbn [default]. unfold sliceFrom.
  change (id (length pre)) with (length pre).
  rewrite (app_assoc pre (n ++ ws1 ++ 58 :: ws2 ++ d) tail).
  rewrite <- length_app, drop_app_length. reflexivity.
Qed.

(** C9. A matched ratio token whose denominator is zero, or whose numerator
    is not positive, yields no entry and no error: the round of the loop
    leaves the output as it is, and the entries of the block are those of
    its other segments.  The two numbers compared are the two captures of
    the match, which on a segment with a ratio token are the numbers of the
    token.  So it is on a block with the tokens [2.39:0] and [0 : 1.33]
    among valid ones. *)
Theorem parsePart_malformed_dropped
    (parts1 parts2 : list (list N)) (p : list N) (m : found) :
  exec ratioRe p = Some m →
  eqb (parseFloat (groupText 2 m)) zero = true
  ∨ ltb zero (parseFloat (groupText 1 m)) = false →
  (∀ out, parsePart out p = out)
  ∧ fold_left parsePart (parts1 ++ p :: parts2) []
    = fold_left parsePart (parts1 ++ parts2) []
  ∧ (∀ pre n ws1 ws2 d tail,
       segmentOk pre n ws1 ws2 d tail →
       ∃ m', exec ratioRe (segment pre n ws1 ws2 d tail) = Some m'
             ∧ groupText 1 m' = n ∧ groupText 2 m' = d)
  ∧ ratio <$> parseRatiosFromBlock
                (js "Aspect ratio 2.39:0 | 1.85:1 | 0 : 1.33 | 2.20 : 1")
    = [js "1.85:1"; js "2.20:1"].
Proof.
  intros Hm Hbad.
  assert (∀ out, parsePart out p = out) as Hdrop.
  { intros out. unfold parsePart. rewrite Hm.
    destruct Hbad as [-> | ->]; [reflexivity|].
    now rewrite andb_false_r. }
  split; [exact Hdrop|]. split; [|split; [|vm_compute; reflexivity]].
  - rewrite !fold_left_app. cbn [fold_left]. now rewrite Hdrop.
  - intros pre n ws1 ws2 d tail (Hpre & Hn & Hd & Hws1 & Hws2 & Htail).
    destruct (exec_ratioRe_token pre n d ws1 ws2 tail Hpre Hn Hd Hws1 Hws2 Htail)
      as (m' & Hm' & Hg1 & Hg2 & _).
    exists m'. now repeat split.
Qed.

Lemma token_2_39 : numberToken (js "2.39").
Proof.
  exists (js "2"), (js "39"). split; [discriminate|].
  split; [repeat constructor|]. split; [repeat constructor|].
  right. split; [discriminate|reflexivity].
Qed.

Lemma token_digit (c : N) : isDigit c = true → numberToken [c].
Proof.
  intros Hc. exists [c], []. split; [discriminate|].
  split; [now repeat constructor|]. split; [constructor|now left].
Qed.

Lemma parsePart_malformed_dropped_witness :
  let m := Found (Cursor 0 None (js "2.39 : 0")) (Cursor 8 (Some 48) [])
             [(2%nat, js "0"); (1%nat, js "2.39")] in
  exec ratioRe (js "2.39 : 0") = Some m
  ∧ eqb (parseFloat (groupText 2 m)) zero = true
  ∧ fold_left parsePart [js "1.85:1"; js "2.39 : 0"; js "1.33:1"] []
    = fold_left parsePart [js "1.85:1"; js "1.33:1"] [].
Proof.
  intros m.
  assert (exec ratioRe (js "2.39 : 0") = Some m) as Hm by (vm_compute; reflexivity).
  assert (eqb (parseFloat (groupText 2 m)) zero = true) as Hz
    by (vm_compute; reflexivity).
  split; [exact Hm|]. split; [exact Hz|].
  exact (proj1 (proj2 (parsePart_malformed_dropped [js "1.85:1"] [js "1.33:1"]
                         (js "2.39 : 0") m Hm (or_introl Hz)))).
Defined.

(** ** The note of an entry *)

Lemma run_bol (p : nat) (pv : option N) (l : list N) (c : caps) (k : cont) :
  run Bol (Cursor p pv l) c k = if (p =? 0)%nat then k (Cursor p pv l) c else None.
Proof. reflexivity. Qed.

(** The pattern of the note on a text that starts with a parenthesis. *)
Lemma exec_noteRe (body more : list N) :
  body ≠ [] → Forall (fun x => x ≠ 41) body →
  ∃ m, exec noteRe (40 :: body ++ 41 :: more) = Some m ∧ groupText 1 m = body.
Proof.
  intros Hne Hbody. unfold exec. rewrite search_eq.
  assert (Forall (fun x => negb (x =? 41) = true) body) as Hclass.
  { eapply Forall_impl; [exact Hbody|]. cbn. intros x Hx.
    apply negb_true_iff, N.eqb_neq, Hx. }
  assert (∃ e, run noteRe (Cursor 0 None (40 :: body ++ 41 :: more)) [] accept
               = Some (e, [(1%nat, body)])) as (e & ->).
  { eexists. unfold noteRe, cat, star, space, chr, notChr. cbn [foldr].
    rewrite run_seq, run_bol. cbn [Nat.eqb].
    rewrite run_seq, run_star, starLoop_chr_stop by reflexivity.
    rewrite run_seq, run_chr_cons. cbn [N.eqb Pos.eqb].
    rewrite run_seq, run_group.
    apply run_plus_chr_greedy; [exact Hne|exact Hclass|reflexivity|].
    cbv beta. cbn [pos rest]. rewrite take_add_app.
    rewrite run_seq, run_chr_cons. cbn [N.eqb Pos.eqb]. rewrite run_eps.
    unfold accept. reflexivity. }
  eexists. split; reflexivity.
Qed.

(** C2. On the fragment [Aspect ratio 1.85 : 1 (Flat)] the parser returns
    exactly one entry, with ratio [1.85:1] and note [Flat].  In general, on
    a segment with a valid ratio token, the note of the entry is the trimmed
    text between the parentheses when the text after the token, trimmed,
    starts with a parenthesis that is closed. *)
Theorem parseRatiosFromBlock_flat :
  parseRatiosFromBlock (js "Aspect ratio 1.85 : 1 (Flat)")
  = [mkEntry (js "1.85:1") (js "1.85:1") (Some (js "Flat"))]
  ∧ (∀ out pre n ws1 ws2 d tail body more,
       segmentOk pre n ws1 ws2 d tail →
       eqb (parseFloat d) zero = false →
       ltb zero (parseFloat n) = true →
       trim tail = 40 :: body ++ 41 :: more →
       body ≠ [] → Forall (fun x => x ≠ 41) body →
       ∃ rw, parsePart out (segment pre n ws1 ws2 d tail)
             = out ++ [mkEntry (normalizedRatio (parseFloat n) (parseFloat d))
                         rw (Some (trim body))]).
Proof.
  split; [vm_compute; reflexivity|].
  intros out pre n ws1 ws2 d tail body more Hok Hden Hnum Htail Hne Hbody.
  rewrite parsePart_token by exact Hok.
  rewrite Hden, Hnum, Htail. cbn [negb andb].
  destruct (exec_noteRe body more Hne Hbody) as (m & -> & ->).
  eexists. reflexivity.
Qed.

Lemma segmentOk_plain (n ws1 ws2 d : list N) :
  numberToken n → numberToken d →
  Forall (fun x => isSpace x = true) ws1 →
  Forall (fun x => isSpace x = true) ws2 →
  segmentOk [] n ws1 ws2 d [].
Proof. intros. repeat split; try assumption; constructor. Qed.

(** ** Normalisation of the ratios the parser emits *)

Lemma alphabet_not_space (x : N) : x ∈ alphabet → isSpace x = false.
Proof. intros H. alphabet_cases H; reflexivity. Qed.

Lemma alphabet_colonRe (x : N) (p : nat) (pv : option N) (xs : list N) :
  x ∈ alphabet → x ≠ 58 →
  run colonRe (Cursor p pv (x :: xs)) [] accept = None.
Proof. intros H Hx. alphabet_cases H; try congruence; vm_compute; reflexivity. Qed.

Lemma alphabet_spacesRe (x : N) (p : nat) (pv : option N) (xs : list N) :
  x ∈ alphabet → run spacesRe (Cursor p pv (x :: xs)) [] accept = None.
Proof. intros H. alphabet_cases H; vm_compute; reflexivity. Qed.

Lemma alphabet_trailingLabelRe (x : N) (p : nat) (pv : option N) (xs : list N) :
  x ∈ alphabet → run trailingLabelRe (Cursor p pv (x :: xs)) [] accept = None.
Proof. intros H. alphabet_cases H; vm_compute; reflexivity. Qed.

Lemma colonRe_colon (p : nat) (pv : option N) (xs : list N) :
  headNot isSpace xs →
  run colonRe (Cursor p pv (58 :: xs)) [] accept
  = Some (Cursor (S p) (Some 58) xs, []).
Proof.
  intros Hxs. unfold colonRe, cat, star, space, chr. cbn [foldr].
  rewrite run_seq, run_star, starLoop_chr_stop by reflexivity.
  rewrite run_seq, run_chr_cons. cbn [N.eqb Pos.eqb].
  rewrite run_seq, run_star, starLoop_chr_stop by exact Hxs.
  reflexivity.
Qed.

Lemma trimStart_id (s : list N) : headNot isSpace s → trimStart s = s.
Proof. destruct s as [|x s]; [reflexivity|]. cbn. now intros ->. Qed.

Lemma trim_id (s : list N) : Forall (fun x => isSpace x = false) s → trim s = s.
Proof.
  intros Hs. unfold trim, trimEnd.
  assert (∀ l, Forall (fun x => isSpace x = false) l → headNot isSpace l) as Hhead.
  { intros [|x l] Hl; [exact I|]. now apply Forall_cons in Hl as [Hx _]. }
  rewrite (trimStart_id s) by now apply Hhead.
  rewrite trimStart_id by now apply Hhead, Forall_rev.
  apply rev_involutive.
Qed.

(** Where the pattern can start nowhere, there is no match. *)
Lemma search_none (r : regex) (q : N → Prop) (l : list N) (p : nat)
    (pv : option N) :
  (∀ p pv x xs, q x → run r (Cursor p pv (x :: xs)) [] accept = None) →
  (∀ p pv, run r (Cursor p pv []) [] accept = None) →
  Forall q l → search r p pv l = None.
Proof.
  intros Hcons Hnil. revert p pv.
  induction l as [|x l IH]; intros p pv Hl; rewrite search_eq.
  - now rewrite Hnil.
  - apply Forall_cons in Hl as [Hx Hl]. rewrite (Hcons _ _ _ _ Hx). now apply IH.
Qed.

Lemma replaceAll_none (r : regex) (by_ s : list N) :
  search r 0 None s = None → replaceAll r by_ s = s.
Proof. intros H. unfold replaceAll. cbn [replaceAllFrom pos prev rest]. now rewrite H. Qed.

Lemma replaceFirst_none (r : regex) (by_ s : list N) :
  search r 0 None s = None → replaceFirst r by_ s = s.
Proof. intros H. unfold replaceFirst, exec. now rewrite H. Qed.

(** A text is cut at its first colon. *)
Lemma split_at_colon (l : list N) :
  ∃ a b, l = a ++ b ∧ Forall (fun x => x ≠ 58) a ∧ (b = [] ∨ ∃ b', b = 58 :: b').
Proof.
  induction l as [|x l (a & b & -> & Ha & Hb)].
  - exists [], []. split; [reflexivity|]. split; [constructor|now left].
  - destruct (decide (x = 58)) as [->|Hx].
    + exists [], (58 :: a ++ b). split; [reflexivity|].
      split; [constructor|]. right. eauto.
    + exists (x :: a), b. split; [reflexivity|]. split; [|exact Hb].
      now constructor.
Qed.

(** Replacing the colons with their white space by colons changes nothing in
    a text over the alphabet. *)
Lemma replaceAllFrom_colonRe (fuel : nat) (l : list N) (p : nat) (pv : option N) :
  (length l < fuel)%nat → Forall (fun x => x ∈ alphabet) l →
  replaceAllFrom colonRe (js ":") fuel (Cursor p pv l) = l.
Proof.
  revert l p pv. induction fuel as [|f IH]; intros l p pv Hfuel Hl; [lia|].
  cbn [replaceAllFrom pos prev rest].
  destruct (split_at_colon l) as (a & b & -> & Ha & Hb).
  apply Forall_app in Hl as [Hla Hlb].
  rewrite (search_skip colonRe (fun x => x ∈ alphabet ∧ x ≠ 58)).
  - destruct Hb as [-> | (b' & ->)].
    + rewrite search_eq.
      replace (run colonRe _ [] accept) with (@None (cursor * caps))
        by (vm_compute; reflexivity).
      rewrite app_nil_r. reflexivity.
    + apply Forall_cons in Hlb as [_ Hlb].
      rewrite search_eq, colonRe_colon.
      2:{ destruct b' as [|y b']; [exact I|].
          apply Forall_cons in Hlb as [Hy _]. now apply alphabet_not_space. }
      unfold stepOver. cbn [start stop pos rest].
      replace (p + length a <? S (p + length a))%nat with true
        by (symmetry; apply Nat.ltb_lt; lia).
      rewrite IH; [|rewrite length_app in Hfuel; cbn in Hfuel; lia|exact Hlb].
      replace (p + length a - p)%nat with (length a) by lia.
      now rewrite take_app_length.
  - intros p0 pv0 x xs [Hx Hne]. now apply alphabet_colonRe.
  - rewrite Forall_forall in Hla, Ha |- *. intros x Hx. split; auto.
Qed.

Lemma alphabet_stable (s : list N) :
  s ≠ [] → Forall (fun x => x ∈ alphabet) s → stable s.
Proof.
  intros Hne Hs. unfold stable, normalizeAspectRatioText.
  destruct s as [|c t]; [congruence|].
  assert (Forall (fun x => isSpace x = false) (c :: t)) as Hsp.
  { eapply Forall_impl; [exact Hs|]. apply alphabet_not_space. }
  rewrite (trim_id (c :: t) Hsp).
  assert (replaceAll colonRe (js ":") (c :: t) = c :: t) as ->.
  { unfold replaceAll. apply replaceAllFrom_colonRe; [lia|exact Hs]. }
  rewrite (replaceAll_none spacesRe).
  2:{ apply (search_none _ (fun x => x ∈ alphabet)); [|reflexivity|exact Hs].
      intros. now apply alphabet_spacesRe. }
  rewrite (replaceFirst_none trailingLabelRe).
  2:{ apply (search_none _ (fun x => x ∈ alphabet)); [|reflexivity|exact Hs].
      intros. now apply alphabet_trailingLabelRe. }
  now rewrite (trim_id (c :: t) Hsp).
Qed.

Lemma digit_alphabet (x : N) : isDigit x = true → x ∈ alphabet.
Proof.
  rewrite isDigit_spec. unfold alphabet. intros Hx.
  assert (x = 48 ∨ x = 49 ∨ x = 50 ∨ x = 51 ∨ x = 52 ∨ x = 53 ∨ x = 54
          ∨ x = 55 ∨ x = 56 ∨ x = 57)%N as H by lia.
  repeat (destruct H as [->|H]); [..|subst x];
    repeat first [apply list_elem_of_here | apply list_elem_of_further].
Qed.

Lemma digitsAux_digits (fuel : nat) (n : N) (acc : list N) :
  Forall (fun x => isDigit x = true) acc →
  Forall (fun x => isDigit x = true) (digitsAux fuel n acc).
Proof.
  revert n acc. induction fuel as [|f IH]; intros n acc Hacc; [exact Hacc|].
  cbn [digitsAux].
  assert (isDigit (48 + n mod 10) = true) as Hd.
  { apply isDigit_spec.
    pose proof (N.mod_lt n 10 ltac:(discriminate)) as Hlt.
    revert Hlt. generalize (n mod 10). intros d Hlt. lia. }
  destruct (n / 10 =? 0); [|apply IH]; now constructor.
Qed.

Lemma digitsOfN_digits (n : N) : Forall (fun x => isDigit x = true) (digitsOfN n).
Proof. apply digitsAux_digits. constructor. Qed.

Lemma digitsOfN_alphabet (n : N) : Forall (fun x => x ∈ alphabet) (digitsOfN n).
Proof.
  eapply Forall_impl; [apply digitsOfN_digits|]. apply digit_alphabet.
Qed.

Lemma literal_alphabet (s : list N) :
  forallb (fun x => bool_decide (x ∈ alphabet)) s = true →
  Forall (fun x => x ∈ alphabet) s.
Proof.
  rewrite forallb_forall, Forall_forall. intros H x Hx.
  apply list_elem_of_In, H in Hx. now apply bool_decide_eq_true in Hx.
Qed.

Lemma fixedDigits_alphabet (n : N) : Forall (fun x => x ∈ alphabet) (fixedDigits n).
Proof.
  unfold fixedDigits.
  assert (Forall (fun x => x ∈ alphabet)
            (replicate (3 - length (digitsOfN n)) 48 ++ digitsOfN n)) as H.
  { apply Forall_app. split; [|apply digitsOfN_alphabet].
    apply Forall_replicate. now apply digit_alphabet. }
  repeat (apply Forall_app; split);
    [now apply Forall_take|now apply literal_alphabet|now apply Forall_drop].
Qed.

Lemma toStringLarge_alphabet (x : float) (X : Z) :
  Forall (fun x => x ∈ alphabet) (toStringLarge x X).
Proof.
  unfold toStringLarge.
  destruct (shortestDigits _ _ _ _ _) as [s n].
  pose proof (digitsOfN_alphabet (Z.to_N s)) as Hs.
  pose proof (digitsOfN_alphabet (Z.to_N (n - 1))) as Hn.
  destruct (digitsOfN (Z.to_N s)) as [|d [|d' ds]]; [constructor| |].
  - apply Forall_cons in Hs as [Hd _]. constructor; [exact Hd|].
    apply Forall_app. split; [now apply literal_alphabet|exact Hn].
  - apply Forall_cons in Hs as [Hd Hs]. constructor; [exact Hd|].
    repeat (apply Forall_app; split);
      [now apply literal_alphabet|exact Hs|now apply literal_alphabet|exact Hn].
Qed.

Lemma toFixed2_finite_alphabet (s : bool) (m : positive) (e : Z) :
  Forall (fun x => x ∈ alphabet) (toFixed2 (S754_finite s m e)).
Proof.
  unfold toFixed2.
  assert (Forall (fun x => x ∈ alphabet) (if s then js "-" else [])) as Hsign.
  { destruct s; [now apply literal_alphabet|constructor]. }
  destruct (_ && _); apply Forall_app; split; try exact Hsign.
  - apply toStringLarge_alphabet.
  - apply fixedDigits_alphabet.
Qed.

(** The normalisation leaves every ratio the parser can emit as it is. *)
Lemma emitted_stable (s : list N) : emitted s → stable s ∧ s ≠ [].
Proof.
  intros (x & ->). split; [|now destruct (toFixed2 x)].
  destruct x as [sg|sg| |sg m e].
  - vm_compute. reflexivity.
  - destruct sg; vm_compute; reflexivity.
  - vm_compute. reflexivity.
  - apply alphabet_stable; [now destruct (toFixed2 _)|].
    apply Forall_app. split; [apply toFixed2_finite_alphabet|].
    now apply literal_alphabet.
Qed.

Lemma canonical_stable (s : list N) : canonical s → stable s.
Proof.
  intros (ip & a & b & Hip & Hd & Ha & Hb & ->).
  apply alphabet_stable; [now destruct ip|].
  apply Forall_app. split.
  - eapply Forall_impl; [exact Hd|]. apply digit_alphabet.
  - apply Forall_app. split; [|now apply literal_alphabet].
    constructor; [unfold alphabet; do 10 apply list_elem_of_further;
                  apply list_elem_of_here|].
    constructor; [now apply digit_alphabet|].
    constructor; [now apply digit_alphabet|constructor].
Qed.

Lemma parsePart_emitted (out : list RatioEntry) (p : list N) :
  Forall (fun e => emitted (ratio e)) out →
  Forall (fun e => emitted (ratio e)) (parsePart out p).
Proof.
  intros Hout. unfold parsePart.
  assert (∀ s rw nt, emitted s →
            Forall (fun e => emitted (ratio e)) (out ++ [mkEntry s rw nt])) as Hadd.
  { intros s rw nt Hs. apply Forall_app. split; [exact Hout|]. now constructor. }
  destruct (exec ratioRe p) as [m|].
  - destruct (_ && _); [|exact Hout]. apply Hadd. unfold normalizedRatio. now eexists.
  - repeat match goal with
           | |- context [if ?b then _ else _] => destruct b
           end; try exact Hout; apply Hadd.
    + exists (dec 137 2). vm_compute. reflexivity.
    + exists (dec 133 2). vm_compute. reflexivity.
    + exists (dec 178 2). vm_compute. reflexivity.
Qed.

Lemma parseRatiosFromBlock_emitted (b : list N) :
  Forall (fun e => emitted (ratio e)) (parseRatiosFromBlock b).
Proof.
  unfold parseRatiosFromBlock. destruct b as [|c b]; [constructor|].
  cbv zeta. generalize (splitParts
    (trim (replaceFirst attributeRe []
       (trim (replaceFirst nextFieldRe []
          (replaceFirst (cat [Bol; lazyStar anyChar; aspectRatioLabel; star space])
             [] (stripTags (c :: b)))))))).
  intros parts.
  assert (∀ out, Forall (fun e => emitted (ratio e)) out →
            Forall (fun e => emitted (ratio e)) (fold_left parsePart parts out)) as H.
  { induction parts as [|p parts IH]; intros out Hout; [exact Hout|].
    cbn [fold_left]. now apply IH, parsePart_emitted. }
  apply H. constructor.
Qed.

Lemma parseAll_emitted_NoDup (html : list N) :
  Forall emitted (parseAllAspectRatiosFromImdb html)
  ∧ NoDup (parseAllAspectRatiosFromImdb html).
Proof.
  unfold parseAllAspectRatiosFromImdb. cbv zeta.
  set (entries := flat_map parseRatiosFromBlock (findAspectRatioBlocks html)).
  split.
  - assert (Forall (fun e => emitted (ratio e)) entries) as Hentries.
    { unfold entries. induction (findAspectRatioBlocks html) as [|b bs IH];
        [constructor|].
      cbn [flat_map]. apply Forall_app. split; [|exact IH].
      apply parseRatiosFromBlock_emitted. }
    rewrite uniqueRatios_firstOccurrences.
    apply Forall_forall. intros s Hs.
    apply list_elem_of_fmap in Hs as (e & -> & He).
    apply firstOccurrences_elem in He as (He & _).
    exact (proj1 (Forall_forall _ _) Hentries e He).
  - rewrite uniqueRatios_firstOccurrences. apply firstOccurrences_NoDup.
Qed.

(** C7. In every record that is built, the primary ratio is an element of
    the list of all ratios, and this list has no duplicates.  The
    normalisation of the primary ratio changes nothing there; it is the
    identity on the canonical texts [X.XX:1]. *)
Theorem fetchImdbAspectRatio_invariants (imdbId : list N) (res : Response)
    (r : AspectRatioResult) :
  fetchImdbAspectRatio imdbId res = inr r →
  (∃ a, aspectRatio r = Some a ∧ a ∈ allAspectRatios r)
  ∧ NoDup (allAspectRatios r)
  ∧ (∀ s, canonical s → normalizeAspectRatioText (Some s) = Some s).
Proof.
  intros Hr. split; [|split; [|exact canonical_stable]].
  - revert Hr. unfold fetchImdbAspectRatio.
    destruct (negb (ok res)); [discriminate|].
    pose proof (parseAll_emitted_NoDup (text res)) as [Hem _].
    destruct (parseAllAspectRatiosFromImdb (text res)) as [|r0 l] eqn:Hl;
      [discriminate|].
    intros [= <-]. cbn [allAspectRatios aspectRatio].
    destruct (choosePrimaryRatio_firstBest (r0 :: l)) as (b & Hb & Hbest);
      [discriminate|].
    apply firstBest_elem in Hbest.
    destruct (emitted_stable b (proj1 (Forall_forall _ _) Hem b Hbest))
      as [Hstable Hne].
    exists b. split; [|exact Hbest].
    cbn [choosePrimaryRatio] in Hb. injection Hb as Hb. rewrite Hb.
    destruct b as [|c b]; [congruence|]. exact Hstable.
  - revert Hr. unfold fetchImdbAspectRatio.
    destruct (negb (ok res)); [discriminate|].
    pose proof (parseAll_emitted_NoDup (text res)) as [_ Hnd].
    destruct (parseAllAspectRatiosFromImdb (text res)) as [|r0 l];
      [discriminate|].
    now intros [= <-].
Qed.

Lemma fetchImdbAspectRatio_invariants_witness :
  let res := mkResponse true 200
               (js "<tr><td>Aspect ratio</td><td>1.33:1 | 2.39 : 1 | 1.33 : 1</td></tr>") in
  ∃ r, fetchImdbAspectRatio (js "tt0468569") res = inr r
       ∧ allAspectRatios r = [js "1.33:1"; js "2.39:1"]
       ∧ (∃ a, aspectRatio r = Some a ∧ a ∈ allAspectRatios r)
       ∧ NoDup (allAspectRatios r).
Proof.
  intros res.
  assert (∃ r, fetchImdbAspectRatio (js "tt0468569") res = inr r
               ∧ allAspectRatios r = [js "1.33:1"; js "2.39:1"]) as (r & Hr & Hall).
  { vm_compute. eexists. split; reflexivity. }
  exists r. split; [exact Hr|]. split; [exact Hall|].
  destruct (fetchImdbAspectRatio_invariants (js "tt0468569") res r Hr)
    as (Hin & Hnd & _).
  split; assumption.
Defined.

(** * Further properties of the worker *)

(** ** Trimming *)

Lemma trimStart_headNot (s : list N) : headNot isSpace (trimStart s).
Proof.
  induction s as [|x s IH]; [exact I|].
  cbn [trimStart]. destruct (isSpace x) eqn:Hx; [exact IH|exact Hx].
Qed.

Lemma trimStart_drop (s : list N) : ∃ k : nat, trimStart s = drop k s.
Proof.
  induction s as [|x s [k IH]]; [now exists 0%nat|].
  cbn [trimStart]. destruct (isSpace x); [|now exists 0%nat].
  exists (S k). exact IH.
Qed.

Lemma headNot_take (q : N → bool) (n : nat) (s : list N) :
  headNot q s → headNot q (take n s).
Proof. destruct n, s; cbn; auto. Qed.

Lemma trim_tight (s : list N) : tight (trim s).
Proof.
  unfold tight, trim, trimEnd. split.
  - destruct (trimStart_drop (rev (trimStart s))) as [k ->].
    rewrite skipn_rev, rev_involutive.
    apply headNot_take, trimStart_headNot.
  - rewrite rev_involutive. apply trimStart_headNot.
Qed.

Lemma tight_trim (s : list N) : tight s → trim s = s.
Proof.
  intros [Hs Hr]. unfold trim, trimEnd.
  rewrite (trimStart_id s Hs), (trimStart_id (rev s) Hr). apply rev_involutive.
Qed.

Lemma trim_idempotent (s : list N) : trim (trim s) = trim s.
Proof. apply tight_trim, trim_tight. Qed.

(** ** The segments of a block *)

Lemma test_chr_single (q : N → bool) (c : N) : test (Chr q) [c] = q c.
Proof. unfold test, exec. cbn. now destruct (q c). Qed.

Lemma pushTrimmed_app (P Q : list (list N)) (cur : list N) :
  pushTrimmed (P ++ Q) cur = P ++ pushTrimmed Q cur.
Proof. unfold pushTrimmed. destruct (trim cur); [reflexivity|now rewrite app_assoc]. Qed.

Lemma pushTrimmed_parts (P : list (list N)) (cur : list N) :
  Forall (fun p => p ≠ [] ∧ tight p) P →
  Forall (fun p => p ≠ [] ∧ tight p) (pushTrimmed P cur).
Proof.
  intros HP. unfold pushTrimmed. destruct (trim cur) as [|x t] eqn:Ht; [exact HP|].
  apply Forall_app. split; [exact HP|]. constructor; [|constructor].
  split; [discriminate|]. rewrite <- Ht. apply trim_tight.
Qed.

Lemma splitStep_parts (st : splitState) (c : N) :
  Forall (fun p => p ≠ [] ∧ tight p) (parts st) →
  Forall (fun p => p ≠ [] ∧ tight p) (parts (splitStep st c)).
Proof.
  intros Hst. unfold splitStep.
  destruct (_ && _); cbn [parts]; [now apply pushTrimmed_parts|exact Hst].
Qed.

(** X1. No segment of a block is empty, and none starts or ends with white
    space: the loop trims each piece and leaves the blank ones out. *)
Theorem splitParts_tight (cleaned : list N) :
  Forall (fun p => p ≠ [] ∧ tight p ∧ trim p = p) (splitParts cleaned).
Proof.
  assert (Forall (fun p => p ≠ [] ∧ tight p) (splitParts cleaned)) as H.
  { unfold splitParts. apply pushTrimmed_parts.
    assert (∀ st, Forall (fun p => p ≠ [] ∧ tight p) (parts st) →
              Forall (fun p => p ≠ [] ∧ tight p)
                (parts (fold_left splitStep cleaned st))) as Hfold.
    { induction cleaned as [|c l IH]; intros st Hst; [exact Hst|].
      cbn [fold_left]. now apply IH, splitStep_parts. }
    apply Hfold. constructor. }
  eapply Forall_impl; [exact H|]. cbn. intros p [Hne Ht].
  split; [exact Hne|]. split; [exact Ht|now apply tight_trim].
Qed.

Lemma splitStep_plain (st : splitState) (c : N) :
  plainUnit c →
  splitStep st c = SplitState (parts st) (current st ++ [c]) (parenDepth st).
Proof.
  intros [Hsep Hpar]. unfold splitStep. rewrite test_chr_single, Hsep.
  apply orb_false_iff in Hpar as [-> ->]. now rewrite andb_false_r.
Qed.

Lemma fold_splitStep_plain (a : list N) (P : list (list N)) (cur : list N) (d : Z) :
  Forall plainUnit a →
  fold_left splitStep a (SplitState P cur d) = SplitState P (cur ++ a) d.
Proof.
  revert cur. induction a as [|c a IH]; intros cur Ha.
  - cbn. now rewrite app_nil_r.
  - apply Forall_cons in Ha as [Hc Ha]. cbn [fold_left].
    rewrite splitStep_plain by exact Hc. cbn [parts current parenDepth].
    rewrite IH by exact Ha. now rewrite <- app_assoc.
Qed.

(** Inside parentheses nothing is cut. *)
Lemma fold_splitStep_inside (b : list N) (P : list (list N)) (cur : list N) (d : Z) :
  d ≠ 0%Z → Forall (fun c => isParen c = false) b →
  fold_left splitStep b (SplitState P cur d) = SplitState P (cur ++ b) d.
Proof.
  intros Hd. revert cur. induction b as [|c b IH]; intros cur Hb.
  - cbn. now rewrite app_nil_r.
  - apply Forall_cons in Hb as [Hc Hb]. cbn [fold_left].
    unfold splitStep at 2. cbn [parts current parenDepth].
    apply orb_false_iff in Hc as [-> ->].
    replace (d =? 0)%Z with false by (symmetry; now apply Z.eqb_neq).
    cbn [andb]. rewrite IH by exact Hb. now rewrite <- app_assoc.
Qed.

Lemma splitStep_parts_app (P Q : list (list N)) (cur : list N) (d : Z) (c : N) :
  splitStep (SplitState (P ++ Q) cur d) c
  = let st := splitStep (SplitState Q cur d) c in
    SplitState (P ++ parts st) (current st) (parenDepth st).
Proof.
  unfold splitStep. cbn [parts current parenDepth].
  destruct (_ && _); cbn [parts current parenDepth];
    now rewrite ?pushTrimmed_app.
Qed.

Lemma fold_splitStep_parts (t : list N) (P Q : list (list N)) (cur : list N) (d : Z) :
  fold_left splitStep t (SplitState (P ++ Q) cur d)
  = let st := fold_left splitStep t (SplitState Q cur d) in
    SplitState (P ++ parts st) (current st) (parenDepth st).
Proof.
  revert Q cur d. induction t as [|c t IH]; intros Q cur d; [reflexivity|].
  cbn [fold_left]. rewrite splitStep_parts_app. cbv zeta.
  destruct (splitStep (SplitState Q cur d) c) as [Q' cur' d'].
  cbn [parts current parenDepth]. apply IH.
Qed.

Lemma splitStep_separator (P : list (list N)) (cur : list N) (sep : N) :
  isSeparator sep = true →
  splitStep (SplitState P cur 0) sep = SplitState (pushTrimmed P cur) [] 0.
Proof.
  intros Hsep. unfold splitStep. cbn [parts current parenDepth].
  rewrite test_chr_single, Hsep.
  assert (isParen sep = false) as Hp.
  { unfold isSeparator in Hsep. unfold isParen.
    rewrite !orb_true_iff, !N.eqb_eq in Hsep.
    rewrite orb_false_iff, !N.eqb_neq. lia. }
  apply orb_false_iff in Hp as [-> ->]. reflexivity.
Qed.

Lemma splitStep_open (P : list (list N)) (cur : list N) (d : Z) :
  splitStep (SplitState P cur d) 40 = SplitState P (cur ++ [40]) (d + 1).
Proof.
  unfold splitStep. cbn [parts current parenDepth].
  rewrite test_chr_single. change (40 =? 40) with true. cbv iota.
  change (isSeparator 40) with false. now rewrite andb_false_r.
Qed.

Lemma splitStep_close (P : list (list N)) (cur : list N) (d : Z) :
  splitStep (SplitState P cur d) 41 = SplitState P (cur ++ [41]) (d - 1).
Proof.
  unfold splitStep. cbn [parts current parenDepth].
  rewrite test_chr_single. change (41 =? 40) with false.
  change (41 =? 41) with true. cbv iota.
  change (isSeparator 41) with false. now rewrite andb_false_r.
Qed.

(** X2. A separator outside parentheses ends a segment; a text in
    parentheses is never cut, whatever separators it contains. *)
Theorem splitParts_separators (a b c : list N) (sep : N) :
  Forall plainUnit a → Forall plainUnit c →
  Forall (fun x => isParen x = false) b →
  isSeparator sep = true →
  (∀ t, splitParts (a ++ sep :: t) = pushTrimmed [] a ++ splitParts t)
  ∧ splitParts a = pushTrimmed [] a
  ∧ splitParts (a ++ 40 :: b ++ 41 :: c) = pushTrimmed [] (a ++ 40 :: b ++ 41 :: c).
Proof.
  intros Ha Hc Hb Hsep. split; [|split].
  - intros t. unfold splitParts. rewrite fold_left_app, fold_splitStep_plain by exact Ha.
    cbn [fold_left app]. rewrite splitStep_separator by exact Hsep.
    rewrite <- (app_nil_r (pushTrimmed [] a)) at 1 2.
    rewrite fold_splitStep_parts. cbv zeta. cbn [parts current].
    now rewrite pushTrimmed_app.
  - unfold splitParts. now rewrite fold_splitStep_plain by exact Ha.
  - unfold splitParts. rewrite fold_left_app, fold_splitStep_plain by exact Ha.
    cbn [fold_left app]. rewrite splitStep_open.
    rewrite fold_left_app, fold_splitStep_inside by (discriminate || exact Hb).
    cbn [fold_left]. rewrite splitStep_close.
    rewrite fold_splitStep_plain by exact Hc. cbn [parts current].
    now rewrite <- !app_assoc.
Qed.

Lemma splitParts_separators_witness :
  Forall plainUnit (js "2.39 : 1 ") ∧ isSeparator 124 = true
  ∧ splitParts (js "2.39 : 1 " ++ 124 :: js " 1.43 : 1 (IMAX; some scenes)")
    = [js "2.39 : 1"; js "1.43 : 1 (IMAX; some scenes)"].
Proof.
  assert (Forall plainUnit (js "2.39 : 1 ")) as Ha by (repeat constructor).
  split; [exact Ha|]. split; [reflexivity|].
  rewrite (proj1 (splitParts_separators (js "2.39 : 1 ") [] [] 124 Ha
                    ltac:(constructor) ltac:(constructor) eq_refl)).
  vm_compute. reflexivity.
Defined.

(** ** The raw text of an entry *)

Lemma span_space (l : list N) :
  ∃ ws post, l = ws ++ post ∧ Forall (fun x => isSpace x = true) ws
             ∧ headNot isSpace post.
Proof.
  induction l as [|x l (ws & post & -> & Hws & Hpost)].
  - exists [], []. split; [reflexivity|]. split; [constructor|exact I].
  - destruct (isSpace x) eqn:Hx.
    + exists (x :: ws), post. split; [reflexivity|]. split; [now constructor|exact Hpost].
    + exists [], (x :: ws ++ post). split; [reflexivity|]. split; [constructor|exact Hx].
Qed.







(** ** The shape of the ratios *)

Lemma binary_round_aux_nonneg (m e : Z) (l : location) :
  nonneg (binary_round_aux prec emax false m e l).
Proof.
  unfold binary_round_aux.
  destruct (shr_fexp prec emax m e l) as [mrs' e'].
  destruct (shr_fexp prec emax _ e' loc_Exact) as [mrs'' e''].
  destruct (shr_m mrs'') as [|q|q]; [reflexivity| |exact I].
  destruct (_ <=? _)%Z; reflexivity.
Qed.

Lemma div_nonneg (x y : float) : nonneg x → nonneg y → nonneg (div x y).
Proof.
  unfold div, SFdiv.
  destruct x as [sx|sx| |sx mx ex], y as [sy|sy| |sy my ey]; cbn [nonneg];
    intros Hx Hy; subst; try exact I; try reflexivity.
  destruct (SFdiv_core_binary prec emax (Z.pos mx) ex (Z.pos my) ey) as [[mz ez] lz].
  apply binary_round_aux_nonneg.
Qed.

Lemma mul_nonneg (x y : float) : nonneg x → nonneg y → nonneg (mul x y).
Proof.
  unfold mul, SFmul.
  destruct x as [sx|sx| |sx mx ex], y as [sy|sy| |sy my ey]; cbn [nonneg];
    intros Hx Hy; subst; try exact I; try reflexivity.
  apply binary_round_aux_nonneg.
Qed.

Lemma mathRound_nonneg (x : float) : nonneg x → nonneg (mathRound x).
Proof.
  destruct x as [sx|sx| |sx mx ex]; cbn [nonneg mathRound]; intros Hx;
    try assumption.
  subst sx. destruct (Z.leb_spec 0 ex) as [Hle|Hlt]; [reflexivity|].
  assert (0 <= roundHalfUp (cond_Zopp false (Z.pos mx)) ex)%Z as Hr.
  { unfold roundHalfUp. cbn [cond_Zopp].
    destruct (Z.leb_spec 0 ex); [lia|].
    apply Z.div_pos; [|apply Z.pow_pos_nonneg; lia].
    assert (0 < 2 ^ (- ex))%Z by (apply Z.pow_pos_nonneg; lia). lia. }
  destruct (roundHalfUp _ ex) as [|q|q]; [reflexivity| |lia].
  unfold binary_normalize, binary_round.
  destruct (shl_align _ _ _) as [mz ez]. apply binary_round_aux_nonneg.
Qed.

Lemma parseFloat_nonneg (s : list N) : nonneg (parseFloat s).
Proof.
  unfold parseFloat. destruct (spanDigits s) as [ip r].
  assert (∀ n k, nonneg (ofDecimal n k)) as Hdec.
  { intros [|q] k; [reflexivity|]. cbn [ofDecimal]. now apply div_nonneg. }
  destruct ip; [destruct (match r with 46 :: r' => _ | _ => [] end)|];
    try apply Hdec. exact I.
Qed.

Lemma normalizedValue_nonneg (num den : float) :
  nonneg num → nonneg den →
  nonneg (div (mathRound (mul (div num den) (ofZ 100))) (ofZ 100)).
Proof.
  intros Hn Hd.
  assert (nonneg (ofZ 100)) as H100 by reflexivity.
  apply div_nonneg; [|exact H100].
  apply mathRound_nonneg, mul_nonneg; [|exact H100]. now apply div_nonneg.
Qed.

Lemma fixedDigits_shape (n : N) :
  ∃ ip a b, ip ≠ [] ∧ Forall (fun c => isDigit c = true) ip
            ∧ isDigit a = true ∧ isDigit b = true
            ∧ fixedDigits n = ip ++ [46; a; b].
Proof.
  unfold fixedDigits.
  set (m := replicate (3 - length (digitsOfN n)) 48 ++ digitsOfN n).
  assert (Forall (fun c => isDigit c = true) m) as Hm.
  { apply Forall_app. split; [now apply Forall_replicate|apply digitsOfN_digits]. }
  assert (3 ≤ length m)%nat as Hlen.
  { unfold m. rewrite length_app, length_replicate. lia. }
  pose proof (Forall_drop _ (length m - 2) _ Hm) as Hdrop.
  pose proof (length_drop m (length m - 2)) as Hdl.
  destruct (drop (length m - 2) m) as [|a [|b [|c r]]] eqn:Hd;
    cbn [length] in Hdl; try lia.
  apply Forall_cons in Hdrop as [Ha Hdrop].
  apply Forall_cons in Hdrop as [Hb _].
  exists (take (length m - 2) m), a, b.
  split; [|split; [now apply Forall_take|]].
  - intros Hnil. apply (f_equal length) in Hnil.
    rewrite length_take in Hnil. cbn [length] in Hnil. lia.
  - split; [exact Ha|]. split; [exact Hb|]. reflexivity.
Qed.

Lemma toFixed2_shape (x : float) :
  nonneg x → canonical (toFixed2 x ++ js ":1") ∨ beyondFixed x.
Proof.
  destruct x as [sx|sx| |sx mx ex]; cbn [nonneg beyondFixed]; intros Hx;
    [left|now right|now right|].
  - cbn [toFixed2].
    destruct (fixedDigits_shape 0) as (ip & a & b & H1 & H2 & H3 & H4 & ->).
    exists ip, a, b. now rewrite <- app_assoc.
  - subst sx. unfold toFixed2.
    destruct ((0 <=? ex)%Z && (10 ^ 21 <=? Z.pos mx * 2 ^ ex)%Z) eqn:Hbig.
    + right. apply andb_true_iff in Hbig as [H1 H2].
      apply Z.leb_le in H1, H2. now split.
    + left. cbn [app].
      destruct (fixedDigits_shape (Z.to_N (roundHalfUp (100 * Z.pos mx) ex)))
        as (ip & a & b & H1 & H2 & H3 & H4 & ->).
      exists ip, a, b. now rewrite <- app_assoc.
Qed.

Lemma alias_canonical :
  canonical (js "1.37:1") ∧ canonical (js "1.33:1") ∧ canonical (js "1.78:1").
Proof.
  repeat split.
  - exists (js "1"), 51, 55. repeat split; try discriminate; repeat constructor.
  - exists (js "1"), 51, 51. repeat split; try discriminate; repeat constructor.
  - exists (js "1"), 55, 56. repeat split; try discriminate; repeat constructor.
Qed.

Lemma parsePart_shaped (out : list RatioEntry) (p : list N) :
  Forall (fun e => shaped (ratio e)) out →
  Forall (fun e => shaped (ratio e)) (parsePart out p).
Proof.
  intros Hout. unfold parsePart.
  assert (∀ s rw nt, shaped s →
            Forall (fun e => shaped (ratio e)) (out ++ [mkEntry s rw nt])) as Hadd.
  { intros s rw nt Hs. apply Forall_app. split; [exact Hout|]. now constructor. }
  destruct alias_canonical as (H137 & H133 & H178).
  destruct (exec ratioRe p) as [m|].
  - destruct (_ && _); [|exact Hout]. apply Hadd. unfold normalizedRatio, shaped.
    destruct (toFixed2_shape _ (normalizedValue_nonneg _ _
                (parseFloat_nonneg (groupText 1 m))
                (parseFloat_nonneg (groupText 2 m)))) as [Hc|Hb];
      [now left|right; eauto].
  - repeat match goal with
           | |- context [if ?b then _ else _] => destruct b
           end; try exact Hout; apply Hadd; now left.
Qed.

Lemma parseRatiosFromBlock_shaped (b : list N) :
  Forall (fun e => shaped (ratio e)) (parseRatiosFromBlock b).
Proof.
  unfold parseRatiosFromBlock. destruct b as [|c b]; [constructor|].
  cbv zeta. generalize (splitParts
    (trim (replaceFirst attributeRe []
       (trim (replaceFirst nextFieldRe []
          (replaceFirst (cat [Bol; lazyStar anyChar; aspectRatioLabel; star space])
             [] (stripTags (c :: b)))))))).
  intros ps.
  assert (∀ out, Forall (fun e => shaped (ratio e)) out →
            Forall (fun e => shaped (ratio e)) (fold_left parsePart ps out)) as H.
  { induction ps as [|p ps IH]; intros out Hout; [exact Hout|].
    cbn [fold_left]. now apply IH, parsePart_shaped. }
  apply H. constructor.
Qed.

(** X4. The ratio of every entry the token parser returns, and so every
    ratio of the list parsed from a document, is in canonical form [X.XX:1]
    (digits, a point, two digits, [:1]), except when the rounded quotient
    is not finite or is [10^21] or more, where [toFixed] prints no fixed
    notation. *)
Theorem parsed_ratio_shape (html block : list N) :
  (∀ e, e ∈ parseRatiosFromBlock block → shaped (ratio e))
  ∧ (∀ r, r ∈ parseAllAspectRatiosFromImdb html → shaped r).
Proof.
  split.
  - apply Forall_forall, parseRatiosFromBlock_shaped.
  - intros r Hr. unfold parseAllAspectRatiosFromImdb in Hr. cbv zeta in Hr.
    apply list_elem_of_fmap in Hr as (e & -> & He).
    rewrite uniqueRatios_firstOccurrences in He.
    apply firstOccurrences_elem in He as (He & _).
    apply list_elem_of_In, in_flat_map in He as (b & _ & He).
    apply list_elem_of_In in He.
    exact (proj1 (Forall_forall _ _) (parseRatiosFromBlock_shaped b) e He).
Qed.

(** ** Reading a ratio back *)



(** ** Scores *)

Lemma scoreForPrimary_range (r : list N) :
  (ratioToNumber r = None → scoreForPrimary r = 0%Z)
  ∧ (ratioToNumber r ≠ None → (10 <= scoreForPrimary r <= 100)%Z).
Proof.
  unfold scoreForPrimary. destruct (ratioToNumber r) as [val|];
    (split; [intros H|intros H]); try congruence; try reflexivity.
  repeat match goal with
         | |- context [within val ?t] =>
             destruct (within val t); cbn [orb]; try lia
         end.
Qed.

(** X6. A text without a readable ratio has the score 0, a text with one a
    score from 10 to 100.  So the primary ratio chosen from a list is a
    readable one as soon as the list has a readable element. *)
Theorem choosePrimaryRatio_readable (l : list (list N)) (x : list N) :
  x ∈ l → ratioToNumber x ≠ None →
  (∃ r, choosePrimaryRatio (Some l) = Some r ∧ r ∈ l ∧ ratioToNumber r ≠ None)
  ∧ (∀ t, (ratioToNumber t = None → scoreForPrimary t = 0%Z)
          ∧ (ratioToNumber t ≠ None → (10 <= scoreForPrimary t <= 100)%Z)).
Proof.
  intros Hx Hread. split; [|exact scoreForPrimary_range].
  destruct (choosePrimaryRatio_firstBest l) as (r & Hr & Hbest).
  { intros ->. now apply elem_of_nil in Hx. }
  exists r. split; [exact Hr|]. split; [now apply firstBest_elem|].
  destruct Hbest as (i & _ & Hmax & _).
  apply list_elem_of_lookup in Hx as (j & Hj).
  specialize (Hmax j x Hj).
  pose proof (proj2 (scoreForPrimary_range x) Hread) as Hsx.
  intros Hnone. apply (proj1 (scoreForPrimary_range r)) in Hnone. lia.
Qed.

Lemma choosePrimaryRatio_readable_witness :
  js "1.66:1" ∈ [js "n/a"; js "1.66:1"; js "unknown"]
  ∧ ratioToNumber (js "1.66:1") ≠ None
  ∧ ∃ r, choosePrimaryRatio (Some [js "n/a"; js "1.66:1"; js "unknown"]) = Some r
         ∧ ratioToNumber r ≠ None.
Proof.
  assert (js "1.66:1" ∈ [js "n/a"; js "1.66:1"; js "unknown"]) as Hin
    by (apply list_elem_of_further, list_elem_of_here).
  assert (ratioToNumber (js "1.66:1") ≠ None) as Hread
    by (vm_compute; discriminate).
  split; [exact Hin|]. split; [exact Hread|].
  destruct (proj1 (choosePrimaryRatio_readable _ _ Hin Hread))
    as (r & Hr & _ & Hrr).
  exists r. split; assumption.
Defined.

(** ** Normalisation of a ratio text *)

Lemma normalize_unfold (s : list N) :
  s ≠ [] →
  normalizeAspectRatioText (Some s)
  = Some (trim (replaceFirst trailingLabelRe []
                  (replaceAll spacesRe (js " ")
                     (replaceAll colonRe (js ":") (trim s))))).
Proof. destruct s; [congruence|reflexivity]. Qed.

Lemma alphabet_spaces_id (s : list N) :
  Forall (fun x => x ∈ alphabet) s → replaceAll spacesRe (js " ") s = s.
Proof.
  intros Hs. apply replaceAll_none.
  apply (search_none _ (fun x => x ∈ alphabet)); [|reflexivity|exact Hs].
  intros. now apply alphabet_spacesRe.
Qed.

Lemma alphabet_label_id (s : list N) :
  Forall (fun x => x ∈ alphabet) s → replaceFirst trailingLabelRe [] s = s.
Proof.
  intros Hs. apply replaceFirst_none.
  apply (search_none _ (fun x => x ∈ alphabet)); [|reflexivity|exact Hs].
  intros. now apply alphabet_trailingLabelRe.
Qed.

Lemma numberToken_alphabet (t : list N) :
  numberToken t → Forall (fun x => x ∈ alphabet ∧ x ≠ 58) t.
Proof.
  intros (ip & fp & _ & Hip & Hfp & Ht).
  assert (∀ ds, Forall (fun c => isDigit c = true) ds →
            Forall (fun x => x ∈ alphabet ∧ x ≠ 58) ds) as Hd.
  { intros ds Hds. eapply Forall_impl; [exact Hds|]. cbn. intros c Hc.
    split; [now apply digit_alphabet|]. apply isDigit_spec in Hc. lia. }
  destruct Ht as [-> | [_ ->]]; [now apply Hd|].
  apply Forall_app. split; [now apply Hd|]. constructor; [|now apply Hd].
  split; [|discriminate]. unfold alphabet.
  do 10 apply list_elem_of_further. apply list_elem_of_here.
Qed.

Lemma numberToken_last (t : list N) :
  numberToken t → ∃ t' y, t = t' ++ [y] ∧ isDigit y = true.
Proof.
  intros (ip & fp & Hip & Hdi & Hdf & Ht).
  assert (∀ ds, ds ≠ [] → Forall (fun c => isDigit c = true) ds →
            ∃ ds' y, ds = ds' ++ [y] ∧ isDigit y = true) as Hlast.
  { intros ds Hne Hds. destruct (exists_last Hne) as (ds' & y & ->).
    exists ds', y. split; [reflexivity|].
    apply Forall_app in Hds as [_ Hy]. now apply Forall_cons in Hy as [Hy _]. }
  destruct Ht as [-> | [Hfp ->]]; [now apply Hlast|].
  destruct (Hlast fp Hfp Hdf) as (fp' & y & -> & Hy).
  exists (ip ++ 46 :: fp'), y. split; [|exact Hy].
  now rewrite <- app_assoc.
Qed.

(** X7. The normalisation takes the white space around the colon of a ratio
    away: every spacing variant [n : d] of a ratio becomes [n:d]. *)
Theorem normalize_spacing (n ws1 ws2 d : list N) :
  numberToken n → numberToken d →
  Forall (fun x => isSpace x = true) ws1 →
  Forall (fun x => isSpace x = true) ws2 →
  normalizeAspectRatioText (Some (n ++ ws1 ++ 58 :: ws2 ++ d))
  = Some (n ++ 58 :: d).
Proof.
  intros Hn Hd Hws1 Hws2.
  destruct (numberToken_head n Hn) as (x & n' & Hnx & Hx).
  destruct (numberToken_head d Hd) as (z & d' & Hdz & Hz).
  destruct (numberToken_last d Hd) as (d0 & y & Hdy & Hy).
  pose proof (numberToken_alphabet n Hn) as Han.
  pose proof (numberToken_alphabet d Hd) as Had.
  rewrite normalize_unfold by (subst n; discriminate).
  (* the text is tight *)
  rewrite (tight_trim (n ++ ws1 ++ 58 :: ws2 ++ d)).
  2:{ split.
      - subst n. cbn. now apply digit_not_space.
      - rewrite Hdy, !rev_app_distr. cbn [rev]. rewrite !rev_app_distr.
        cbn. now apply digit_not_space. }
  (* the colon and its white space *)
  assert (replaceAll colonRe (js ":") (n ++ ws1 ++ 58 :: ws2 ++ d) = n ++ 58 :: d)
    as ->.
  { unfold replaceAll. cbn [replaceAllFrom pos prev rest].
    rewrite (search_skip colonRe (fun x => x ∈ alphabet ∧ x ≠ 58) n); [|
      intros p0 pv0 x0 xs [H1 H2]; now apply alphabet_colonRe | exact Han].
    rewrite search_eq.
    assert (run colonRe (Cursor (0 + length n) (lastOpt None n)
                           (ws1 ++ 58 :: ws2 ++ d)) [] accept
            = Some (Cursor (S (0 + length n + length ws1) + length ws2)
                      (lastOpt (Some 58) ws2) d, [])) as ->.
    { unfold colonRe, cat, star, space, chr. cbn [foldr]. rewrite run_seq.
      apply run_star_chr_greedy; [exact Hws1|reflexivity|].
      cbv beta. rewrite run_seq, run_chr_cons. cbn [N.eqb Pos.eqb].
      rewrite run_seq.
      apply run_star_chr_greedy; [exact Hws2| |reflexivity].
      subst d. cbn. now apply digit_not_space. }
    unfold stepOver. cbn [start stop pos rest].
    replace (0 + length n <? S (0 + length n + length ws1) + length ws2)%nat
      with true by (symmetry; apply Nat.ltb_lt; lia).
    rewrite replaceAllFrom_colonRe.
    - replace (0 + length n - 0)%nat with (length n) by lia.
      now rewrite take_app_length.
    - rewrite !length_app. cbn [length]. rewrite length_app. lia.
    - eapply Forall_impl; [exact Had|]. now intros ? [? _]. }
  assert (Forall (fun x => x ∈ alphabet) (n ++ 58 :: d)) as Hall.
  { apply Forall_app. split; [eapply Forall_impl; [exact Han|]; now intros ? [? _]|].
    constructor; [|eapply Forall_impl; [exact Had|]; now intros ? [? _]].
    unfold alphabet. do 11 apply list_elem_of_further. apply list_elem_of_here. }
  rewrite (alphabet_spaces_id _ Hall), (alphabet_label_id _ Hall).
  rewrite trim_id; [reflexivity|].
  eapply Forall_impl; [exact Hall|]. apply alphabet_not_space.
Qed.

Lemma normalize_spacing_witness :
  numberToken (js "2.39") ∧ numberToken (js "1")
  ∧ normalizeAspectRatioText (Some (js "2.39  : 1")) = Some (js "2.39:1").
Proof.
  split; [exact token_2_39|]. split; [now apply token_digit|].
  apply (normalize_spacing (js "2.39") (js "  ") (js " ") (js "1"));
    [exact token_2_39|now apply token_digit|repeat constructor..].
Defined.

Lemma run_spacesRe_stop (p : nat) (pv : option N) (x : N) (xs : list N) :
  isSpace x = false → run spacesRe (Cursor p pv (x :: xs)) [] accept = None.
Proof.
  intros Hx. unfold spacesRe, plus, space. now rewrite run_seq, run_chr_cons, Hx.
Qed.

Lemma span_nonspace (l : list N) :
  ∃ a b, l = a ++ b ∧ Forall (fun x => isSpace x = false) a
         ∧ headNot (fun x => negb (isSpace x)) b.
Proof.
  induction l as [|x l (a & b & -> & Ha & Hb)].
  - exists [], []. split; [reflexivity|]. split; [constructor|exact I].
  - destruct (isSpace x) eqn:Hx.
    + exists [], (x :: a ++ b). split; [reflexivity|]. split; [constructor|].
      cbn. now rewrite Hx.
    + exists (x :: a), b. split; [reflexivity|]. split; [now constructor|exact Hb].
Qed.

Lemma spaced_plain (a l : list N) :
  Forall (fun x => isSpace x = false) a → spaced l → spaced (a ++ l).
Proof.
  induction a as [|x a IH]; intros Ha Hl; [exact Hl|].
  apply Forall_cons in Ha as [Hx Ha]. cbn [app].
  apply spaced_unit; [exact Hx|now apply IH].
Qed.

Lemma spaced_drop (n : nat) (l : list N) : spaced l → spaced (drop n l).
Proof.
  intros Hl. revert n. induction Hl as [|x l Hx Hl IH|l Hh Hl IH]; intros [|n];
    cbn [drop skipn]; try apply IH; try apply spaced_nil.
  - now apply spaced_unit.
  - now apply spaced_space.
Qed.

Lemma spaced_take (n : nat) (l : list N) : spaced l → spaced (take n l).
Proof.
  intros Hl. revert n. induction Hl as [|x l Hx Hl IH|l Hh Hl IH]; intros [|n];
    cbn [take firstn]; try apply spaced_nil.
  - apply spaced_unit; [exact Hx|apply IH].
  - apply spaced_space; [now apply headNot_take|apply IH].
Qed.

Lemma trim_take_drop (s : list N) : ∃ i j : nat, trim s = take j (drop i s).
Proof.
  unfold trim, trimEnd.
  destruct (trimStart_drop s) as [i Hi].
  destruct (trimStart_drop (rev (trimStart s))) as [k Hk].
  exists i, (length (trimStart s) - k)%nat.
  rewrite Hk, skipn_rev, rev_involutive. now rewrite Hi.
Qed.

Lemma spaced_trim (s : list N) : spaced s → spaced (trim s).
Proof.
  intros Hs. destruct (trim_take_drop s) as (i & j & ->).
  now apply spaced_take, spaced_drop.
Qed.

(** Replacing the runs of white space by one space leaves single spaces
    only. *)
Lemma replaceAllFrom_spaced (fuel : nat) (l : list N) (p : nat) (pv : option N) :
  (length l < fuel)%nat →
  spaced (replaceAllFrom spacesRe (js " ") fuel (Cursor p pv l))
  ∧ (headNot isSpace l →
     headNot isSpace (replaceAllFrom spacesRe (js " ") fuel (Cursor p pv l))).
Proof.
  revert l p pv. induction fuel as [|f IH]; intros l p pv Hfuel; [lia|].
  cbn [replaceAllFrom pos prev rest].
  destruct (span_nonspace l) as (a & b & -> & Ha & Hb).
  rewrite (search_skip spacesRe (fun x => isSpace x = false) a); [|
    intros; now apply run_spacesRe_stop | exact Ha].
  rewrite search_eq. destruct b as [|w b].
  - change (run spacesRe _ [] accept) with (@None (cursor * caps)). cbv iota.
    rewrite app_nil_r. split; [|tauto].
    rewrite <- (app_nil_r a). apply spaced_plain; [exact Ha|constructor].
  - cbn in Hb. apply negb_false_iff in Hb.
    destruct (span_space b) as (ws & post & -> & Hws & Hpost).
    assert (run spacesRe (Cursor (p + length a) (lastOpt pv a) (w :: ws ++ post))
              [] accept
            = Some (Cursor (p + length a + length (w :: ws))
                      (lastOpt (lastOpt pv a) (w :: ws)) post, [])) as ->.
    { unfold spacesRe, space.
      apply (run_plus_chr_greedy isSpace (w :: ws) post);
        [discriminate|now constructor|exact Hpost|reflexivity]. }
    unfold stepOver. cbn [start stop pos rest].
    replace (p + length a <? p + length a + length (w :: ws))%nat with true
      by (symmetry; apply Nat.ltb_lt; cbn; lia).
    replace (p + length a - p)%nat with (length a) by lia.
    rewrite take_app_length.
    destruct (IH post (p + length a + length (w :: ws))%nat
                (lastOpt (lastOpt pv a) (w :: ws))) as [Hsp Hhead].
    { rewrite !length_app in Hfuel. cbn [length] in Hfuel.
      rewrite length_app in Hfuel. lia. }
    split.
    + apply spaced_plain; [exact Ha|]. apply spaced_space; [now apply Hhead|exact Hsp].
    + destruct a as [|x a]; [cbn; intros Hw; congruence|].
      apply Forall_cons in Ha as [Hx _]. now intros _.
Qed.

Lemma search_found (r : regex) (l : list N) (p : nat) (pv : option N) (m : found) :
  search r p pv l = Some m →
  run r (start m) [] accept = Some (stop m, groups m).
Proof.
  revert p pv. induction l as [|x l IH]; intros p pv; rewrite search_eq.
  - destruct (run r (Cursor p pv []) [] accept) as [[e c]|] eqn:Hrun;
      [|discriminate].
    intros [= <-]. exact Hrun.
  - destruct (run r (Cursor p pv (x :: l)) [] accept) as [[e c]|] eqn:Hrun;
      [|apply IH].
    intros [= <-]. exact Hrun.
Qed.

(** A match of the pattern of the trailing labels goes to the end of the
    text. *)
Lemma trailingLabelRe_to_end (s e : cursor) (c : caps) :
  run trailingLabelRe s [] accept = Some (e, c) → rest e = [].
Proof.
  unfold trailingLabelRe, cat. cbn [foldr]. intros Hrun.
  rewrite run_seq in Hrun. apply run_reach in Hrun as (s1 & c1 & _ & Hrun).
  rewrite run_seq in Hrun. apply run_reach in Hrun as (s2 & c2 & _ & Hrun).
  rewrite run_seq in Hrun. apply run_reach in Hrun as (s3 & c3 & _ & Hrun).
  rewrite run_seq in Hrun. cbn [run] in Hrun.
  destruct (rest s3) eqn:Hrest; [|discriminate].
  unfold accept in Hrun. now injection Hrun as <- _.
Qed.

Lemma replaceFirst_trailingLabel (v : list N) :
  ∃ i : nat, replaceFirst trailingLabelRe [] v = take i v.
Proof.
  unfold replaceFirst, exec.
  destruct (search trailingLabelRe 0 None v) as [m|] eqn:Hm.
  - apply search_found in Hm. destruct m as [st e c]. cbn [start stop groups] in *.
    apply trailingLabelRe_to_end in Hm. rewrite Hm. cbn [app].
    exists (pos st). now rewrite app_nil_r.
  - exists (length v). now rewrite firstn_all.
Qed.

(** X8. The normalisation answers [null] exactly on a missing or empty
    text.  Its result never starts or ends with white space, and all its
    white space is single spaces. *)
Theorem normalize_whitespace (text : option (list N)) :
  (normalizeAspectRatioText text = None ↔ text = None ∨ text = Some [])
  ∧ (∀ v, normalizeAspectRatioText text = Some v → tight v ∧ spaced v).
Proof.
  split.
  - destruct text as [[|c t]|]; cbn; split; intros H; try discriminate; auto;
      destruct H; discriminate.
  - intros v. destruct text as [[|c t]|]; try discriminate.
    rewrite normalize_unfold by discriminate. intros [= <-].
    split; [apply trim_tight|]. apply spaced_trim.
    destruct (replaceFirst_trailingLabel
                (replaceAll spacesRe (js " ")
                   (replaceAll colonRe (js ":") (trim (c :: t))))) as [i ->].
    apply spaced_take. unfold replaceAll. apply replaceAllFrom_spaced. lia.
Qed.

(** ** The id of the film *)

Lemma run_chr_inv (q : N → bool) (s : cursor) (c : caps) (k : cont)
    (r : cursor * caps) :
  run (Chr q) s c k = Some r →
  ∃ x xs, rest s = x :: xs ∧ q x = true
          ∧ k (Cursor (S (pos s)) (Some x) xs) c = Some r.
Proof.
  cbn [run]. destruct (rest s) as [|x xs]; [discriminate|].
  destruct (q x) eqn:Hq; [|discriminate]. intros Hk. now exists x, xs.
Qed.

Lemma run_times_inv (q : N → bool) (n : nat) (s : cursor) (c : caps) (k : cont)
    (r : cursor * caps) :
  run (times n (Chr q)) s c k = Some r →
  ∃ ds s', rest s = ds ++ rest s' ∧ pos s' = (pos s + length ds)%nat
           ∧ Forall (fun x => q x = true) ds ∧ length ds = n
           ∧ k s' c = Some r.
Proof.
  revert s. induction n as [|n IH]; intros s; cbn [times].
  - rewrite run_eps. intros Hk. exists [], s. cbn.
    repeat apply conj; [reflexivity|lia|constructor|reflexivity|exact Hk].
  - rewrite run_seq. intros Hrun.
    apply run_chr_inv in Hrun as (x & xs & Hs & Hx & Hrun).
    apply IH in Hrun as (ds & s' & Hrest & Hpos & Hds & Hlen & Hk).
    cbn [rest pos] in *. exists (x :: ds), s'. cbn [app length].
    repeat apply conj; [now rewrite Hs, Hrest|lia|now constructor|lia|exact Hk].
Qed.

Lemma run_upTo_inv (q : N → bool) (n : nat) (s : cursor) (c : caps) (k : cont)
    (r : cursor * caps) :
  run (upTo n (Chr q)) s c k = Some r →
  ∃ ds s', rest s = ds ++ rest s' ∧ pos s' = (pos s + length ds)%nat
           ∧ Forall (fun x => q x = true) ds ∧ (length ds ≤ n)%nat
           ∧ k s' c = Some r.
Proof.
  revert s. induction n as [|n IH]; intros s; cbn [upTo].
  - rewrite run_eps. intros Hk. exists [], s. cbn.
    repeat apply conj; [reflexivity|lia|constructor|cbn; lia|exact Hk].
  - unfold opt. rewrite run_alt, run_seq, run_eps.
    destruct (run (Chr q) s c _) as [r'|] eqn:Hrun; cbn [orElseTry].
    + intros [= ->].
      apply run_chr_inv in Hrun as (x & xs & Hs & Hx & Hrun).
      apply IH in Hrun as (ds & s' & Hrest & Hpos & Hds & Hlen & Hk).
      cbn [rest pos] in *. exists (x :: ds), s'. cbn [app length].
      repeat apply conj; [now rewrite Hs, Hrest|lia|now constructor|lia|exact Hk].
    + intros Hk. exists [], s. cbn.
      repeat apply conj; [reflexivity|lia|constructor|cbn; lia|exact Hk].
Qed.

Lemma run_times_chr (q : N → bool) (ds post : list N) (p : nat) (pv : option N)
    (c : caps) (k : cont) :
  Forall (fun x => q x = true) ds →
  run (times (length ds) (Chr q)) (Cursor p pv (ds ++ post)) c k
  = k (Cursor (p + length ds) (lastOpt pv ds) post) c.
Proof.
  revert p pv. induction ds as [|x ds IH]; intros p pv Hds; cbn [length times app].
  - rewrite run_eps. cbn. now rewrite Nat.add_0_r.
  - apply Forall_cons in Hds as [Hx Hds].
    rewrite run_seq, run_chr_cons, Hx, IH by exact Hds. cbn [length].
    now replace (p + S (length ds))%nat with (S p + length ds)%nat by lia.
Qed.

Lemma run_upTo_chr (q : N → bool) (n : nat) (ds post : list N) (p : nat)
    (pv : option N) (c : caps) (k : cont) (r : cursor * caps) :
  Forall (fun x => q x = true) ds → (length ds ≤ n)%nat →
  length ds = n ∨ headNot q post →
  k (Cursor (p + length ds) (lastOpt pv ds) post) c = Some r →
  run (upTo n (Chr q)) (Cursor p pv (ds ++ post)) c k = Some r.
Proof.
  revert ds p pv. induction n as [|n IH]; intros ds p pv Hds Hlen Hstop Hk;
    cbn [upTo].
  - destruct ds; [|cbn in Hlen; lia]. rewrite run_eps.
    cbn in Hk. now rewrite Nat.add_0_r in Hk.
  - unfold opt. rewrite run_alt, run_seq, run_eps.
    destruct ds as [|x ds].
    + destruct Hstop as [Hstop|Hstop]; [discriminate|].
      cbn [app]. rewrite run_chr_stop by exact Hstop. cbn [orElseTry].
      cbn in Hk. now rewrite Nat.add_0_r in Hk.
    + apply Forall_cons in Hds as [Hx Hds]. cbn [app].
      rewrite run_chr_cons, Hx.
      assert (run (upTo n (Chr q)) (Cursor (S p) (Some x) (ds ++ post)) c k
              = Some r) as ->; [|reflexivity].
      apply IH; [exact Hds| | |].
      * cbn in Hlen. lia.
      * destruct Hstop as [Hstop|Hstop]; [left; cbn in Hstop; lia|now right].
      * cbn [length] in Hk.
        now replace (S p + length ds)%nat with (p + S (length ds))%nat by lia.
Qed.

(** The leftmost match starts after a prefix of the subject. *)
Lemma search_prefix (r : regex) (l : list N) (p : nat) (pv : option N) (m : found) :
  search r p pv l = Some m →
  ∃ pre, l = pre ++ rest (start m) ∧ pos (start m) = (p + length pre)%nat.
Proof.
  revert p pv. induction l as [|x l IH]; intros p pv; rewrite search_eq.
  - destruct (run r (Cursor p pv []) [] accept) as [[e c]|]; [|discriminate].
    intros [= <-]. exists []. cbn. split; [reflexivity|lia].
  - destruct (run r (Cursor p pv (x :: l)) [] accept) as [[e c]|].
    + intros [= <-]. exists []. cbn. split; [reflexivity|lia].
    + intros Hm. apply IH in Hm as (pre & Hl & Hpos).
      exists (x :: pre). cbn [app length]. split; [now rewrite <- Hl|lia].
Qed.

(** What the pattern of the id reads. *)
Lemma run_imdbIdRe_inv (s e : cursor) (c : caps) :
  run imdbIdRe s [] accept = Some (e, c) →
  ∃ id, isImdbId id ∧ rest s = id ++ rest e ∧ pos e = (pos s + length id)%nat.
Proof.
  unfold imdbIdRe, lit, between, cat, chr, digit.
  change (js "tt") with [116; 116]. cbn [List.map foldr Nat.sub].
  rewrite !run_seq. intros Hrun.
  apply run_chr_inv in Hrun as (x1 & xs1 & Hs1 & Hx1 & Hrun). rewrite run_seq in Hrun.
  apply run_chr_inv in Hrun as (x2 & xs2 & Hs2 & Hx2 & Hrun). rewrite run_eps, run_seq in Hrun.
  apply run_times_inv in Hrun as (ds1 & s1 & Hr1 & Hp1 & Hd1 & Hl1 & Hrun).
  apply run_upTo_inv in Hrun as (ds2 & s2 & Hr2 & Hp2 & Hd2 & Hl2 & Hrun).
  rewrite run_eps in Hrun. injection Hrun as <- _.
  apply N.eqb_eq in Hx1 as <-, Hx2 as <-. cbn [rest pos] in *.
  exists (116 :: 116 :: ds1 ++ ds2). split; [|split].
  - exists (ds1 ++ ds2). split; [reflexivity|].
    rewrite length_app. split; [now apply Forall_app|lia].
  - rewrite Hs1, Hs2, Hr1, Hr2. cbn [app]. now rewrite <- app_assoc.
  - cbn [length]. rewrite length_app. lia.
Qed.

Lemma run_imdbIdRe (ds post : list N) (p : nat) (pv : option N) :
  Forall (fun x => isDigit x = true) ds → (5 ≤ length ds ≤ 10)%nat →
  length ds = 10%nat ∨ headNot isDigit post →
  ∃ e, run imdbIdRe (Cursor p pv (js "tt" ++ ds ++ post)) [] accept = Some (e, [])
       ∧ pos e = (p + length (js "tt" ++ ds))%nat.
Proof.
  intros Hds Hlen Hstop.
  pose proof (take_drop 5 ds) as Hsplit.
  assert (length (take 5 ds) = 5%nat) as Ha by (rewrite length_take; lia).
  revert Hsplit Ha. generalize (take 5 ds) (drop 5 ds). intros a b <- Ha.
  apply Forall_app in Hds as [Hda Hdb].
  rewrite length_app in Hlen, Hstop.
  eexists. split.
  - unfold imdbIdRe, lit, between, cat, chr, digit.
    change (js "tt") with [116; 116]. cbn [List.map foldr Nat.sub app].
    rewrite !run_seq, run_chr_cons. cbn [N.eqb Pos.eqb].
    rewrite run_seq, run_chr_cons. cbn [N.eqb Pos.eqb].
    rewrite run_eps, run_seq, <- app_assoc.
    replace (times 5 (Chr isDigit)) with (times (length a) (Chr isDigit))
      by now rewrite Ha.
    rewrite run_seq, run_times_chr by exact Hda.
    apply run_upTo_chr; [exact Hdb|lia|destruct Hstop; [left; lia|now right]|].
    rewrite run_eps. reflexivity.
  - cbn [pos]. change (js "tt") with [116; 116]. cbn [app length].
    rewrite length_app. lia.
Qed.

Lemma imdbIdRe_stop1 (p : nat) (pv : option N) (x : N) (xs : list N) :
  x ≠ 116 → run imdbIdRe (Cursor p pv (x :: xs)) [] accept = None.
Proof.
  intros Hx. unfold imdbIdRe, lit, cat, chr.
  change (js "tt") with [116; 116]. cbn [List.map foldr].
  rewrite !run_seq, run_chr_cons.
  destruct (N.eqb_spec 116 x) as [E|_]; [congruence|reflexivity].
Qed.

Lemma imdbIdRe_stop2 (p : nat) (pv : option N) (y : N) (xs : list N) :
  y ≠ 116 → run imdbIdRe (Cursor p pv (116 :: y :: xs)) [] accept = None.
Proof.
  intros Hy. unfold imdbIdRe, lit, cat, chr.
  change (js "tt") with [116; 116]. cbn [List.map foldr].
  rewrite !run_seq, run_chr_cons. cbn [N.eqb Pos.eqb].
  rewrite run_seq, run_chr_cons.
  destruct (N.eqb_spec 116 y) as [E|_]; [congruence|reflexivity].
Qed.

Lemma imdbIdRe_stop3 (p : nat) (pv : option N) (z : N) (xs : list N) :
  isDigit z = false → run imdbIdRe (Cursor p pv (116 :: 116 :: z :: xs)) [] accept = None.
Proof.
  intros Hz. unfold imdbIdRe, lit, between, cat, chr, digit.
  change (js "tt") with [116; 116]. cbn [List.map foldr times].
  rewrite !run_seq, run_chr_cons. cbn [N.eqb Pos.eqb].
  rewrite run_seq, run_chr_cons. cbn [N.eqb Pos.eqb].
  now rewrite run_eps, !run_seq, run_chr_cons, Hz.
Qed.

(** X9. What the content script takes for the id of the film is a part of
    the address, made of [tt] and five to ten digits. *)
Theorem extractImdbIdFromHref_shape (href : option (list N)) (id : list N) :
  extractImdbIdFromHref href = Some id →
  isImdbId id ∧ ∃ h pre post, href = Some h ∧ h = pre ++ id ++ post.
Proof.
  destruct href as [[|x h]|]; try discriminate. unfold extractImdbIdFromHref.
  destruct (exec imdbIdRe (x :: h)) as [m|] eqn:Hm; [|discriminate].
  intros [= <-]. unfold exec in Hm.
  destruct (search_prefix _ _ _ _ _ Hm) as (pre & Hh & _).
  apply search_found in Hm. destruct m as [s e c]. cbn [start stop groups] in *.
  apply run_imdbIdRe_inv in Hm as (id & Hid & Hrest & Hpos).
  unfold matched. cbn [start stop]. rewrite Hrest, Hpos.
  replace (pos s + length id - pos s)%nat with (length id) by lia.
  rewrite take_app_length. split; [exact Hid|].
  exists (x :: h), pre, (rest e). split; [reflexivity|]. now rewrite Hh, Hrest.
Qed.

Lemma extractImdbIdFromHref_shape_witness :
  isImdbId (js "tt0083658")
  ∧ ∃ h pre post, Some (js "http://www.imdb.com/title/tt0083658/maindetails") = Some h
                  ∧ h = pre ++ js "tt0083658" ++ post.
Proof.
  apply (extractImdbIdFromHref_shape
           (Some (js "http://www.imdb.com/title/tt0083658/maindetails"))).
  vm_compute. reflexivity.
Defined.

Lemma exec_technicalUrl (id : list N) :
  isImdbId id → ∃ m, exec imdbIdRe (technicalUrl id) = Some m ∧ matched m = id.
Proof.
  intros (ds & -> & Hds & Hlen). unfold technicalUrl, exec.
  destruct (run_imdbIdRe ds (js "/technical/") 27 (Some 47) Hds Hlen)
    as (e & Hrun & Hpos); [now right|].
  eexists. split.
  - let l := eval vm_compute in (js "https://www.imdb.com/title/") in
    change (js "https://www.imdb.com/title/") with l.
    cbn [app].
    repeat (rewrite search_eq;
            first [ rewrite imdbIdRe_stop1 by discriminate
                  | rewrite imdbIdRe_stop2 by discriminate
                  | rewrite imdbIdRe_stop3 by reflexivity ]).
    rewrite search_eq. rewrite <- app_assoc, Hrun. reflexivity.
  - unfold matched. cbn [start stop pos rest]. rewrite Hpos.
    replace (27 + length (js "tt" ++ ds) - 27)%nat with (length (js "tt" ++ ds)) by lia.
    now rewrite app_assoc, take_app_length.
Qed.

(** X10. The id of a film is read back from the address of the page that
    the worker fetches for it, which is the address given as the source of
    every result. *)
Theorem extractImdbIdFromHref_sourceUrl (id : list N) :
  isImdbId id →
  extractImdbIdFromHref (Some (technicalUrl id)) = Some id
  ∧ ∀ res r, fetchImdbAspectRatio id res = inr r →
             extractImdbIdFromHref (Some (sourceUrl r)) = Some id.
Proof.
  intros Hid.
  assert (extractImdbIdFromHref (Some (technicalUrl id)) = Some id) as Hurl.
  { destruct (exec_technicalUrl id Hid) as (m & Hm & Hmatched).
    unfold extractImdbIdFromHref. rewrite Hm, Hmatched.
    unfold technicalUrl. reflexivity. }
  split; [exact Hurl|].
  intros res r. unfold fetchImdbAspectRatio.
  destruct (negb (ok res)); [discriminate|].
  destruct (parseAllAspectRatiosFromImdb (text res)); [discriminate|].
  intros [= <-]. exact Hurl.
Qed.

Lemma extractImdbIdFromHref_sourceUrl_witness :
  extractImdbIdFromHref (Some (technicalUrl (js "tt0083658"))) = Some (js "tt0083658").
Proof.
  refine (proj1 (extractImdbIdFromHref_sourceUrl (js "tt0083658") _)).
  exists (js "0083658"). split; [reflexivity|].
  split; [repeat constructor|cbn; lia].
Defined.

(** ** The text of the badge *)

Lemma digitsAux_nonempty (fuel : nat) (n : N) (acc : list N) :
  acc ≠ [] → digitsAux fuel n acc ≠ [].
Proof.
  revert n acc. induction fuel as [|f IH]; intros n acc Hacc; [exact Hacc|].
  cbn [digitsAux]. destruct (n / 10 =? 0); [discriminate|].
  apply IH. discriminate.
Qed.

Lemma digitsOfN_nonempty (n : N) : digitsOfN n ≠ [].
Proof.
  unfold digitsOfN. cbn [digitsAux]. destruct (n / 10 =? 0); [discriminate|].
  apply digitsAux_nonempty. discriminate.
Qed.

Lemma toStringLarge_nonempty (x : float) (X : Z) : toStringLarge x X ≠ [].
Proof.
  unfold toStringLarge.
  destruct (shortestDigits 17 1 x X _) as [s n].
  pose proof (digitsOfN_nonempty (Z.to_N s)) as Hs.
  destruct (digitsOfN (Z.to_N s)) as [|d [|d' ds]]; [congruence|discriminate..].
Qed.

Lemma toStringSmall_nonempty (x : float) (m e : Z) : toStringSmall x m e ≠ [].
Proof.
  unfold toStringSmall.
  destruct (shortestDecimal 17 1 x m e _) as [[s n] k].
  pose proof (digitsOfN_nonempty (Z.to_N s)) as Hs.
  destruct (_ && _).
  { destruct (digitsOfN (Z.to_N s)); [congruence|discriminate]. }
  destruct (_ && _).
  { intros H. apply app_eq_nil in H as [_ H]. discriminate. }
  destruct (_ && _); [discriminate|].
  destruct (digitsOfN (Z.to_N s)) as [|d [|d' ds]]; [congruence|discriminate..].
Qed.

(** The text of a Number is never empty. *)
Lemma numberToString_nonempty (x : float) : numberToString x ≠ [].
Proof.
  destruct x as [s|s| |s m e]; cbn [numberToString]; try discriminate.
  - now destruct s.
  - destruct s; cbn [app].
    + destruct (_ && _); discriminate.
    + destruct (_ && _); [apply toStringLarge_nonempty|apply toStringSmall_nonempty].
Qed.

Lemma length_slice_le (s : list N) (a b : nat) : (length (slice s a b) ≤ b - a)%nat.
Proof. unfold slice. rewrite length_take. lia. Qed.

Lemma slice_nonempty (s : list N) : s ≠ [] → slice s 0 4 ≠ [].
Proof. now destruct s. Qed.

Lemma run_eol_inv (s : cursor) (c : caps) (k : cont) (r : cursor * caps) :
  run Eol s c k = Some r → rest s = [] ∧ k s c = Some r.
Proof. cbn [run]. now destruct (rest s). Qed.

(** The pattern of the badge on a number followed by [:1]. *)
Lemma exec_badgeRe (n : list N) :
  numberToken n →
  ∃ m, exec badgeRe (n ++ js ":1") = Some m ∧ groupText 1 m = n.
Proof.
  intros Hn. unfold exec. rewrite search_eq.
  assert (∃ e, run badgeRe (Cursor 0 None (n ++ js ":1")) [] accept
               = Some (e, [(1%nat, n)])) as (e & ->).
  { eexists. unfold badgeRe, cat. cbn [foldr].
    rewrite run_seq, run_bol. cbn [Nat.eqb]. rewrite run_seq, run_group.
    apply run_numberRe; [exact Hn|reflexivity|].
    cbn [pos rest]. rewrite Nat.add_0_l, Nat.sub_0_r, take_app_length.
    unfold lit, cat, chr. change (js ":1") with [58; 49]. cbn [List.map foldr].
    rewrite !run_seq, run_chr_cons. cbn [N.eqb Pos.eqb].
    rewrite run_seq, run_chr_cons. cbn [N.eqb Pos.eqb].
    rewrite run_eps, run_seq. cbn [run rest]. reflexivity. }
  eexists. split; [reflexivity|]. reflexivity.
Qed.

(** The first group of a match of the pattern of the badge holds a code
    unit at least. *)
Lemma exec_badgeRe_group (r : list N) (m : found) :
  exec badgeRe r = Some m → groupText 1 m ≠ [].
Proof.
  unfold exec. intros Hm. apply search_found in Hm.
  destruct m as [s e c]. cbn [start stop groups] in Hm.
  unfold groupText. cbn [groups].
  unfold badgeRe, cat in Hm. cbn [foldr] in Hm.
  rewrite run_seq in Hm. cbn [run] in Hm.
  destruct (pos s =? 0)%nat; [|discriminate].
  change (run (Seq (Group 1 numberRe) (Seq (lit ":1") (Seq Eol Eps))) s [] accept
          = Some (e, c)) in Hm.
  rewrite run_seq, run_group in Hm.
  unfold numberRe, cat, plus, digit in Hm. cbn [foldr] in Hm.
  rewrite !run_seq in Hm.
  apply run_chr_inv in Hm as (x & xs & Hs & Hx & Hm).
  apply run_reach in Hm as (s2 & c2 & H2 & Hm).
  apply run_reach in Hm as (s3 & c3 & H3 & Hm).
  unfold lit, cat, chr in Hm. change (js ":1") with [58; 49] in Hm.
  cbn [List.map foldr] in Hm. rewrite !run_seq in Hm.
  apply run_chr_inv in Hm as (y1 & ys1 & _ & _ & Hm). rewrite run_seq in Hm.
  apply run_chr_inv in Hm as (y2 & ys2 & _ & _ & Hm).
  rewrite run_eps, run_seq in Hm.
  apply run_eol_inv in Hm as [_ Hm]. rewrite run_eps in Hm.
  injection Hm as _ <-. cbn [group Nat.eqb default from_option id].
  unfold reach in H2, H3. cbn [pos rest] in H2, H3. rewrite Hs.
  destruct (pos s3 - pos s)%nat eqn:Hd; [lia|discriminate].
Qed.

(** X11. The text of the badge for a ratio [N:1] is the first four code
    units of the number [N]; for a number of four code units or more, such
    as the one of a canonical ratio, these are the first four code units of
    the ratio. *)
Theorem formatBadgeTextForIcon_number (n : list N) :
  numberToken n →
  formatBadgeTextForIcon (Some (n ++ js ":1")) = take 4 n
  ∧ ((4 ≤ length n)%nat →
     formatBadgeTextForIcon (Some (n ++ js ":1")) = take 4 (n ++ js ":1")).
Proof.
  intros Hn.
  assert (formatBadgeTextForIcon (Some (n ++ js ":1")) = take 4 n) as H.
  { destruct (exec_badgeRe n Hn) as (m & Hm & Hg).
    destruct (numberToken_head n Hn) as (x & n' & -> & _).
    unfold formatBadgeTextForIcon. cbn [app]. cbn [app] in Hm.
    rewrite Hm, Hg. reflexivity. }
  split; [exact H|]. intros Hlen. rewrite H.
  now rewrite take_app_le by lia.
Qed.

Lemma formatBadgeTextForIcon_number_witness :
  formatBadgeTextForIcon (Some (js "2.39:1")) = js "2.39".
Proof.
  refine (proj1 (formatBadgeTextForIcon_number (js "2.39") _)).
  exists (js "2"), (js "39").
  split; [discriminate|]. split; [repeat constructor|].
  split; [repeat constructor|]. right. split; [discriminate|reflexivity].
Defined.

(** X12. The text of the badge has four code units at most, and it is empty
    for a missing or empty ratio only. *)
Theorem formatBadgeTextForIcon_short (ratio : option (list N)) :
  (length (formatBadgeTextForIcon ratio) ≤ 4)%nat
  ∧ (formatBadgeTextForIcon ratio = [] ↔ ratio = None ∨ ratio = Some []).
Proof.
  destruct ratio as [[|x r]|]; cbn [formatBadgeTextForIcon].
  1,3: split; [cbn; lia|split; auto].
  destruct (exec badgeRe (x :: r)) as [m|] eqn:Hm.
  - split; [apply (length_slice_le _ 0 4)|].
    split; [|intros [H|H]; discriminate].
    intros H. apply exec_badgeRe_group in Hm.
    now apply slice_nonempty in Hm.
  - assert ((length (slice (x :: r) 0 4) ≤ 4)%nat
            ∧ (slice (x :: r) 0 4 = [] ↔ None = Some (x :: r) ∨ Some (x :: r) = Some []))
      as Hraw.
    { split; [apply (length_slice_le _ 0 4)|].
      split; [discriminate|intros [H|H]; discriminate]. }
    destruct (ratioToNumber (x :: r)) as [v|].
    + destruct (truthy v).
      * split; [apply (length_slice_le _ 0 4)|].
        split; [|intros [H|H]; discriminate].
        intros H. now apply slice_nonempty in H; [|apply numberToString_nonempty].
      * split; [apply Hraw|]. split; [discriminate|intros [H|H]; discriminate].
    + split; [apply Hraw|]. split; [discriminate|intros [H|H]; discriminate].
Qed.

(** ** The cache and the handlers *)

(** The badge is the only thing [updateBadgeForTab] writes. *)
Lemma updateBadgeForTab_actions (t : Z) (w : World) :
  ∃ a, updateBadgeForTab t w = setActions a w.
Proof.
  unfold updateBadgeForTab.
  destruct (TAB_DATA w !! t) as [d|]; [destruct (given (Tab.aspectRatio d))|];
    eexists; reflexivity.
Qed.

Lemma cacheKey_inj (a b : list N) : cacheKey a = cacheKey b → a = b.
Proof. unfold cacheKey. apply app_inv_head. Qed.

Ltac frame :=
  repeat match goal with
         | |- context [updateBadgeForTab ?t ?w] =>
             let a := fresh "a" in
             destruct (updateBadgeForTab_actions t w) as [a ->]
         end;
  cbv [saveTabData setTab setTAB_DATA setActions saveStatus setSTATUS
       setCached setStorageLocal getCached
       storageLocal sessionStatus sessionTabData STATUS TAB_DATA
       lastImdbRequestTime actions waited requested fst snd
       lastImdbId lastStatus lastAspectRatio lastFilmTitle lastError lastUpdate
       totalFetches cacheHits imdbRequests
       startFetching markSuccess markError countHit countRequest].

Lemma freshRecord_Some (now : Z) (c : Cache.record) :
  Cache.fetchedAt c ≠ 0%Z → (now - Cache.fetchedAt c < CACHE_TTL_MS)%Z →
  freshRecord now (Some c) = Some c.
Proof.
  intros H0 Hlt. unfold freshRecord.
  destruct (Z.eqb_spec (Cache.fetchedAt c) 0) as [|_]; [contradiction|].
  destruct (Z.ltb_spec (now - Cache.fetchedAt c) CACHE_TTL_MS) as [_|]; [|lia].
  reflexivity.
Qed.

(** A request from a normal window for which the cache holds a fresh
    record. *)
Lemma getAspectRatio_hit (env : Env) (imdbId : list N)
    (filmTitle : option (list N)) (sender : option Sender.tab) (w : World)
    (c : Cache.record) :
  isIncognito sender = false →
  freshRecord (timeOfMessage env) (getCached imdbId w) = Some c →
  ∃ w', getAspectRatio env imdbId filmTitle sender w = (w', ReplyData c)
        ∧ requested w' = requested w ∧ waited w' = waited w
        ∧ storageLocal w' = storageLocal w
        ∧ lastImdbRequestTime w' = lastImdbRequestTime w
        ∧ totalFetches (STATUS w') = totalFetches (STATUS w) + 1
        ∧ imdbRequests (STATUS w') = imdbRequests (STATUS w)
        ∧ cacheHits (STATUS w') = cacheHits (STATUS w) + 1
        ∧ sessionStatus w' = Some (STATUS w').
Proof.
  intros Hinc Hfresh. unfold getAspectRatio. rewrite Hinc. cbn [negb].
  replace (getCached imdbId (saveStatus (setSTATUS _ w)))
    with (getCached imdbId w) by reflexivity.
  rewrite Hfresh. eexists. split; [reflexivity|].
  destruct (givenTab sender) as [t|]; frame; repeat apply conj; reflexivity.
Qed.

(** A request that finds no fresh record, or comes from a private window,
    and is answered with a result. *)
Lemma getAspectRatio_fetch (env : Env) (imdbId : list N)
    (filmTitle : option (list N)) (sender : option Sender.tab) (w : World)
    (r : AspectRatioResult) :
  isIncognito sender = true ∨ freshRecord (timeOfMessage env) (getCached imdbId w) = None →
  fetchOutcome env imdbId = inr r →
  ∃ w', getAspectRatio env imdbId filmTitle sender w
        = (w', ReplyData (Cache.mk r (timeOfRecord env)))
        ∧ requested w' = technicalUrl imdbId :: requested w
        ∧ lastImdbRequestTime w' = timeOfRequest env
        ∧ totalFetches (STATUS w') = totalFetches (STATUS w) + 1
        ∧ imdbRequests (STATUS w') = imdbRequests (STATUS w) + 1
        ∧ cacheHits (STATUS w') = cacheHits (STATUS w)
        ∧ (∀ t, givenTab sender = Some t →
                TAB_DATA w' = <[t := tabEntry imdbId r filmTitle]> (TAB_DATA w))
        ∧ (givenTab sender = None → TAB_DATA w' = TAB_DATA w)
        ∧ (if isIncognito sender
           then storageLocal w' = storageLocal w
                ∧ sessionStatus w' = sessionStatus w
                ∧ sessionTabData w' = sessionTabData w
           else storageLocal w'
                = <[cacheKey imdbId := Cache.mk r (timeOfRecord env)]> (storageLocal w)
                ∧ sessionStatus w' = Some (STATUS w')
                ∧ (∀ t, givenTab sender = Some t →
                        sessionTabData w' = Some (TAB_DATA w'))).
Proof.
  intros Hmiss Hout. unfold getAspectRatio.
  assert (freshRecord (timeOfMessage env)
            (if negb (isIncognito sender)
             then getCached imdbId
                    (if negb (isIncognito sender)
                     then saveStatus
                            (setSTATUS (startFetching imdbId filmTitle (isoTime env)
                                          (STATUS w)) w)
                     else setSTATUS (startFetching imdbId filmTitle (isoTime env)
                                       (STATUS w)) w)
             else None) = None) as ->.
  { destruct (isIncognito sender); [reflexivity|].
    destruct Hmiss as [|Hmiss]; [discriminate|exact Hmiss]. }
  unfold fetchImdbAspectRatioAt. rewrite Hout.
  eexists. split; [reflexivity|].
  destruct (isIncognito sender), (givenTab sender) as [t|]; cbn [negb]; frame;
    repeat apply conj; try reflexivity; try discriminate;
    intros ? [= <-]; reflexivity.
Qed.

(** A request that finds no fresh record, or comes from a private window,
    and fails. *)
Lemma getAspectRatio_error (env : Env) (imdbId : list N)
    (filmTitle : option (list N)) (sender : option Sender.tab) (w : World)
    (name message : list N) :
  isIncognito sender = true ∨ freshRecord (timeOfMessage env) (getCached imdbId w) = None →
  fetchOutcome env imdbId = inl (name, message) →
  ∃ w', getAspectRatio env imdbId filmTitle sender w
        = (w', ReplyError (errorText name message))
        ∧ requested w' = technicalUrl imdbId :: requested w
        ∧ storageLocal w' = storageLocal w
        ∧ TAB_DATA w' = TAB_DATA w
        ∧ sessionTabData w' = sessionTabData w
        ∧ actions w' = actions w
        ∧ lastStatus (STATUS w') = js "error"
        ∧ lastError (STATUS w') = Some (errorText name message)
        ∧ totalFetches (STATUS w') = totalFetches (STATUS w) + 1
        ∧ imdbRequests (STATUS w') = imdbRequests (STATUS w) + 1
        ∧ cacheHits (STATUS w') = cacheHits (STATUS w)
        ∧ (if isIncognito sender then sessionStatus w' = sessionStatus w
           else sessionStatus w' = Some (STATUS w')).
Proof.
  intros Hmiss Hout. unfold getAspectRatio.
  assert (freshRecord (timeOfMessage env)
            (if negb (isIncognito sender)
             then getCached imdbId
                    (if negb (isIncognito sender)
                     then saveStatus
                            (setSTATUS (startFetching imdbId filmTitle (isoTime env)
                                          (STATUS w)) w)
                     else setSTATUS (startFetching imdbId filmTitle (isoTime env)
                                       (STATUS w)) w)
             else None) = None) as ->.
  { destruct (isIncognito sender); [reflexivity|].
    destruct Hmiss as [|Hmiss]; [discriminate|exact Hmiss]. }
  unfold fetchImdbAspectRatioAt. rewrite Hout.
  eexists. split; [reflexivity|].
  destruct (isIncognito sender); cbn [negb]; frame; repeat apply conj; reflexivity.
Qed.

Lemma updateBadgeForTab_entry (t : Z) (w : World) (d : Tab.data) :
  TAB_DATA w !! t = Some d → given (Tab.aspectRatio d) = true →
  actions (updateBadgeForTab t w)
  = <[t := mkAction (formatBadgeTextForIcon (Tab.aspectRatio d))
             (Some (js "#4CAF50")) (titleForTab d)]> (actions w).
Proof.
  intros Hd Hg. unfold updateBadgeForTab. now rewrite Hd, Hg.
Qed.

(** X13. A request from a normal window for a film whose record in the
    cache is less than thirty days old is answered with this record: no
    request is sent to IMDb, the cache is left as it is, and the request is
    counted as a hit. *)
Theorem getAspectRatio_cache_hit (env : Env) (imdbId : list N)
    (filmTitle : option (list N)) (sender : option Sender.tab) (w : World)
    (c : Cache.record) :
  isIncognito sender = false →
  getCached imdbId w = Some c →
  Cache.fetchedAt c ≠ 0%Z →
  (timeOfMessage env - Cache.fetchedAt c < 30 * 24 * 60 * 60 * 1000)%Z →
  ∃ w', getAspectRatio env imdbId filmTitle sender w = (w', ReplyData c)
        ∧ requested w' = requested w
        ∧ waited w' = waited w
        ∧ storageLocal w' = storageLocal w
        ∧ lastImdbRequestTime w' = lastImdbRequestTime w
        ∧ imdbRequests (STATUS w') = imdbRequests (STATUS w)
        ∧ cacheHits (STATUS w') = cacheHits (STATUS w) + 1.
Proof.
  intros Hinc Hc H0 Hage.
  destruct (getAspectRatio_hit env imdbId filmTitle sender w c Hinc)
    as (w' & Hrun & Hreq & Hwait & Hsto & Hlast & _ & Hn & Hh & _).
  { rewrite Hc. now apply freshRecord_Some. }
  exists w'. repeat apply conj; assumption.
Qed.

Lemma getAspectRatio_cache_hit_witness :
  ∃ w', getAspectRatio (envAt 5000 (Rejected [] [])) bladeRunner None
          (normalTab 7) cachedWorld
        = (w', ReplyData (Cache.mk bladeRunnerResult 1000))
        ∧ requested w' = requested cachedWorld
        ∧ waited w' = waited cachedWorld
        ∧ storageLocal w' = storageLocal cachedWorld
        ∧ lastImdbRequestTime w' = lastImdbRequestTime cachedWorld
        ∧ imdbRequests (STATUS w') = imdbRequests (STATUS cachedWorld)
        ∧ cacheHits (STATUS w') = cacheHits (STATUS cachedWorld) + 1.
Proof.
  apply getAspectRatio_cache_hit.
  - reflexivity.
  - vm_compute. reflexivity.
  - discriminate.
  - reflexivity.
Defined.

(** X14. A result fetched for a normal window is kept: the next request for
    the same film within thirty days, from any normal window, is answered
    with the same record and sends no request, so that one request in all
    has been sent; the records of the other films are left as they
    were. *)
Theorem getAspectRatio_fetch_then_hit (env1 env2 : Env) (imdbId : list N)
    (title1 title2 : option (list N)) (sender1 sender2 : option Sender.tab)
    (w : World) (r : AspectRatioResult) :
  isIncognito sender1 = false → isIncognito sender2 = false →
  freshRecord (timeOfMessage env1) (getCached imdbId w) = None →
  fetchOutcome env1 imdbId = inr r →
  timeOfRecord env1 ≠ 0%Z →
  (timeOfMessage env2 - timeOfRecord env1 < 30 * 24 * 60 * 60 * 1000)%Z →
  ∃ w1 w2,
    getAspectRatio env1 imdbId title1 sender1 w
    = (w1, ReplyData (Cache.mk r (timeOfRecord env1)))
    ∧ getAspectRatio env2 imdbId title2 sender2 w1
      = (w2, ReplyData (Cache.mk r (timeOfRecord env1)))
    ∧ requested w2 = technicalUrl imdbId :: requested w
    ∧ ∀ other, other ≠ imdbId → getCached other w2 = getCached other w.
Proof.
  intros Hinc1 Hinc2 Hmiss Hout H0 Hage.
  destruct (getAspectRatio_fetch env1 imdbId title1 sender1 w r
              (or_intror Hmiss) Hout)
    as (w1 & Hrun1 & Hreq1 & _ & _ & _ & _ & _ & _ & Hsto).
  rewrite Hinc1 in Hsto. destruct Hsto as (Hsto & _ & _).
  destruct (getAspectRatio_hit env2 imdbId title2 sender2 w1
              (Cache.mk r (timeOfRecord env1)) Hinc2)
    as (w2 & Hrun2 & Hreq2 & _ & Hsto2 & _).
  { unfold getCached. rewrite Hsto, lookup_insert_eq.
    now apply freshRecord_Some. }
  exists w1, w2. repeat apply conj; try assumption.
  - now rewrite Hreq2.
  - intros other Hother. unfold getCached. rewrite Hsto2, Hsto.
    apply lookup_insert_ne. intros Hkey. apply cacheKey_inj in Hkey. congruence.
Qed.

Lemma getAspectRatio_fetch_then_hit_witness :
  ∃ w1 w2,
    getAspectRatio (envAt 1000 (Answered technicalPage)) bladeRunner None
      (normalTab 7) (startedWith ∅)
    = (w1, ReplyData (Cache.mk bladeRunnerResult 1000))
    ∧ getAspectRatio (envAt 5000 (Rejected [] [])) bladeRunner None
        (normalTab 8) w1
      = (w2, ReplyData (Cache.mk bladeRunnerResult 1000))
    ∧ requested w2 = technicalUrl bladeRunner :: requested (startedWith ∅)
    ∧ ∀ other, other ≠ bladeRunner →
               getCached other w2 = getCached other (startedWith ∅).
Proof.
  apply (getAspectRatio_fetch_then_hit (envAt 1000 (Answered technicalPage))
           (envAt 5000 (Rejected [] [])) bladeRunner None None
           (normalTab 7) (normalTab 8) (startedWith ∅) bladeRunnerResult).
  - reflexivity.
  - reflexivity.
  - reflexivity.
  - vm_compute. reflexivity.
  - discriminate.
  - reflexivity.
Defined.

(** X15. A request from a private window leaves both storage areas as they
    are, whatever comes of it, and it never uses the cache: a request is
    sent to IMDb. *)
Theorem getAspectRatio_incognito (env : Env) (imdbId : list N)
    (filmTitle : option (list N)) (sender : option Sender.tab) (w : World) :
  isIncognito sender = true →
  ∃ w' reply,
    getAspectRatio env imdbId filmTitle sender w = (w', reply)
    ∧ storageLocal w' = storageLocal w
    ∧ sessionStatus w' = sessionStatus w
    ∧ sessionTabData w' = sessionTabData w
    ∧ requested w' = technicalUrl imdbId :: requested w.
Proof.
  intros Hinc. destruct (fetchOutcome env imdbId) as [[name message]|r] eqn:Hout.
  - destruct (getAspectRatio_error env imdbId filmTitle sender w name message
                (or_introl Hinc) Hout)
      as (w' & Hrun & Hreq & Hsto & _ & Htab & _ & _ & _ & _ & _ & _ & Hst).
    rewrite Hinc in Hst. exists w', (ReplyError (errorText name message)).
    repeat apply conj; assumption.
  - destruct (getAspectRatio_fetch env imdbId filmTitle sender w r
                (or_introl Hinc) Hout)
      as (w' & Hrun & Hreq & _ & _ & _ & _ & _ & _ & Hsto).
    rewrite Hinc in Hsto. destruct Hsto as (Hsto & Hst & Htab).
    exists w', (ReplyData (Cache.mk r (timeOfRecord env))).
    repeat apply conj; assumption.
Qed.

Lemma getAspectRatio_incognito_witness :
  ∃ w' reply,
    getAspectRatio (envAt 5000 (Answered technicalPage)) bladeRunner None
      (privateTab 7) cachedWorld = (w', reply)
    ∧ storageLocal w' = storageLocal cachedWorld
    ∧ sessionStatus w' = sessionStatus cachedWorld
    ∧ sessionTabData w' = sessionTabData cachedWorld
    ∧ requested w' = technicalUrl bladeRunner :: requested cachedWorld.
Proof.
  apply getAspectRatio_incognito. reflexivity.
Defined.

(** X16. When the request for a film without a fresh record fails, the
    answer carries the message of the error, or its name if it has no
    message; nothing is written to the cache, to the table of the tabs or
    to the badges, and the status is [error]. *)
Theorem getAspectRatio_failure (env : Env) (imdbId : list N)
    (filmTitle : option (list N)) (sender : option Sender.tab) (w : World)
    (name message : list N) :
  freshRecord (timeOfMessage env) (getCached imdbId w) = None →
  fetchOutcome env imdbId = inl (name, message) →
  ∃ w', getAspectRatio env imdbId filmTitle sender w
        = (w', ReplyError (if bool_decide (message = []) then name else message))
        ∧ storageLocal w' = storageLocal w
        ∧ TAB_DATA w' = TAB_DATA w
        ∧ sessionTabData w' = sessionTabData w
        ∧ actions w' = actions w
        ∧ lastStatus (STATUS w') = js "error"
        ∧ lastError (STATUS w')
          = Some (if bool_decide (message = []) then name else message).
Proof.
  intros Hmiss Hout.
  destruct (getAspectRatio_error env imdbId filmTitle sender w name message
              (or_intror Hmiss) Hout)
    as (w' & Hrun & _ & Hsto & Htab & Hsaved & Hact & Hst & Herr & _).
  assert (errorText name message
          = if bool_decide (message = []) then name else message) as Htext
    by now destruct message.
  rewrite Htext in Hrun, Herr.
  exists w'. repeat apply conj; assumption.
Qed.

Lemma getAspectRatio_failure_witness :
  ∃ w', getAspectRatio (envAt 5000 (Rejected (js "TypeError") (js "Failed to fetch")))
          bladeRunner None (normalTab 7) (startedWith ∅)
        = (w', ReplyError (js "Failed to fetch"))
        ∧ storageLocal w' = storageLocal (startedWith ∅)
        ∧ TAB_DATA w' = TAB_DATA (startedWith ∅)
        ∧ sessionTabData w' = sessionTabData (startedWith ∅)
        ∧ actions w' = actions (startedWith ∅)
        ∧ lastStatus (STATUS w') = js "error"
        ∧ lastError (STATUS w') = Some (js "Failed to fetch").
Proof.
  apply (getAspectRatio_failure
           (envAt 5000 (Rejected (js "TypeError") (js "Failed to fetch")))
           bladeRunner None (normalTab 7) (startedWith ∅)
           (js "TypeError") (js "Failed to fetch")); reflexivity.
Defined.

(** X17. The rate limit: if the timer does not fire before the wait is
    over, the request is sent a second at least after the one before it;
    and when the clock has not gone back since that one, the wait is a
    second at most. *)
Theorem fetchImdbAspectRatioAt_rate_limit (env : Env) (imdbId : list N)
    (w : World) :
  (timeOfFetch env
   + default 0 (rateLimitDelay (timeOfFetch env) (lastImdbRequestTime w))
   ≤ timeOfRequest env)%Z →
  let w' := fst (fetchImdbAspectRatioAt env imdbId w) in
  (lastImdbRequestTime w + 1000 ≤ lastImdbRequestTime w')%Z
  ∧ (∀ d, rateLimitDelay (timeOfFetch env) (lastImdbRequestTime w) = Some d →
          waited w' = d :: waited w
          ∧ (0 < d)%Z
          ∧ ((lastImdbRequestTime w ≤ timeOfFetch env)%Z → (d ≤ 1000)%Z))
  ∧ (rateLimitDelay (timeOfFetch env) (lastImdbRequestTime w) = None →
     waited w' = waited w).
Proof.
  unfold fetchImdbAspectRatioAt, rateLimitDelay, MIN_REQUEST_INTERVAL_MS.
  cbn [fst lastImdbRequestTime waited].
  destruct (Z.ltb_spec (timeOfFetch env - lastImdbRequestTime w) 1000) as [Hlt|Hge];
    cbn [default from_option id]; intros Htimer.
  - split; [unfold id in Htimer; lia|]. split; [|discriminate].
    intros d [= <-]. split; [reflexivity|]. lia.
  - split; [unfold id in Htimer; lia|]. split; [discriminate|reflexivity].
Qed.

Lemma fetchImdbAspectRatioAt_rate_limit_witness :
  let w := startedWith ∅ in
  let env := mkEnv [] 300 300 1000 (Rejected [] []) 1000 in
  let w' := fst (fetchImdbAspectRatioAt env bladeRunner w) in
  (lastImdbRequestTime w + 1000 ≤ lastImdbRequestTime w')%Z
  ∧ (∀ d, rateLimitDelay (timeOfFetch env) (lastImdbRequestTime w) = Some d →
          waited w' = d :: waited w
          ∧ (0 < d)%Z
          ∧ ((lastImdbRequestTime w ≤ timeOfFetch env)%Z → (d ≤ 1000)%Z))
  ∧ (rateLimitDelay (timeOfFetch env) (lastImdbRequestTime w) = None →
     waited w' = waited w).
Proof.
  apply (fetchImdbAspectRatioAt_rate_limit
           (mkEnv [] 300 300 1000 (Rejected [] []) 1000) bladeRunner
           (startedWith ∅)).
  vm_compute. discriminate.
Defined.

(** X18. The table of the tabs is saved whole.  The entry made for a tab of
    a private window is not saved by the request that makes it, but the
    next request that is answered with a result for a tab of a normal
    window saves the table with this entry in it. *)
Theorem getAspectRatio_private_entry_saved (env1 env2 : Env)
    (id1 id2 : list N) (title1 title2 : option (list N)) (t1 t2 : Z)
    (w : World) (r1 : AspectRatioResult) (c2 : Cache.record) :
  t1 ≠ 0%Z → t2 ≠ 0%Z → t1 ≠ t2 →
  fetchOutcome env1 id1 = inr r1 →
  let w1 := fst (getAspectRatio env1 id1 title1 (privateTab t1) w) in
  let w2 := fst (getAspectRatio env2 id2 title2 (normalTab t2) w1) in
  snd (getAspectRatio env2 id2 title2 (normalTab t2) w1) = ReplyData c2 →
  sessionTabData w1 = sessionTabData w
  ∧ ∃ saved, sessionTabData w2 = Some saved
             ∧ saved !! t1 = Some (tabEntry id1 r1 title1).
Proof.
  intros Ht1 Ht2 Hne Hout1 w1 w2 Hreply.
  assert (givenTab (privateTab t1) = Some t1) as Hg1.
  { unfold givenTab, privateTab. cbn [Sender.id].
    now destruct (Z.eqb_spec t1 0). }
  assert (givenTab (normalTab t2) = Some t2) as Hg2.
  { unfold givenTab, normalTab. cbn [Sender.id].
    now destruct (Z.eqb_spec t2 0). }
  destruct (getAspectRatio_fetch env1 id1 title1 (privateTab t1) w r1
              (or_introl eq_refl) Hout1)
    as (w1' & Hrun1 & _ & _ & _ & _ & _ & Htab1 & _ & Hsto1).
  cbn [isIncognito privateTab Sender.incognito] in Hsto1.
  destruct Hsto1 as (_ & _ & Hsaved1).
  specialize (Htab1 t1 Hg1).
  subst w2 w1. revert Hreply. rewrite Hrun1. cbn [fst]. clear Hrun1.
  intros Hreply. split; [exact Hsaved1|]. clear Hsaved1.
  destruct w1' as [sl ss st S T last act wt rq]. cbn [TAB_DATA] in Htab1.
  subst T. revert Hreply. unfold getAspectRatio.
  cbn [isIncognito normalTab Sender.incognito negb]. fold (normalTab t2).
  rewrite Hg2.
  destruct (freshRecord _ _) as [c|].
  - intros _. frame. eexists. split; [reflexivity|].
    rewrite lookup_insert_ne by congruence. apply lookup_insert_eq.
  - unfold fetchImdbAspectRatioAt.
    destruct (fetchOutcome env2 id2) as [[name message]|r2]; [discriminate|].
    intros _. frame. eexists. split; [reflexivity|].
    rewrite lookup_insert_ne by congruence. apply lookup_insert_eq.
Qed.

Lemma getAspectRatio_private_entry_saved_witness :
  let env := envAt 5000 (Answered technicalPage) in
  let w1 := fst (getAspectRatio env bladeRunner None (privateTab 7) (startedWith ∅)) in
  let w2 := fst (getAspectRatio env bladeRunner None (normalTab 8) w1) in
  sessionTabData w1 = sessionTabData (startedWith ∅)
  ∧ ∃ saved, sessionTabData w2 = Some saved
             ∧ saved !! 7%Z = Some (tabEntry bladeRunner bladeRunnerResult None).
Proof.
  apply (getAspectRatio_private_entry_saved
           (envAt 5000 (Answered technicalPage))
           (envAt 5000 (Answered technicalPage))
           bladeRunner bladeRunner None None 7 8 (startedWith ∅)
           bladeRunnerResult (Cache.mk bladeRunnerResult 5000)).
  - discriminate.
  - discriminate.
  - discriminate.
  - vm_compute. reflexivity.
  - vm_compute. reflexivity.
Defined.


Lemma getAspectRatio_counted (env : Env) (imdbId : list N)
    (filmTitle : option (list N)) (sender : option Sender.tab) (w : World) :
  countedWorld w →
  countedWorld (fst (getAspectRatio env imdbId filmTitle sender w)).
Proof.
  intros [Hc Hs]. unfold countedWorld, counted in *.
  destruct (isIncognito sender) eqn:Hinc.
  - destruct (fetchOutcome env imdbId) as [[name message]|r] eqn:Hout.
    + destruct (getAspectRatio_error env imdbId filmTitle sender w name message
                  (or_introl Hinc) Hout)
        as (w' & -> & _ & _ & _ & _ & _ & _ & _ & Ht & Hn & Hh & Hst).
      rewrite Hinc in Hst. cbn [fst]. rewrite Ht, Hn, Hh, Hst.
      split; [lia|exact Hs].
    + destruct (getAspectRatio_fetch env imdbId filmTitle sender w r
                  (or_introl Hinc) Hout)
        as (w' & -> & _ & _ & Ht & Hn & Hh & _ & _ & Hsto).
      rewrite Hinc in Hsto. destruct Hsto as (_ & Hst & _).
      cbn [fst]. rewrite Ht, Hn, Hh, Hst. split; [lia|exact Hs].
  - destruct (freshRecord (timeOfMessage env) (getCached imdbId w)) as [c|] eqn:Hf.
    + destruct (getAspectRatio_hit env imdbId filmTitle sender w c Hinc Hf)
        as (w' & -> & _ & _ & _ & _ & Ht & Hn & Hh & Hst).
      cbn [fst]. rewrite Hst, Ht, Hn, Hh.
      split; [lia|]. intros s [= <-]. rewrite Ht, Hn, Hh. lia.
    + destruct (fetchOutcome env imdbId) as [[name message]|r] eqn:Hout.
      * destruct (getAspectRatio_error env imdbId filmTitle sender w name message
                    (or_intror Hf) Hout)
          as (w' & -> & _ & _ & _ & _ & _ & _ & _ & Ht & Hn & Hh & Hst).
        rewrite Hinc in Hst. cbn [fst]. rewrite Hst, Ht, Hn, Hh.
        split; [lia|]. intros s [= <-]. rewrite Ht, Hn, Hh. lia.
      * destruct (getAspectRatio_fetch env imdbId filmTitle sender w r
                    (or_intror Hf) Hout)
          as (w' & -> & _ & _ & Ht & Hn & Hh & _ & _ & Hsto).
        rewrite Hinc in Hsto. destruct Hsto as (_ & Hst & _).
        cbn [fst]. rewrite Hst, Ht, Hn, Hh.
        split; [lia|]. intros s [= <-]. rewrite Ht, Hn, Hh. lia.
Qed.

Lemma updateStatus_counted (env : Env) (msg : Msg.t)
    (sender : option Sender.tab) (w : World) :
  countedWorld w → countedWorld (updateStatus env msg sender w).
Proof.
  intros [Hc Hs]. unfold countedWorld, counted in *. unfold updateStatus.
  destruct (givenTab sender) as [t|]; [destruct (given (Msg.aspectRatio msg))|];
    frame; (split; [exact Hc|intros s [= <-]; exact Hc]).
Qed.

Lemma handle_counted (w : World) (e : event) :
  countedWorld w → countedWorld (handle w e).
Proof.
  intros Hw. destruct e as [env [m|] sender|t|t [|]|t|]; cbn [handle].
  - unfold onMessage.
    destruct (_ && _); [now apply getAspectRatio_counted|].
    destruct (bool_decide _); [now apply updateStatus_counted|].
    destruct (bool_decide _); exact Hw.
  - exact Hw.
  - unfold onActivated, countedWorld. now frame.
  - unfold onUpdated, countedWorld. now frame.
  - exact Hw.
  - exact Hw.
  - destruct Hw as [Hc Hs]. unfold onStartup, countedWorld.
    cbn [STATUS sessionStatus]. split; [|exact Hs].
    destruct (sessionStatus w) as [s|]; cbn; [now apply Hs|reflexivity].
Qed.

(** X19. When the events are handled one after the other, every request
    counted is counted once more, as a hit of the cache or as a request to
    IMDb: from a worker that has just started with an empty session
    storage, whatever the events, the total is the sum of the two, in
    memory and in the status saved. *)
Theorem handleAll_counted (local : gmap (list N) Cache.record)
    (es : list event) :
  let w := handleAll (startedWith local) es in
  totalFetches (STATUS w) = cacheHits (STATUS w) + imdbRequests (STATUS w)
  ∧ ∀ s, sessionStatus w = Some s →
         totalFetches s = cacheHits s + imdbRequests s.
Proof.
  assert (∀ w, countedWorld w → countedWorld (handleAll w es)) as H.
  { unfold handleAll. induction es as [|e es IH]; intros w Hw; [exact Hw|].
    cbn [fold_left]. apply IH. now apply handle_counted. }
  apply (H (startedWith local)). split; [reflexivity|discriminate].
Qed.

(** X20. When a request from a tab is answered with a result whose ratio is
    [N:1], the badge of the icon for this tab shows the first four code
    units of the number [N], on the green background; the badges of the
    other tabs are left as they are. *)
Theorem getAspectRatio_badge (env : Env) (imdbId : list N)
    (filmTitle : option (list N)) (sender : option Sender.tab) (w : World)
    (c : Cache.record) (t : Z) (n : list N) :
  givenTab sender = Some t →
  snd (getAspectRatio env imdbId filmTitle sender w) = ReplyData c →
  aspectRatio (Cache.data c) = Some (n ++ js ":1") →
  numberToken n →
  let w' := fst (getAspectRatio env imdbId filmTitle sender w) in
  (∃ a, actions w' !! t = Some a
        ∧ badgeText a = take 4 n
        ∧ badgeBackgroundColor a = Some (js "#4CAF50"))
  ∧ (∀ t', t' ≠ t → actions w' !! t' = actions w !! t')
  ∧ TAB_DATA w' !! t = Some (tabEntry imdbId (Cache.data c) filmTitle).
Proof.
  intros Htab Hreply Hratio Hn w'.
  assert (given (Tab.aspectRatio (tabEntry imdbId (Cache.data c) filmTitle)) = true)
    as Hgiven.
  { cbn [tabEntry Tab.aspectRatio]. rewrite Hratio.
    destruct (numberToken_head n Hn) as (x & n' & -> & _). reflexivity. }
  assert (formatBadgeTextForIcon
            (Tab.aspectRatio (tabEntry imdbId (Cache.data c) filmTitle))
          = take 4 n) as Hbadge.
  { cbn [tabEntry Tab.aspectRatio]. rewrite Hratio.
    destruct (exec_badgeRe n Hn) as (m & Hm & Hg).
    destruct (numberToken_head n Hn) as (x & n' & -> & _).
    unfold formatBadgeTextForIcon. cbn [app]. cbn [app] in Hm.
    rewrite Hm, Hg. reflexivity. }
  assert (∃ X, w' = updateBadgeForTab t X
               ∧ TAB_DATA X !! t = Some (tabEntry imdbId (Cache.data c) filmTitle)
               ∧ actions X = actions w) as (X & HX & Hentry & Hact).
  { subst w'. revert Hreply. unfold getAspectRatio. rewrite Htab.
    destruct (freshRecord _ _) as [c'|].
    - cbn [snd]. intros [= ->].
      destruct (isIncognito sender); cbn [negb fst]; eexists;
        (split; [reflexivity|]); frame; now rewrite lookup_insert_eq.
    - unfold fetchImdbAspectRatioAt.
      destruct (fetchOutcome env imdbId) as [[name message]|r]; [discriminate|].
      cbn [snd]. intros [= <-].
      destruct (isIncognito sender); cbn [negb fst]; eexists;
        (split; [reflexivity|]); frame; now rewrite lookup_insert_eq. }
  pose proof (updateBadgeForTab_entry t X _ Hentry Hgiven) as Hnew.
  rewrite <- HX, Hact, Hbadge in Hnew.
  split; [|split].
  - eexists. rewrite Hnew, lookup_insert_eq. now split.
  - intros t' Hne. rewrite Hnew. now apply lookup_insert_ne.
  - rewrite HX. destruct (updateBadgeForTab_actions t X) as [a ->]. exact Hentry.
Qed.

Lemma getAspectRatio_badge_witness :
  let w' := fst (getAspectRatio (envAt 5000 (Answered technicalPage))
                   bladeRunner None (normalTab 7) (startedWith ∅)) in
  (∃ a, actions w' !! 7%Z = Some a
        ∧ badgeText a = take 4 (js "2.39")
        ∧ badgeBackgroundColor a = Some (js "#4CAF50"))
  ∧ (∀ t', t' ≠ 7%Z → actions w' !! t' = actions (startedWith ∅) !! t')
  ∧ TAB_DATA w' !! 7%Z = Some (tabEntry bladeRunner bladeRunnerResult None).
Proof.
  apply (getAspectRatio_badge (envAt 5000 (Answered technicalPage))
           bladeRunner None (normalTab 7) (startedWith ∅)
           (Cache.mk bladeRunnerResult 5000) 7 (js "2.39")).
  - reflexivity.
  - vm_compute. reflexivity.
  - reflexivity.
  - exists (js "2"), (js "39").
    split; [discriminate|]. split; [repeat constructor|].
    split; [repeat constructor|]. right. split; [discriminate|reflexivity].
Defined.

(** ** The content script and the worker *)

Lemma onMessage_updateStatus (env : Env) (m : Msg.t)
    (sender : option Sender.tab) (w : World) :
  Msg.type m = js "updateStatus" →
  onMessage env (Some m) sender w = (updateStatus env m sender w, NoReply).
Proof. intros Ht. unfold onMessage. rewrite Ht. reflexivity. Qed.

Lemma onMessage_getAspectRatio (env : Env) (m : Msg.t)
    (sender : option Sender.tab) (w : World) (c : N) (l : list N) :
  Msg.type m = js "getAspectRatio" → Msg.imdbId m = Some (c :: l) →
  onMessage env (Some m) sender w
  = getAspectRatio env (c :: l) (Msg.filmTitle m) sender w.
Proof. intros Ht Hid. unfold onMessage. rewrite Ht, Hid. reflexivity. Qed.

(** What the handler of [updateStatus] writes, whatever the window. *)
Lemma updateStatus_saved (env : Env) (m : Msg.t) (sender : option Sender.tab)
    (w : World) :
  let w' := updateStatus env m sender w in
  storageLocal w' = storageLocal w
  ∧ requested w' = requested w
  ∧ sessionStatus w' = Some (STATUS w')
  ∧ (given (Msg.imdbId m) = true → lastImdbId (STATUS w') = Msg.imdbId m)
  ∧ (∀ t, givenTab sender = Some t → given (Msg.aspectRatio m) = true →
          sessionTabData w' = Some (TAB_DATA w')
          ∧ ∃ d, TAB_DATA w' !! t = Some d
                 ∧ Tab.aspectRatio d = Msg.aspectRatio m
                 ∧ Tab.imdbId d = orElse (Msg.imdbId m) (lastImdbId (STATUS w'))).
Proof.
  unfold updateStatus.
  destruct (givenTab sender) as [t|]; [destruct (given (Msg.aspectRatio m)) eqn:Har|];
    frame; repeat apply conj; try reflexivity;
    try (intros Hid; now rewrite Hid);
    try (intros ? ?; discriminate); try (intros ? ? ?; discriminate).
  intros t' [= <-] _. split; [reflexivity|].
  eexists. rewrite lookup_insert_eq. split; [reflexivity|].
  cbn [Tab.aspectRatio Tab.imdbId]. split; reflexivity.
Qed.

Lemma extractImdbIdFromHref_isImdbId (href : option (list N)) (id : list N) :
  extractImdbIdFromHref href = Some id → isImdbId id.
Proof.
  destruct href as [[|x h]|]; try discriminate. unfold extractImdbIdFromHref.
  destruct (exec imdbIdRe (x :: h)) as [m|] eqn:Hm; [|discriminate].
  intros [= <-]. unfold exec in Hm.
  apply search_found in Hm. destruct m as [s e c]. cbn [start stop groups] in *.
  apply run_imdbIdRe_inv in Hm as (id & Hid & Hrest & Hpos).
  unfold matched. cbn [start stop]. rewrite Hrest, Hpos.
  replace (pos s + length id - pos s)%nat with (length id) by lia.
  now rewrite take_app_length.
Qed.

Lemma emitted_nonempty (s : list N) : emitted s → s ≠ [].
Proof.
  intros [x ->] H. apply app_eq_nil in H as [_ H]. discriminate.
Qed.

(** The text of a result lists a ratio at least. *)
Lemma fetchImdbAspectRatio_displayText (imdbId : list N) (res : Response)
    (r : AspectRatioResult) :
  fetchImdbAspectRatio imdbId res = inr r →
  displayText r ≠ [] ∧ source r = js "imdb" ∧ sourceUrl r = technicalUrl imdbId.
Proof.
  unfold fetchImdbAspectRatio. destruct (negb (ok res)); [discriminate|].
  destruct (parseAll_emitted_NoDup (text res)) as [Hem _].
  destruct (parseAllAspectRatiosFromImdb (text res)) as [|x l]; [discriminate|].
  intros [= <-]. cbn [displayText source sourceUrl].
  split; [|split; reflexivity].
  apply Forall_cons in Hem as [Hx _]. apply emitted_nonempty in Hx.
  cbn [List.map join].
  set (y := match long (mapRatioToType x) with
            | Some (c :: l0) => x ++ js " (" ++ (c :: l0) ++ js ")"
            | _ => x
            end).
  assert (y ≠ []) as Hy.
  { subst y. destruct (long (mapRatioToType x)) as [[|c l0]|]; try exact Hx.
    destruct x; [congruence|discriminate]. }
  destruct (List.map _ l) as [|z zs]; [exact Hy|].
  intros H. apply app_eq_nil in H as [H _]. exact (Hy H).
Qed.

Lemma fetchOutcome_result (env : Env) (imdbId : list N) (r : AspectRatioResult) :
  fetchOutcome env imdbId = inr r →
  displayText r ≠ [] ∧ source r = js "imdb" ∧ sourceUrl r = technicalUrl imdbId.
Proof.
  unfold fetchOutcome. destruct (answer env) as [res|]; [|discriminate].
  destruct (fetchImdbAspectRatio imdbId res) as [[message]|r'] eqn:Hr; [discriminate|].
  intros [= <-]. now apply fetchImdbAspectRatio_displayText in Hr.
Qed.

Lemma extractImdbIdFromHref_technicalUrl (id : list N) :
  isImdbId id → extractImdbIdFromHref (Some (technicalUrl id)) = Some id.
Proof.
  intros Hid. destruct (exec_technicalUrl id Hid) as (m & Hm & Hmatched).
  unfold extractImdbIdFromHref. rewrite Hm, Hmatched.
  unfold technicalUrl. reflexivity.
Qed.

Lemma isImdbId_cons (id : list N) : isImdbId id → ∃ c l, id = c :: l.
Proof. intros (ds & -> & _). now eexists _, _. Qed.

(** The run of [initWithAnchor] for an id, when the request is not answered
    from the cache. *)
Lemma initWithAnchor_run (env1 env2 env3 : Env) (href filmTitle : option (list N))
    (b : Badge) (sender : option Sender.tab) (w : World) (id : list N) :
  extractImdbIdFromHref href = Some id →
  isIncognito sender = true
  ∨ freshRecord (timeOfMessage env2) (getCached id w) = None →
  let w1 := updateStatus env1
              (updateStatusMessage id filmTitle (js "fetching") None None)
              sender w in
  ∃ w2, (∃ reply, getAspectRatio env2 id filmTitle sender w1 = (w2, reply))
        ∧ (isIncognito sender = true → storageLocal w2 = storageLocal w)
        ∧ match fetchOutcome env2 id with
          | inr r =>
              initWithAnchor env1 env2 env3 href filmTitle (Some b) sender w
              = (updateStatus env3
                   (updateStatusMessage id filmTitle (js "success")
                      (aspectRatio r) None) sender w2,
                 updateBadge (Some b) (Some (displayText r)) (Some (js "imdb"))
                   (Some (technicalUrl id)))
          | inl (name, message) =>
              initWithAnchor env1 env2 env3 href filmTitle (Some b) sender w
              = (updateStatus env3
                   (updateStatusMessage id filmTitle (js "error") None
                      (errorOfReply (ReplyError (errorText name message))))
                   sender w2,
                 updateBadge (Some b) None None None)
          end.
Proof.
  intros Hext Hmiss w1.
  destruct (isImdbId_cons id (extractImdbIdFromHref_isImdbId _ _ Hext))
    as (c & l & ->).
  assert (isIncognito sender = true
          ∨ freshRecord (timeOfMessage env2) (getCached (c :: l) w1) = None)
    as Hmiss1.
  { destruct Hmiss as [H|H]; [now left|right].
    unfold getCached in *. subst w1.
    now rewrite (proj1 (updateStatus_saved env1 _ sender w)). }
  unfold initWithAnchor. rewrite Hext.
  rewrite (onMessage_updateStatus env1
             (updateStatusMessage (c :: l) filmTitle (js "fetching") None None)
             sender w) by reflexivity.
  cbn [fst]. fold w1.
  rewrite (onMessage_getAspectRatio env2
             (getAspectRatioMessage (c :: l) filmTitle) sender w1 c l)
    by reflexivity.
  cbn [getAspectRatioMessage Msg.filmTitle].
  destruct (fetchOutcome env2 (c :: l)) as [[name message]|r] eqn:Hout.
  - destruct (getAspectRatio_error env2 (c :: l) filmTitle sender w1 name message
                Hmiss1 Hout) as (w2 & Hrun & _ & Hsto & _).
    exists w2. split; [eauto|]. split.
    { intros _. rewrite Hsto. subst w1.
      apply (proj1 (updateStatus_saved env1 _ sender w)). }
    rewrite Hrun. rewrite onMessage_updateStatus by reflexivity. reflexivity.
  - destruct (getAspectRatio_fetch env2 (c :: l) filmTitle sender w1 r
                Hmiss1 Hout) as (w2 & Hrun & _ & _ & _ & _ & _ & _ & _ & Hsto).
    exists w2. split; [eauto|]. split.
    { intros Hinc. rewrite Hinc in Hsto. destruct Hsto as (-> & _). subst w1.
      apply (proj1 (updateStatus_saved env1 _ sender w)). }
    rewrite Hrun. rewrite onMessage_updateStatus by reflexivity.
    destruct (fetchOutcome_result env2 (c :: l) r Hout) as (Hd & Hs & Hu).
    cbn [fst Cache.data]. rewrite Hs, Hu.
    destruct (displayText r) as [|x d]; [congruence|]. reflexivity.
Qed.

(** X21. What the page shows.  When the address of the link holds an id and
    the request is not answered from the cache, the badge of the page
    reads [Aspect Ratio: ] and the text of the result, and it links to the
    page of IMDb the result comes from, whose address gives back the id;
    when the request fails, the badge reads [AR: N/A] and holds no
    link. *)
Theorem initWithAnchor_badge (env1 env2 env3 : Env)
    (href filmTitle : option (list N)) (b : Badge)
    (sender : option Sender.tab) (w : World) (id : list N) :
  extractImdbIdFromHref href = Some id →
  isIncognito sender = true
  ∨ freshRecord (timeOfMessage env2) (getCached id w) = None →
  ∃ b', snd (initWithAnchor env1 env2 env3 href filmTitle (Some b) sender w)
        = Some b'
        ∧ loading b' = false
        ∧ match fetchOutcome env2 id with
          | inr r =>
              textContent b' = js "Aspect Ratio: " ++ displayText r
              ∧ linkHref b' = Some (technicalUrl id)
              ∧ extractImdbIdFromHref (linkHref b') = Some id
              ∧ dataSource b' = Some (js "imdb")
              ∧ notAvailable b' = notAvailable b
          | inl _ =>
              textContent b' = js "AR: N/A"
              ∧ linkHref b' = None
              ∧ notAvailable b' = true
          end.
Proof.
  intros Hext Hmiss.
  destruct (initWithAnchor_run env1 env2 env3 href filmTitle b sender w id
              Hext Hmiss) as (w2 & _ & _ & Hrun).
  pose proof (extractImdbIdFromHref_isImdbId _ _ Hext) as Hid.
  destruct (fetchOutcome env2 id) as [[name message]|r] eqn:Hout.
  - rewrite Hrun. cbn [snd]. eexists. split; [reflexivity|].
    cbn [loading textContent linkHref notAvailable]. now repeat split.
  - rewrite Hrun. cbn [snd].
    destruct (fetchOutcome_result env2 id r Hout) as (Hd & _ & _).
    destruct (displayText r) as [|x d] eqn:Hdisp; [congruence|].
    destruct (isImdbId_cons id Hid) as (c & l & Hcl).
    eexists. split; [unfold updateBadge; cbn [given]; reflexivity|].
    cbn [loading textContent linkHref notAvailable dataSource toString].
    repeat split. now apply extractImdbIdFromHref_technicalUrl.
Qed.

Lemma initWithAnchor_badge_witness :
  ∃ b', snd (initWithAnchor (envAt 1000 (Rejected [] []))
               (envAt 2000 (Answered technicalPage)) (envAt 3000 (Rejected [] []))
               (Some (js "http://www.imdb.com/title/tt0083658/maindetails"))
               (Some (js "Blade Runner")) (Some emptyBadge) (normalTab 7)
               (startedWith ∅))
        = Some b'
        ∧ textContent b' = js "Aspect Ratio: 2.39:1 (Anamorphic widescreen, Scope)"
        ∧ linkHref b' = Some (technicalUrl bladeRunner).
Proof.
  assert (fetchOutcome (envAt 2000 (Answered technicalPage)) bladeRunner
          = inr bladeRunnerResult) as Hout by (vm_compute; reflexivity).
  destruct (initWithAnchor_badge (envAt 1000 (Rejected [] []))
              (envAt 2000 (Answered technicalPage)) (envAt 3000 (Rejected [] []))
              (Some (js "http://www.imdb.com/title/tt0083658/maindetails"))
              (Some (js "Blade Runner")) emptyBadge (normalTab 7)
              (startedWith ∅) bladeRunner)
    as (b' & Hb & _ & Hshown).
  - vm_compute. reflexivity.
  - right. reflexivity.
  - rewrite Hout in Hshown. destruct Hshown as (Htext & Hlink & _).
    exists b'. split; [exact Hb|]. split; [exact Htext|exact Hlink].
Defined.

(** X22. A film seen in a private window.  The messages of the content
    script for the film never write the cache; but the handler of
    [updateStatus] saves whatever the window: the status saved in the
    session storage names the film, and when a ratio was found, the table
    of the tabs is saved with the film and its ratio for this tab. *)
Theorem initWithAnchor_private (env1 env2 env3 : Env)
    (href filmTitle : option (list N)) (b : Badge) (t : Z) (w : World)
    (id : list N) :
  t ≠ 0%Z →
  extractImdbIdFromHref href = Some id →
  let w' := fst (initWithAnchor env1 env2 env3 href filmTitle (Some b)
                   (privateTab t) w) in
  storageLocal w' = storageLocal w
  ∧ (∃ s, sessionStatus w' = Some s ∧ lastImdbId s = Some id)
  ∧ (∀ r, fetchOutcome env2 id = inr r → given (aspectRatio r) = true →
          ∃ saved d, sessionTabData w' = Some saved
                     ∧ saved !! t = Some d
                     ∧ Tab.imdbId d = Some id
                     ∧ Tab.aspectRatio d = aspectRatio r).
Proof.
  intros Ht Hext w'.
  destruct (initWithAnchor_run env1 env2 env3 href filmTitle b (privateTab t) w id
              Hext (or_introl eq_refl)) as (w2 & _ & Hsto & Hrun).
  specialize (Hsto eq_refl).
  destruct (isImdbId_cons id (extractImdbIdFromHref_isImdbId _ _ Hext))
    as (c & l & ->).
  assert (givenTab (privateTab t) = Some t) as Hg.
  { unfold givenTab, privateTab. cbn [Sender.id]. now destruct (Z.eqb_spec t 0). }
  destruct (fetchOutcome env2 (c :: l)) as [[name message]|r] eqn:Hout.
  - subst w'. rewrite Hrun. cbn [fst].
    destruct (updateStatus_saved env3
                (updateStatusMessage (c :: l) filmTitle (js "error") None
                   (errorOfReply (ReplyError (errorText name message))))
                (privateTab t) w2) as (H1 & _ & H3 & H4 & _).
    split; [now rewrite H1|]. split; [|discriminate].
    eexists. split; [exact H3|]. now apply H4.
  - subst w'. rewrite Hrun. cbn [fst].
    destruct (updateStatus_saved env3
                (updateStatusMessage (c :: l) filmTitle (js "success")
                   (aspectRatio r) None)
                (privateTab t) w2) as (H1 & _ & H3 & H4 & H5).
    split; [now rewrite H1|]. split.
    + eexists. split; [exact H3|]. now apply H4.
    + intros r' [= <-] Hgiven.
      destruct (H5 t Hg Hgiven) as (Hsaved & d & Hd & Har & Hid).
      eexists _, d. repeat split; [exact Hsaved|exact Hd|exact Hid|exact Har].
Qed.

Lemma initWithAnchor_private_witness :
  let w' := fst (initWithAnchor (envAt 1000 (Rejected [] []))
                   (envAt 2000 (Answered technicalPage))
                   (envAt 3000 (Rejected [] []))
                   (Some (js "http://www.imdb.com/title/tt0083658/maindetails"))
                   None (Some emptyBadge) (privateTab 7) (startedWith ∅)) in
  storageLocal w' = storageLocal (startedWith ∅)
  ∧ (∃ s, sessionStatus w' = Some s ∧ lastImdbId s = Some bladeRunner)
  ∧ ∃ saved d, sessionTabData w' = Some saved
               ∧ saved !! 7%Z = Some d
               ∧ Tab.imdbId d = Some bladeRunner
               ∧ Tab.aspectRatio d = Some (js "2.39:1").
Proof.
  assert (fetchOutcome (envAt 2000 (Answered technicalPage)) bladeRunner
          = inr bladeRunnerResult) as Hout by (vm_compute; reflexivity).
  destruct (initWithAnchor_private (envAt 1000 (Rejected [] []))
              (envAt 2000 (Answered technicalPage)) (envAt 3000 (Rejected [] []))
              (Some (js "http://www.imdb.com/title/tt0083658/maindetails"))
              None emptyBadge 7 (startedWith ∅) bladeRunner)
    as (Hsto & Hstatus & Htab).
  - discriminate.
  - vm_compute. reflexivity.
  - split; [exact Hsto|]. split; [exact Hstatus|].
    exact (Htab bladeRunnerResult Hout eq_refl).
Defined.

(** ** What the cache holds *)

Lemma getAspectRatio_storage (env : Env) (imdbId : list N)
    (filmTitle : option (list N)) (sender : option Sender.tab) (w : World) :
  storageLocal (fst (getAspectRatio env imdbId filmTitle sender w)) = storageLocal w
  ∨ ∃ r, isIncognito sender = false
         ∧ fetchOutcome env imdbId = inr r
         ∧ freshRecord (timeOfMessage env) (getCached imdbId w) = None
         ∧ storageLocal (fst (getAspectRatio env imdbId filmTitle sender w))
           = <[cacheKey imdbId := Cache.mk r (timeOfRecord env)]> (storageLocal w).
Proof.
  destruct (isIncognito sender) eqn:Hinc.
  - left. destruct (fetchOutcome env imdbId) as [[name message]|r] eqn:Hout.
    + destruct (getAspectRatio_error env imdbId filmTitle sender w name message
                  (or_introl Hinc) Hout) as (w' & -> & _ & Hsto & _).
      exact Hsto.
    + destruct (getAspectRatio_fetch env imdbId filmTitle sender w r
                  (or_introl Hinc) Hout)
        as (w' & -> & _ & _ & _ & _ & _ & _ & _ & Hsto).
      rewrite Hinc in Hsto. apply Hsto.
  - destruct (freshRecord (timeOfMessage env) (getCached imdbId w)) as [c|] eqn:Hf.
    + left. destruct (getAspectRatio_hit env imdbId filmTitle sender w c Hinc Hf)
        as (w' & -> & _ & _ & Hsto & _).
      exact Hsto.
    + destruct (fetchOutcome env imdbId) as [[name message]|r] eqn:Hout.
      * left.
        destruct (getAspectRatio_error env imdbId filmTitle sender w name message
                    (or_intror Hf) Hout) as (w' & -> & _ & Hsto & _).
        exact Hsto.
      * right. exists r.
        destruct (getAspectRatio_fetch env imdbId filmTitle sender w r
                    (or_intror Hf) Hout)
          as (w' & -> & _ & _ & _ & _ & _ & _ & _ & Hsto).
        rewrite Hinc in Hsto. destruct Hsto as (Hsto & _).
        repeat split; assumption.
Qed.

Lemma handle_storage (w : World) (e : event) (k : list N) (c : Cache.record) :
  storageLocal (handle w e) !! k = Some c →
  storageLocal w !! k = Some c ∨ fetchedBy e k c.
Proof.
  destruct e as [env [m|] sender|t|t [|]|t|]; cbn [handle].
  - unfold onMessage.
    destruct (bool_decide (Msg.type m = js "getAspectRatio")) eqn:Htype;
      [destruct (given (Msg.imdbId m)) eqn:Hid|]; cbn [andb].
    + destruct (Msg.imdbId m) as [[|x id]|] eqn:Hm; try discriminate.
      cbn [toString].
      destruct (getAspectRatio_storage env (x :: id) (Msg.filmTitle m) sender w)
        as [->|(r & Hinc & Hout & _ & ->)]; [now left|].
      destruct (decide (k = cacheKey (x :: id))) as [->|Hne].
      * rewrite lookup_insert_eq. intros [= <-]. right.
        exists env, m, sender, (x :: id).
        apply bool_decide_eq_true in Htype. now repeat split.
      * rewrite lookup_insert_ne by congruence. now left.
    + destruct (bool_decide (Msg.type m = js "updateStatus"));
        [cbn [fst]; rewrite (proj1 (updateStatus_saved env m sender w))|
         destruct (bool_decide (Msg.type m = js "getStatus")); cbn [fst]];
        intros H; left; exact H.
    + destruct (bool_decide (Msg.type m = js "updateStatus"));
        [cbn [fst]; rewrite (proj1 (updateStatus_saved env m sender w))|
         destruct (bool_decide (Msg.type m = js "getStatus")); cbn [fst]];
        intros H; left; exact H.
  - now left.
  - unfold onActivated. destruct (updateBadgeForTab_actions t w) as [a ->]. now left.
  - unfold onUpdated.
    destruct (updateBadgeForTab_actions t
                (saveTabData (setTAB_DATA (delete t (TAB_DATA w)) w))) as [a ->].
    now left.
  - now left.
  - now left.
  - now left.
Qed.

(** X23. Whatever the events, a record in the cache was there from the
    start or was fetched by one of the events: it holds the result of a
    request of a normal window for the film of its key.  Nothing else ever
    gets into the cache. *)
Theorem handleAll_cache (w : World) (es : list event) (k : list N)
    (c : Cache.record) :
  storageLocal (handleAll w es) !! k = Some c →
  storageLocal w !! k = Some c ∨ ∃ e, e ∈ es ∧ fetchedBy e k c.
Proof.
  unfold handleAll. revert w. induction es as [|e es IH]; intros w Hk.
  - now left.
  - cbn [fold_left] in Hk. apply IH in Hk as [Hk|(e' & He' & Hf)].
    + apply handle_storage in Hk as [Hk|Hf]; [now left|].
      right. exists e. split; [apply list_elem_of_here|exact Hf].
    + right. exists e'. split; [now apply list_elem_of_further|exact Hf].
Qed.

Lemma handleAll_cache_witness :
  let e := Message (envAt 1000 (Answered technicalPage))
             (Some (getAspectRatioMessage bladeRunner None)) (normalTab 7) in
  storageLocal (startedWith ∅) !! cacheKey bladeRunner
  = Some (Cache.mk bladeRunnerResult 1000)
  ∨ ∃ e', e' ∈ [e] ∧ fetchedBy e' (cacheKey bladeRunner)
                        (Cache.mk bladeRunnerResult 1000).
Proof.
  apply (handleAll_cache (startedWith ∅)
           [Message (envAt 1000 (Answered technicalPage))
              (Some (getAspectRatioMessage bladeRunner None)) (normalTab 7)]).
  vm_compute. reflexivity.
Defined.

(** X24. A record that is thirty days old or more, or has no time, is not
    used: a request from a normal window is sent to IMDb, and its result
    takes the place of the record. *)
Theorem getAspectRatio_stale (env : Env) (imdbId : list N)
    (filmTitle : option (list N)) (sender : option Sender.tab) (w : World)
    (c : Cache.record) (r : AspectRatioResult) :
  isIncognito sender = false →
  getCached imdbId w = Some c →
  Cache.fetchedAt c = 0%Z
  ∨ (30 * 24 * 60 * 60 * 1000 ≤ timeOfMessage env - Cache.fetchedAt c)%Z →
  fetchOutcome env imdbId = inr r →
  ∃ w', getAspectRatio env imdbId filmTitle sender w
        = (w', ReplyData (Cache.mk r (timeOfRecord env)))
        ∧ requested w' = technicalUrl imdbId :: requested w
        ∧ getCached imdbId w' = Some (Cache.mk r (timeOfRecord env)).
Proof.
  intros Hinc Hc Hold Hout.
  assert (freshRecord (timeOfMessage env) (getCached imdbId w) = None) as Hf.
  { rewrite Hc. unfold freshRecord, CACHE_TTL_MS.
    destruct Hold as [->|Hold]; [reflexivity|].
    destruct (Z.ltb_spec (timeOfMessage env - Cache.fetchedAt c)
                (30 * 24 * 60 * 60 * 1000)) as [|_]; [lia|].
    now rewrite andb_false_r. }
  destruct (getAspectRatio_fetch env imdbId filmTitle sender w r
              (or_intror Hf) Hout)
    as (w' & Hrun & Hreq & _ & _ & _ & _ & _ & _ & Hsto).
  rewrite Hinc in Hsto. destruct Hsto as (Hsto & _).
  exists w'. split; [exact Hrun|]. split; [exact Hreq|].
  unfold getCached. rewrite Hsto. apply lookup_insert_eq.
Qed.

Lemma getAspectRatio_stale_witness :
  ∃ w', getAspectRatio (envAt 2592001000 (Answered technicalPage)) bladeRunner
          None (normalTab 7) cachedWorld
        = (w', ReplyData (Cache.mk bladeRunnerResult 2592001000))
        ∧ requested w' = technicalUrl bladeRunner :: requested cachedWorld
        ∧ getCached bladeRunner w' = Some (Cache.mk bladeRunnerResult 2592001000).
Proof.
  apply (getAspectRatio_stale (envAt 2592001000 (Answered technicalPage))
           bladeRunner None (normalTab 7) cachedWorld
           (Cache.mk bladeRunnerResult 1000) bladeRunnerResult).
  - reflexivity.
  - vm_compute. reflexivity.
  - right. vm_compute. discriminate.
  - vm_compute. reflexivity.
Defined.

(** * The case conversion, the label and the first token *)

(** ** The case conversion *)










(** ** Texts and their lower case *)


Lemma lowerUnit_ascii (x : N) : x < 128 → lowerUnit x < 128.
Proof.
  unfold lowerUnit, isUpper. intros Hx.
  destruct (N.leb_spec 65 x), (N.leb_spec x 90); cbn [andb]; lia.
Qed.










(** ** What a match reads *)




(** The code units read by the loop of a class are of the class. *)
Lemma run_star_chr_inv (g : bool) (q : N → bool) (s : cursor) (c : caps)
    (k : cont) (res : cursor * caps) :
  run (Star g (Chr q)) s c k = Some res →
  ∃ sp s', rest s = sp ++ rest s' ∧ Forall (fun x => q x = true) sp
           ∧ k s' c = Some res.
Proof.
  rewrite run_star. generalize (S (length (rest s))). intros fuel. revert s.
  induction fuel as [|f IH]; intros s Hrun.
  - exists [], s. split; [reflexivity|]. split; [constructor|exact Hrun].
  - rewrite starLoop_S in Hrun. cbv zeta in Hrun.
    assert (∀ o, o = Some res →
              o = run (Chr q) s c (fun s' c' =>
                    if (pos s <? pos s')%nat
                    then starLoop (run (Chr q)) g k f s' c' else None) →
              ∃ sp s', rest s = sp ++ rest s'
                       ∧ Forall (fun x => q x = true) sp ∧ k s' c = Some res)
      as Hagain.
    { intros o Ho ->. apply run_chr_inv in Ho as (x & xs & Hs & Hx & Ho).
      cbn [pos] in Ho. destruct (pos s <? S (pos s))%nat; [|discriminate].
      apply IH in Ho as (sp & s' & Hrest & Hsp & Hk). cbn [rest] in Hrest.
      exists (x :: sp), s'. split; [now rewrite Hs, Hrest|].
      split; [now constructor|exact Hk]. }
    match type of Hrun with
    | context [run (Chr q) s c ?kk] => remember (run (Chr q) s c kk) as again eqn:Hag
    end.
    destruct g.
    + destruct again as [x|].
      * cbn in Hrun. eapply Hagain; [exact Hrun|reflexivity].
      * cbn in Hrun. exists [], s. split; [reflexivity|]. split; [constructor|exact Hrun].
    + destruct (k s c) as [x|] eqn:Hx.
      * cbn in Hrun. exists [], s. split; [reflexivity|]. split; [constructor|congruence].
      * cbn in Hrun. eapply Hagain; [exact Hrun|reflexivity].
Qed.











(** ** The text without scripts and styles *)





(** ** The blocks of the document *)




(** ** The first ratio token *)

Lemma numberToken_units (t : list N) :
  numberToken t → Forall (fun x => isDigit x || (x =? 46) = true) t.
Proof.
  intros (ip & fp & _ & Hip & Hfp & Ht).
  assert (∀ l, Forall (fun c => isDigit c = true) l →
               Forall (fun x => isDigit x || (x =? 46) = true) l) as Hd.
  { intros l Hl. eapply Forall_impl; [exact Hl|]. cbn. intros x ->. reflexivity. }
  destruct Ht as [-> | [_ ->]]; [now apply Hd|].
  apply Forall_app. split; [now apply Hd|].
  constructor; [now rewrite orb_true_r|now apply Hd].
Qed.

Lemma not_continued_plain (d tail : list N) :
  headNot (fun x => isDigit x || (x =? 46)) tail → ¬ continued d tail.
Proof.
  intros Htail (x & tail' & -> & Hx & Hdx).
  destruct x as [|c x]; [congruence|].
  apply numberToken_units, Forall_app in Hdx as [_ Hdx].
  apply Forall_cons in Hdx as [Hc _]. cbn in Htail. congruence.
Qed.

Lemma not_continued_digit (d tail : list N) :
  numberToken d → ¬ continued d tail → headNot isDigit tail.
Proof.
  intros (ip & fp & Hne & Hip & Hfp & Hd) Hnot.
  destruct tail as [|x tail]; [exact I|]. cbn.
  destruct (isDigit x) eqn:Hx; [|reflexivity].
  exfalso. apply Hnot. exists [x], tail. split; [reflexivity|].
  split; [discriminate|].
  destruct Hd as [-> | [Hfne ->]].
  - exists (ip ++ [x]), []. split; [now destruct ip|].
    split; [apply Forall_app; split; [exact Hip|now repeat constructor]|].
    split; [constructor|now left].
  - exists ip, (fp ++ [x]). split; [exact Hne|]. split; [exact Hip|].
    split; [apply Forall_app; split; [exact Hfp|now repeat constructor]|].
    right. split; [now destruct fp|]. now rewrite <- app_assoc.
Qed.

Lemma not_continued_point (ip tail : list N) (y : N) :
  ip ≠ [] → Forall (fun c => isDigit c = true) ip →
  ¬ continued ip (46 :: y :: tail) → isDigit y = false.
Proof.
  intros Hne Hip Hnot. destruct (isDigit y) eqn:Hy; [|reflexivity].
  exfalso. apply Hnot. exists [46; y], tail. split; [reflexivity|].
  split; [discriminate|].
  exists ip, [y]. split; [exact Hne|]. split; [exact Hip|].
  split; [now repeat constructor|]. right. split; [discriminate|reflexivity].
Qed.

(** The pattern of a number reads a numeric token that does not go on to
    its end. *)
Lemma run_numberRe_whole (t post : list N) (p : nat) (pv : option N) (c : caps)
    (k : cont) (r : cursor * caps) :
  numberToken t → ¬ continued t post →
  k (Cursor (p + length t) (lastOpt pv t) post) c = Some r →
  run numberRe (Cursor p pv (t ++ post)) c k = Some r.
Proof.
  intros Ht Hnot Hk.
  pose proof (not_continued_digit t post Ht Hnot) as Hpd.
  destruct Ht as (ip & fp & Hne & Hip & Hfp & Ht).
  unfold numberRe, cat, digit, opt, chr. cbn [foldr]. rewrite run_seq.
  destruct Ht as [-> | [Hfne ->]].
  - apply run_plus_chr_greedy; [assumption..|].
    rewrite run_seq, run_alt, run_seq, !run_eps.
    destruct post as [|x post]; [cbn; exact Hk|].
    rewrite run_chr_cons. destruct (N.eqb_spec 46 x) as [<-|_];
      [|cbn [orElseTry]; exact Hk].
    unfold plus. rewrite !run_seq.
    rewrite run_chr_stop; [cbn [orElseTry]; exact Hk|].
    destruct post as [|y post]; [exact I|]. cbn.
    exact (not_continued_point ip post y Hne Hip Hnot).
  - rewrite <- app_assoc.
    apply run_plus_chr_greedy; [assumption.. | now cbn |].
    rewrite run_seq, run_alt, run_seq. cbn [app].
    rewrite run_chr_cons, N.eqb_refl, run_seq.
    rewrite (run_plus_chr_greedy isDigit fp post _ _ _ _ r);
      [reflexivity|assumption..|].
    rewrite !run_eps.
    rewrite length_app, lastOpt_app in Hk. cbn [length lastOpt fold_left] in Hk.
    fold (lastOpt (Some 46) fp) in Hk.
    now replace (S (p + length ip) + length fp)%nat
      with (p + (length ip + S (length fp)))%nat by lia.
Qed.

(** The pattern of a ratio on a ratio token whose second number does not go
    on: whatever the white space around the colon, the two groups are the
    two numbers. *)
Lemma run_ratioRe_whole (n d ws1 ws2 tail : list N) (p : nat) (pv : option N) :
  numberToken n → numberToken d →
  Forall (fun x => isSpace x = true) ws1 →
  Forall (fun x => isSpace x = true) ws2 →
  ¬ continued d tail →
  ∃ e, run ratioRe (Cursor p pv (n ++ ws1 ++ 58 :: ws2 ++ d ++ tail)) [] accept
       = Some (e, [(2%nat, d); (1%nat, n)]).
Proof.
  intros Hn Hd Hws1 Hws2 Htail.
  destruct (numberToken_head d Hd) as (x & d' & Hdx & Hx).
  eexists.
  unfold ratioRe, cat, star, space, chr. cbn [foldr].
  rewrite run_seq, run_group.
  apply run_numberRe; [exact Hn| |].
  { destruct ws1 as [|w ws1]; [cbn; reflexivity|].
    apply Forall_cons in Hws1 as [Hw _]. now apply space_not_number. }
  cbv beta. cbn [pos rest]. rewrite take_add_app, run_seq.
  apply run_star_chr_greedy; [exact Hws1|reflexivity|].
  cbv beta. rewrite run_seq, run_chr_cons. cbn [N.eqb Pos.eqb].
  rewrite run_seq.
  apply run_star_chr_greedy; [exact Hws2| |].
  { subst d. cbn. now apply digit_not_space. }
  cbv beta. rewrite run_seq, run_group.
  apply run_numberRe_whole; [exact Hd|exact Htail|].
  cbv beta. cbn [pos rest]. rewrite take_add_app, run_eps.
  unfold accept. reflexivity.
Qed.

(** What the pattern of a number reads is a numeric token. *)
Lemma run_numberRe_inv (s : cursor) (c : caps) (k : cont) (res : cursor * caps) :
  run numberRe s c k = Some res →
  ∃ t s', rest s = t ++ rest s' ∧ numberToken t ∧ k s' c = Some res.
Proof.
  unfold numberRe, cat, plus, digit, opt, chr. cbn [foldr].
  rewrite !run_seq. intros Hrun.
  apply run_chr_inv in Hrun as (x & xs & Hs & Hx & Hrun).
  apply run_star_chr_inv in Hrun as (ip & s1 & H1 & Hip & Hrun).
  cbn [rest] in H1.
  rewrite run_seq, run_alt in Hrun.
  match type of Hrun with
  | orElseTry ?a _ = _ => destruct a as [res'|] eqn:Hfrac
  end.
  - cbn [orElseTry] in Hrun. injection Hrun as ->.
    rewrite !run_seq in Hfrac.
    apply run_chr_inv in Hfrac as (y & ys & Hs1 & Hy & Hfrac).
    apply N.eqb_eq in Hy. subst y.
    apply run_chr_inv in Hfrac as (z & zs & Hs2 & Hz & Hfrac).
    cbn [rest] in Hs2. subst ys.
    apply run_star_chr_inv in Hfrac as (fp & s2 & H2 & Hfp & Hfrac).
    cbn [rest] in H2. rewrite !run_eps in Hfrac.
    exists ((x :: ip) ++ 46 :: z :: fp), s2.
    split; [rewrite Hs, H1, Hs1, H2; now rewrite <- app_assoc|].
    split; [|exact Hfrac].
    exists (x :: ip), (z :: fp). split; [discriminate|].
    split; [now constructor|]. split; [now constructor|].
    right. split; [discriminate|reflexivity].
  - cbn [orElseTry] in Hrun. rewrite !run_eps in Hrun.
    exists (x :: ip), s1. split; [now rewrite Hs, H1|]. split; [|exact Hrun].
    exists (x :: ip), []. split; [discriminate|].
    split; [now constructor|]. split; [constructor|now left].
Qed.

(** Where the pattern of a ratio matches, a ratio token starts. *)
Lemma run_ratioRe_inv (s : cursor) (c : caps) (k : cont) (res : cursor * caps) :
  run ratioRe s c k = Some res → tokenAt (rest s).
Proof.
  unfold ratioRe, cat, star, space, chr. cbn [foldr].
  rewrite run_seq, run_group. intros Hrun.
  apply run_numberRe_inv in Hrun as (n & s1 & H1 & Hn & Hrun).
  rewrite run_seq in Hrun.
  apply run_star_chr_inv in Hrun as (ws1 & s2 & H2 & Hws1 & Hrun).
  rewrite run_seq in Hrun.
  apply run_chr_inv in Hrun as (x & xs & H3 & Hx & Hrun).
  apply N.eqb_eq in Hx. subst x.
  rewrite run_seq in Hrun.
  apply run_star_chr_inv in Hrun as (ws2 & s4 & H4 & Hws2 & Hrun).
  cbn [rest] in H4.
  rewrite run_seq, run_group in Hrun.
  apply run_numberRe_inv in Hrun as (d & s5 & H5 & Hd & _).
  exists n, ws1, ws2, d, (rest s5).
  split; [now rewrite H1, H2, H3, H4, H5|]. now repeat split.
Qed.

(** The search passes over the places at which the pattern does not
    match. *)
Lemma search_skip_none (r : regex) (pre l : list N) (p : nat) (pv : option N) :
  (∀ (i : nat) p' pv', (i < length pre)%nat →
     run r (Cursor p' pv' (drop i (pre ++ l))) [] accept = None) →
  search r p pv (pre ++ l) = search r (p + length pre) (lastOpt pv pre) l.
Proof.
  revert p pv. induction pre as [|x pre IH]; intros p pv Hnone.
  - cbn. now rewrite Nat.add_0_r.
  - rewrite search_eq.
    pose proof (Hnone 0%nat p pv) as H0. rewrite drop_0 in H0.
    rewrite H0 by (cbn; lia). cbn [app].
    rewrite IH.
    + cbn [length lastOpt fold_left]. f_equal. lia.
    + intros i p' pv' Hi. apply (Hnone (S i)). cbn. lia.
Qed.

(** The first match of the pattern of a ratio is the first ratio token. *)
Lemma exec_ratioRe_first (pre n ws1 ws2 d tail : list N) :
  firstToken pre n ws1 ws2 d tail →
  ∃ m, exec ratioRe (segment pre n ws1 ws2 d tail) = Some m
       ∧ groupText 1 m = n ∧ groupText 2 m = d.
Proof.
  intros (Hn & Hd & Hws1 & Hws2 & Htail & Hfirst).
  unfold exec, segment. rewrite search_skip_none.
  - destruct (run_ratioRe_whole n d ws1 ws2 tail (0 + length pre)
                (lastOpt None pre) Hn Hd Hws1 Hws2 Htail) as [e He].
    rewrite search_eq, He. eexists. split; [reflexivity|].
    split; reflexivity.
  - intros i p' pv' Hi.
    destruct (run ratioRe _ [] accept) as [res|] eqn:Hrun; [|reflexivity].
    exfalso. apply (Hfirst i Hi). apply run_ratioRe_inv in Hrun. exact Hrun.
Qed.

(** The ratio of the entry for the first ratio token of a segment. *)
Lemma parsePart_first (out : list RatioEntry) (pre n ws1 ws2 d tail : list N) :
  firstToken pre n ws1 ws2 d tail →
  ratio <$> parsePart out (segment pre n ws1 ws2 d tail)
  = if negb (eqb (parseFloat d) zero) && ltb zero (parseFloat n)
    then (ratio <$> out) ++ [normalizedRatio (parseFloat n) (parseFloat d)]
    else ratio <$> out.
Proof.
  intros Hfirst.
  destruct (exec_ratioRe_first pre n ws1 ws2 d tail Hfirst) as (m & Hm & H1 & H2).
  unfold parsePart. rewrite Hm, H1, H2.
  destruct (negb (eqb (parseFloat d) zero) && ltb zero (parseFloat n));
    [|reflexivity].
  now rewrite fmap_app.
Qed.

(** A token after a text without digits, with neither a digit nor a point
    after it, is the first ratio token. *)
Lemma firstToken_plain (pre n ws1 ws2 d tail : list N) :
  segmentOk pre n ws1 ws2 d tail → firstToken pre n ws1 ws2 d tail.
Proof.
  intros (Hpre & Hn & Hd & Hws1 & Hws2 & Htail).
  repeat apply conj; try assumption.
  - now apply not_continued_plain.
  - intros i Hi (n' & w1 & w2 & d' & t' & Heq & Hn' & _).
    destruct (numberToken_head n' Hn') as (x & n'' & -> & Hx).
    unfold segment in Heq. rewrite drop_app_le in Heq by lia.
    destruct (drop i pre) as [|y l] eqn:Hdrop.
    { apply (f_equal length) in Hdrop. rewrite length_drop in Hdrop.
      cbn in Hdrop. lia. }
    injection Heq as -> _.
    apply (Forall_drop _ i) in Hpre. rewrite Hdrop in Hpre.
    apply Forall_cons in Hpre as [Hy _]. congruence.
Qed.

(** ** White space around the colon *)

Lemma numberToken_no_colon (t : list N) : numberToken t → 58 ∉ t.
Proof.
  intros Ht Hin. apply numberToken_units in Ht.
  rewrite Forall_forall in Ht. specialize (Ht 58 Hin). discriminate.
Qed.

Lemma spaces_no_colon (ws : list N) :
  Forall (fun x => isSpace x = true) ws → 58 ∉ ws.
Proof. intros Hws Hin. rewrite Forall_forall in Hws. now specialize (Hws 58 Hin). Qed.

(** Two ways to cut a text at a colon, the second after a text without
    colon. *)
Lemma cut_at_colon (x y r r' : list N) :
  58 ∉ y → x ++ 58 :: r = y ++ 58 :: r' →
  (x = y ∧ r = r') ∨ ∃ l, x = y ++ 58 :: l ∧ r' = l ++ 58 :: r.
Proof.
  intros Hy Heq. apply app_eq_app in Heq as [l [[-> Heq]|[-> Heq]]].
  - destruct l as [|c l]; cbn in Heq.
    + injection Heq as ->. left. now rewrite app_nil_r.
    + injection Heq as <- ->. right. now exists l.
  - destruct l as [|c l]; cbn in Heq.
    + injection Heq as ->. left. now rewrite app_nil_r.
    + injection Heq as <- _. exfalso. apply Hy.
      apply elem_of_app. right. now left.
Qed.

(** A text that ends with a digit, then white space, cut before white
    space after a digit. *)
Lemma cut_at_spaces (a ws b ws' : list N) (x y : N) :
  isDigit x = true → isDigit y = true →
  Forall (fun c => isSpace c = true) ws →
  Forall (fun c => isSpace c = true) ws' →
  (a ++ [x]) ++ ws = (b ++ [y]) ++ ws' → a ++ [x] = b ++ [y] ∧ ws = ws'.
Proof.
  intros Hx Hy Hws Hws' Heq.
  assert (∀ (u v : list N) (c : N) (l w : list N),
            isDigit c = true → Forall (fun c => isSpace c = true) w →
            (u ++ [c]) = v ++ l → w = l ++ ws ∨ w = l ++ ws' → l ≠ [] → False)
    as Habs.
  { intros u v c l w Hc Hw Hu Hl Hne.
    destruct (exists_last Hne) as (l' & z & ->).
    rewrite app_assoc in Hu. apply app_inj_tail in Hu as [_ <-].
    assert (c ∈ w) as Hin.
    { destruct Hl as [-> | ->]; rewrite <- app_assoc;
        apply elem_of_app; right; now left. }
    rewrite Forall_forall in Hw. specialize (Hw c Hin).
    now rewrite (digit_not_space c Hc) in Hw. }
  apply app_eq_app in Heq as [l [[H1 H2]|[H1 H2]]].
  - destruct l as [|c l].
    + rewrite app_nil_r in H1. now split.
    + exfalso. eapply (Habs a (b ++ [y]) x (c :: l) ws' Hx Hws' H1);
        [left; exact H2|discriminate].
  - destruct l as [|c l].
    + rewrite app_nil_r in H1. now split.
    + exfalso. eapply (Habs b (a ++ [x]) y (c :: l) ws Hy Hws H1);
        [right; exact H2|discriminate].
Qed.

Lemma first_digit (ws p t u : list N) (x y : N) :
  Forall (fun c => isSpace c = true) ws → isDigit x = true → isDigit y = true →
  ws ++ x :: t = p ++ y :: u → ∃ l, p ++ [y] = ws ++ x :: l.
Proof.
  intros Hws Hx Hy Heq. apply app_eq_app in Heq as [l [[-> Heq]|[-> Heq]]].
  - destruct l as [|c l]; cbn in Heq.
    + injection Heq as -> _. exists []. now rewrite app_nil_r.
    + injection Heq as <- _. exfalso.
      apply Forall_app in Hws as [_ Hws]. apply Forall_cons in Hws as [Hc _].
      now rewrite (digit_not_space y Hy) in Hc.
  - destruct l as [|c l]; cbn in Heq.
    + injection Heq as -> _. exists []. now rewrite app_nil_r.
    + injection Heq as -> _. exists (l ++ [y]). now rewrite <- app_assoc.
Qed.

(** Where a ratio token starts at or before a ratio token, one starts with
    any other white space around the colon of the latter. *)
Lemma tokenAt_whitespace (pre n ws1 ws2 ws1' ws2' d tail : list N) :
  numberToken n → numberToken d →
  Forall (fun x => isSpace x = true) ws1 →
  Forall (fun x => isSpace x = true) ws1' →
  Forall (fun x => isSpace x = true) ws2' →
  tokenAt (pre ++ n ++ ws1 ++ 58 :: ws2 ++ d ++ tail) →
  tokenAt (pre ++ n ++ ws1' ++ 58 :: ws2' ++ d ++ tail).
Proof.
  intros Hn Hd Hws1 Hws1' Hws2' (n' & w1 & w2 & d' & t' & Heq & Hn' & Hd' & Hw1 & Hw2).
  replace (pre ++ n ++ ws1 ++ 58 :: ws2 ++ d ++ tail)
    with ((pre ++ n ++ ws1) ++ 58 :: ws2 ++ d ++ tail) in Heq
    by now rewrite <- !app_assoc.
  replace (n' ++ w1 ++ 58 :: w2 ++ d' ++ t')
    with ((n' ++ w1) ++ 58 :: w2 ++ d' ++ t') in Heq
    by now rewrite <- !app_assoc.
  apply cut_at_colon in Heq as [[Hx Hr]|[l [Hx Hr]]].
  - destruct (numberToken_last n Hn) as (n0 & x & -> & Hdx).
    destruct (numberToken_last n' Hn') as (n0' & y & -> & Hdy).
    replace (pre ++ (n0 ++ [x]) ++ ws1) with (((pre ++ n0) ++ [x]) ++ ws1) in Hx
      by now rewrite <- !app_assoc.
    apply cut_at_spaces in Hx as [Hx _]; try assumption.
    exists (n0' ++ [y]), ws1', ws2', d, tail.
    split; [rewrite <- Hx; now rewrite <- !app_assoc|]. now repeat split.
  - assert (∃ p, pre = (n' ++ w1) ++ 58 :: p ∧ l = p ++ n ++ ws1) as (p & -> & ->).
    { replace ((n' ++ w1) ++ 58 :: l) with (((n' ++ w1) ++ [58]) ++ l) in Hx
        by now rewrite <- !app_assoc.
      apply app_eq_app in Hx as [k [[Hp Hk]|[Hp Hk]]].
      - exists k. split; [|exact Hk]. rewrite Hp. now rewrite <- !app_assoc.
      - destruct k as [|c k].
        + exists []. rewrite app_nil_r in Hp. cbn in Hk. split; [|now rewrite Hk].
          rewrite <- Hp. now rewrite <- !app_assoc.
        + exfalso. destruct (exists_last (l := c :: k)) as (k' & z & Hz);
            [discriminate|].
          rewrite Hz in Hp, Hk. rewrite app_assoc in Hp.
          apply app_inj_tail in Hp as [_ <-].
          assert (58 ∈ n ++ ws1) as Hin.
          { rewrite Hk, <- app_assoc. apply elem_of_app. right.
            apply elem_of_app. left. now left. }
          apply elem_of_app in Hin as [Hin|Hin].
          * now apply numberToken_no_colon in Hin.
          * now apply spaces_no_colon in Hin. }
    destruct (numberToken_head d' Hd') as (x & d0 & -> & Hdx).
    destruct (numberToken_head n Hn) as (y & n0 & -> & Hdy).
    rewrite <- !app_assoc in Hr. cbn [app] in Hr.
    apply (first_digit w2 p _ _ x y Hw2 Hdx Hdy) in Hr as [l0 Hl0].
    exists n', w1, w2, [x], (l0 ++ n0 ++ ws1' ++ 58 :: ws2' ++ d ++ tail).
    split.
    + rewrite <- !app_assoc. cbn [app]. do 3 f_equal.
      change (p ++ y :: n0 ++ ws1' ++ 58 :: ws2' ++ d ++ tail)
        with (p ++ [y] ++ n0 ++ ws1' ++ 58 :: ws2' ++ d ++ tail).
      rewrite (app_assoc p [y]), Hl0. now rewrite <- !app_assoc.
    + split; [exact Hn'|]. split; [now apply token_digit|]. now split.
  - intros Hin. apply elem_of_app in Hin as [Hin|Hin].
    + now apply numberToken_no_colon in Hin.
    + now apply spaces_no_colon in Hin.
Qed.

(** The first ratio token stays the first with any other white space
    around its colon. *)
Lemma firstToken_whitespace (pre n ws1 ws2 ws1' ws2' d tail : list N) :
  Forall (fun x => isSpace x = true) ws1' →
  Forall (fun x => isSpace x = true) ws2' →
  firstToken pre n ws1 ws2 d tail → firstToken pre n ws1' ws2' d tail.
Proof.
  intros Hws1' Hws2' (Hn & Hd & Hws1 & Hws2 & Htail & Hfirst).
  repeat apply conj; try assumption.
  intros i Hi Hat. apply (Hfirst i Hi).
  unfold segment in *. rewrite drop_app_le in * by lia.
  now apply (tokenAt_whitespace _ n ws1' ws2' ws1 ws2 d tail).
Qed.

(** A token after a text without colon that does not end with a digit or a
    point is the first ratio token. *)
Lemma firstToken_no_colon (pre n ws1 ws2 d tail : list N) (z : N) :
  58 ∉ pre ++ [z] → isDigit z || (z =? 46) = false →
  numberToken n → numberToken d →
  Forall (fun x => isSpace x = true) ws1 →
  Forall (fun x => isSpace x = true) ws2 →
  ¬ continued d tail →
  firstToken (pre ++ [z]) n ws1 ws2 d tail.
Proof.
  intros Hcolon Hz Hn Hd Hws1 Hws2 Htail.
  repeat apply conj; try assumption.
  intros i Hi (n' & w1 & w2 & d' & t' & Heq & Hn' & Hd' & Hw1 & Hw2).
  unfold segment in Heq. rewrite drop_app_le in Heq by lia.
  assert (∃ q, drop i (pre ++ [z]) = q ++ [z]) as [q Hq].
  { rewrite length_app in Hi. cbn in Hi.
    rewrite drop_app_le by lia. now exists (drop i pre). }
  assert (58 ∉ q ++ [z]) as Hcolon'.
  { intros Hin. apply Hcolon. rewrite <- Hq in Hin.
    rewrite <- (take_drop i (pre ++ [z])). apply elem_of_app. now right. }
  rewrite Hq in Heq.
  replace ((q ++ [z]) ++ n ++ ws1 ++ 58 :: ws2 ++ d ++ tail)
    with (((q ++ [z]) ++ n ++ ws1) ++ 58 :: ws2 ++ d ++ tail) in Heq
    by now rewrite <- !app_assoc.
  replace (n' ++ w1 ++ 58 :: w2 ++ d' ++ t')
    with ((n' ++ w1) ++ 58 :: w2 ++ d' ++ t') in Heq
    by now rewrite <- !app_assoc.
  apply cut_at_colon in Heq as [[Hx _]|[l [Hx _]]].
  - destruct (numberToken_last n Hn) as (n0 & x & -> & Hdx).
    destruct (numberToken_last n' Hn') as (n0' & y & Hn0' & Hdy).
    rewrite Hn0' in Hx.
    replace ((q ++ [z]) ++ (n0 ++ [x]) ++ ws1)
      with ((((q ++ [z]) ++ n0) ++ [x]) ++ ws1) in Hx
      by now rewrite <- !app_assoc.
    apply cut_at_spaces in Hx as [Hx _]; try assumption.
    rewrite <- Hn0' in Hx. apply numberToken_units in Hn'.
    rewrite <- Hx, <- !app_assoc in Hn'.
    apply Forall_app in Hn' as [_ Hn']. apply Forall_cons in Hn' as [Hz' _].
    congruence.
  - assert (58 ∈ (q ++ [z]) ++ n ++ ws1) as Hin
      by (rewrite Hx; apply elem_of_app; right; now left).
    apply elem_of_app in Hin as [Hin|Hin]; [contradiction|].
    apply elem_of_app in Hin as [Hin|Hin].
    + now apply numberToken_no_colon in Hin.
    + now apply spaces_no_colon in Hin.
  - intros Hin. apply elem_of_app in Hin as [Hin|Hin].
    + now apply numberToken_no_colon in Hin.
    + now apply spaces_no_colon in Hin.
Qed.

(** ** The rounded quotient *)

Lemma exactOn_pairs :
  forallb (fun a => forallb (fun b => exactOn (digitsOfN a) (digitsOfN b))
                      (range 1 40))
    (range 1 40) = true.
Proof. vm_compute. reflexivity. Qed.

Lemma exactOn_thousandths :
  forallb (fun k => exactOn (thousandths k) (js "1")) (range 1 2999) = true.
Proof. vm_compute. reflexivity. Qed.

Lemma exactOn_hundredths :
  forallb (fun k => exactOn (fixedDigits k) (js "1")) (range 1 999) = true.
Proof. vm_compute. reflexivity. Qed.

Lemma In_range (k : N) (a n : nat) :
  N.of_nat a ≤ k → k < N.of_nat (a + n) → In k (range a n).
Proof.
  intros H1 H2. apply list_elem_of_In, list_elem_of_fmap.
  exists (N.to_nat k). split; [now rewrite N2Nat.id|].
  apply elem_of_seq. lia.
Qed.

Lemma exactOn_checked (n d : list N) : checkedToken n d → exactOn n d = true.
Proof.
  intros [(a & b & Ha & Hb & -> & ->)|[(k & Hk & -> & ->)|(k & Hk & -> & ->)]].
  - pose proof exactOn_pairs as Hall. rewrite forallb_forall in Hall.
    specialize (Hall a (In_range a 1 40 ltac:(lia) ltac:(lia))).
    rewrite forallb_forall in Hall.
    exact (Hall b (In_range b 1 40 ltac:(lia) ltac:(lia))).
  - pose proof exactOn_thousandths as Hall. rewrite forallb_forall in Hall.
    exact (Hall k (In_range k 1 2999 ltac:(lia) ltac:(lia))).
  - pose proof exactOn_hundredths as Hall. rewrite forallb_forall in Hall.
    exact (Hall k (In_range k 1 999 ltac:(lia) ltac:(lia))).
Qed.

(** C1 as the code has it.  On a segment whose first ratio token is a number
    [n], white space, a colon, white space and a number [d], the round of
    the loop adds one entry when the denominator is not zero and the
    numerator is positive; its ratio is the quotient of the two Number
    values, times 100, rounded by [Math.round], divided by 100 and printed
    by [toFixed(2)], followed by [:1].  The ratios are the same for any
    other white space around the colon.  For two integers from 1 to 40,
    for the thousandths up to 2.999 over 1 and for the hundredths up to 9.99
    over 1, the ratio is the exact quotient rounded to two decimals, unless
    100 times the quotient lies halfway between two integers.  [2.39 : 1],
    [2.39:1] and [2.39  :  1] all yield [2.39:1]. *)
Theorem parsePart_ratio_whitespace
    (out : list RatioEntry) (pre n ws1 ws2 d tail : list N) :
  firstToken pre n ws1 ws2 d tail →
  (eqb (parseFloat d) zero = false → ltb zero (parseFloat n) = true →
   ratio <$> parsePart out (segment pre n ws1 ws2 d tail)
   = (ratio <$> out) ++ [normalizedRatio (parseFloat n) (parseFloat d)])
  ∧ (∀ ws1' ws2',
       Forall (fun x => isSpace x = true) ws1' →
       Forall (fun x => isSpace x = true) ws2' →
       ratio <$> parsePart out (segment pre n ws1' ws2' d tail)
       = ratio <$> parsePart out (segment pre n ws1 ws2 d tail))
  ∧ (checkedToken n d → tie n d = false →
     ratio <$> parsePart out (segment pre n ws1 ws2 d tail)
     = (ratio <$> out) ++ [exactRatio n d])
  ∧ ratio <$> parseRatiosFromBlock (js "Aspect ratio 2.39 : 1") = [js "2.39:1"]
  ∧ ratio <$> parseRatiosFromBlock (js "Aspect ratio 2.39:1") = [js "2.39:1"]
  ∧ ratio <$> parseRatiosFromBlock (js "Aspect ratio 2.39  :  1") = [js "2.39:1"].
Proof.
  intros Hfirst. split; [|split; [|split]].
  - intros Hden Hnum. rewrite parsePart_first by exact Hfirst.
    now rewrite Hden, Hnum.
  - intros ws1' ws2' H1 H2. rewrite !parsePart_first; [reflexivity|exact Hfirst|].
    now apply (firstToken_whitespace pre n ws1 ws2).
  - intros Hchecked Htie. apply exactOn_checked in Hchecked.
    unfold exactOn in Hchecked. rewrite Htie in Hchecked. cbn [orb] in Hchecked.
    apply andb_true_iff in Hchecked as [Hcond Hexact].
    apply bool_decide_eq_true in Hexact.
    rewrite parsePart_first by exact Hfirst. now rewrite Hcond, Hexact.
  - vm_compute. repeat split.
Qed.

Lemma parsePart_ratio_whitespace_witness :
  firstToken (js "35 mm, ") (js "16") (js " ") (js "  ") (js "9") (js " (HDTV)")
  ∧ ratio <$> parsePart [] (js "35 mm, 16 :  9 (HDTV)") = [js "1.78:1"]
  ∧ ratio <$> parsePart [] (js "35 mm, 16:9 (HDTV)") = [js "1.78:1"].
Proof.
  assert (firstToken (js "35 mm, ") (js "16") (js " ") (js "  ") (js "9")
            (js " (HDTV)")) as Hfirst.
  { apply (firstToken_no_colon (js "35 mm,") (js "16") (js " ") (js "  ")
             (js "9") (js " (HDTV)") 32).
    - vm_compute. intros Hin. repeat (apply elem_of_cons in Hin as [Hin|Hin];
        [discriminate|]). now apply elem_of_nil in Hin.
    - reflexivity.
    - exists (js "16"), []. split; [discriminate|].
      split; [repeat constructor|]. split; [constructor|now left].
    - now apply token_digit.
    - repeat constructor.
    - repeat constructor.
    - now apply not_continued_plain. }
  split; [exact Hfirst|].
  destruct (parsePart_ratio_whitespace [] (js "35 mm, ") (js "16") (js " ")
              (js "  ") (js "9") (js " (HDTV)") Hfirst) as (_ & Hws & Hexact & _).
  assert (checkedToken (js "16") (js "9")) as Hchecked.
  { left. exists 16, 9. repeat split; try lia; reflexivity. }
  assert ((ratio <$> []) ++ [exactRatio (js "16") (js "9")] = [js "1.78:1"])
    as Hvalue by (vm_compute; reflexivity).
  split.
  - change (js "35 mm, 16 :  9 (HDTV)")
      with (segment (js "35 mm, ") (js "16") (js " ") (js "  ") (js "9")
              (js " (HDTV)")).
    rewrite (Hexact Hchecked eq_refl). exact Hvalue.
  - change (js "35 mm, 16:9 (HDTV)")
      with (segment (js "35 mm, ") (js "16") [] [] (js "9") (js " (HDTV)")).
    rewrite (Hws [] []) by constructor.
    rewrite (Hexact Hchecked eq_refl). exact Hvalue.
Defined.

(** C1 as stated fails: [1.015:1] and [23:40] are well-formed tokens with a
    positive numerator and a nonzero denominator; the exact quotients 1.015
    and 0.575 round to 1.02 and 0.58, the entries have the ratios [1.01:1]
    and [0.57:1]. *)
Lemma parsePart_ratio_not_exact :
  ratio <$> parseRatiosFromBlock (js "Aspect ratio 1.015:1") = [js "1.01:1"]
  ∧ exactRatio (js "1.015") (js "1") = js "1.02:1"
  ∧ ratio <$> parseRatiosFromBlock (js "Aspect ratio 23:40") = [js "0.57:1"]
  ∧ exactRatio (js "23") (js "40") = js "0.58:1"
  ∧ ¬ (∀ pre n ws1 ws2 d tail,
         firstToken pre n ws1 ws2 d tail →
         eqb (parseFloat d) zero = false →
         ltb zero (parseFloat n) = true →
         ratio <$> parsePart [] (segment pre n ws1 ws2 d tail)
         = [exactRatio n d]).
Proof.
  split; [vm_compute; reflexivity|]. split; [vm_compute; reflexivity|].
  split; [vm_compute; reflexivity|]. split; [vm_compute; reflexivity|].
  intros Hclaim.
  specialize (Hclaim [] (js "1.015") [] [] (js "1") []).
  assert (firstToken [] (js "1.015") [] [] (js "1") []) as Hfirst.
  { apply firstToken_plain, segmentOk_plain; [|now apply token_digit|constructor..].
    exists (js "1"), (js "015"). split; [discriminate|].
    split; [repeat constructor|]. split; [repeat constructor|].
    right. split; [discriminate|reflexivity]. }
  specialize (Hclaim Hfirst eq_refl eq_refl).
  vm_compute in Hclaim. discriminate.
Qed.

(** ** The classifier and the exact table *)












(** ** The selector on a missing list and the guard of the builder *)

Lemma scoreForPrimary_nonneg (r : list N) : (0 <= scoreForPrimary r)%Z.
Proof.
  destruct (scoreForPrimary_range r) as [Hnone Hsome].
  destruct (ratioToNumber r) eqn:Hval.
  - specialize (Hsome ltac:(discriminate)). lia.
  - rewrite Hnone by reflexivity. lia.
Qed.

Lemma scoreForPrimary_empty : scoreForPrimary [] = 0%Z.
Proof. reflexivity. Qed.

(** When the selector answers with the empty text, it is the first
    element. *)
Lemma choosePrimaryRatio_empty (y : list N) (l : list (list N)) :
  choosePrimaryRatio (Some (y :: l)) = Some [] → y = [].
Proof.
  intros Hchosen.
  destruct (choosePrimaryRatio_firstBest (y :: l)) as (r & Hr & Hbest);
    [discriminate|].
  rewrite Hr in Hchosen. injection Hchosen as ->.
  destruct Hbest as (i & Hi & _ & Hbefore).
  destruct i as [|i]; [cbn in Hi; congruence|].
  specialize (Hbefore 0%nat y ltac:(lia) eq_refl).
  rewrite scoreForPrimary_empty in Hbefore.
  pose proof (scoreForPrimary_nonneg y). lia.
Qed.

(** C10. The selector answers null on a missing or empty list, and on no
    other.  The record builder takes [choosePrimaryRatio(list) || list[0]]
    as primary ratio: on a nonempty list this is the first element whenever
    the selector's answer is falsy, which is then the empty text and the
    first element itself, and the selector's answer otherwise.  On a
    document that was fetched and has a nonempty list of ratios the builder
    returns a record; the selector's answer is an element of the list and
    not empty, and the ratio of the record is its normal form. *)
Theorem choosePrimaryRatio_null_guard
    (imdbId : list N) (res : Response) (x : list N) (l : list (list N)) :
  ok res = true →
  parseAllAspectRatiosFromImdb (text res) = x :: l →
  choosePrimaryRatio None = None
  ∧ choosePrimaryRatio (Some []) = None
  ∧ (∀ (y : list N) (l' : list (list N)),
       let chosen := choosePrimaryRatio (Some (y :: l')) in
       chosen ≠ None
       ∧ (chosen = Some [] → orElse chosen (head (y :: l')) = Some y ∧ y = [])
       ∧ (∀ p, chosen = Some p → p ≠ [] →
            orElse chosen (head (y :: l')) = Some p))
  ∧ ∃ r p, fetchImdbAspectRatio imdbId res = inr r
           ∧ choosePrimaryRatio (Some (x :: l)) = Some p
           ∧ p ≠ [] ∧ p ∈ x :: l
           ∧ allAspectRatios r = x :: l
           ∧ aspectRatio r = normalizeAspectRatioText (Some p).
Proof.
  intros Hok Hlist. split; [reflexivity|]. split; [reflexivity|]. split.
  - intros y l' chosen. split; [|split].
    + unfold chosen. discriminate.
    + intros Hchosen. split; [now rewrite Hchosen|].
      now apply (choosePrimaryRatio_empty y l').
    + intros p -> Hp. destruct p; [congruence|reflexivity].
  - destruct (choosePrimaryRatio_firstBest (x :: l)) as (p & Hp & Hbest);
      [discriminate|].
    apply firstBest_elem in Hbest.
    assert (p ≠ []) as Hne.
    { apply emitted_nonempty.
      destruct (parseAll_emitted_NoDup (text res)) as [Hall _].
      rewrite Hlist, Forall_forall in Hall. now apply Hall. }
    eexists _, p. split.
    + unfold fetchImdbAspectRatio. rewrite Hok, Hlist. cbn [negb]. reflexivity.
    + cbn [allAspectRatios aspectRatio].
      split; [exact Hp|]. split; [exact Hne|]. split; [exact Hbest|].
      split; [reflexivity|]. rewrite Hp. now destruct p.
Qed.

Lemma choosePrimaryRatio_null_guard_witness :
  let res := mkResponse true 200 (js "<li>Aspect ratio 1.37 : 1 | 2.39 : 1</li>") in
  ok res = true
  ∧ parseAllAspectRatiosFromImdb (text res) = [js "1.37:1"; js "2.39:1"]
  ∧ choosePrimaryRatio (Some [[]; js "abc"]) = Some []
  ∧ orElse (choosePrimaryRatio (Some [[]; js "abc"])) (head [[]; js "abc"])
    = Some []
  ∧ ∃ r, fetchImdbAspectRatio (js "tt0083658") res = inr r
         ∧ aspectRatio r = Some (js "2.39:1").
Proof.
  intros res.
  assert (parseAllAspectRatiosFromImdb (text res) = [js "1.37:1"; js "2.39:1"])
    as Hlist by (vm_compute; reflexivity).
  assert (choosePrimaryRatio (Some [js "1.37:1"; js "2.39:1"]) = Some (js "2.39:1"))
    as Hchosen by (vm_compute; reflexivity).
  assert (choosePrimaryRatio (Some [[]; js "abc"]) = Some []) as Hfalsy
    by (vm_compute; reflexivity).
  assert (normalizeAspectRatioText (Some (js "2.39:1")) = Some (js "2.39:1"))
    as Hnormal by (vm_compute; reflexivity).
  destruct (choosePrimaryRatio_null_guard (js "tt0083658") res (js "1.37:1")
              [js "2.39:1"] eq_refl Hlist)
    as (_ & _ & Hguard & r & p & Hr & Hp & _ & _ & _ & Hratio).
  split; [reflexivity|]. split; [exact Hlist|]. split; [exact Hfalsy|].
  split; [exact (proj1 (proj1 (proj2 (Hguard [] [js "abc"])) Hfalsy))|].
  exists r. split; [exact Hr|].
  rewrite Hchosen in Hp. injection Hp as <-. now rewrite Hratio.
Defined.
